(** * pico-nutator: the stepper motor driver (src/stepper-motor.c)

    A shallow embedding of the stepper driver and the properties of its
    phase sequencer, ramp controller and step clock.

    Conventions of the embedding.
    - [unsigned int], [uint32_t] and [size_t] values are integers in
      [0, 2^32), [uint64_t] values integers in [0, 2^64), [int] values
      integers in [-2^31, 2^31); every C operation that can leave its range
      is followed by the conversion that the compiler performs ([wrap32],
      [wrap64], [to_int], [to_int64]).
    - [struct stepper] is the record [stepper]; a function that mutates
      [*s] takes the record and returns the new one.
    - [time_us_64()] is the free running microsecond counter of the board:
      each read is an extra argument of the function that performs it.
    - An integer division by zero has no defined result: the functions that
      can reach one return [option], [None] standing for a zero divisor.
    - The GPIO registers are written by [update] only and never read back;
      [update] is the function from the record to what is written. *)

From Stdlib Require Import ZArith Bool List Lia.
Import ListNotations.
Local Open Scope Z_scope.

(** ** Machine integers *)

Module CInt.

Definition wrap32 (z : Z) : Z := z mod 2 ^ 32.
Definition wrap64 (z : Z) : Z := z mod 2 ^ 64.

(** Conversion to [int] (32 bits, two's complement). *)
Definition to_int (z : Z) : Z := (z + 2 ^ 31) mod 2 ^ 32 - 2 ^ 31.

(** Conversion to [int64_t]. *)
Definition to_int64 (z : Z) : Z := (z + 2 ^ 63) mod 2 ^ 64 - 2 ^ 63.

(** [1 << n] as it is used against a [uint32_t] operand. *)
Definition shl1 (n : Z) : Z := wrap32 (Z.shiftl 1 n).

(** Modelled from the spec: the [MIN] and [MAX] macros come from the Pico
    SDK headers, which are not part of the repository; the spec calls
    their use clamping ("clamped to [0, max_speed]", "clamped so it cannot
    overshoot"), so they are the two-argument minimum and maximum, written
    as conditional expressions over their arguments. *)
Definition MIN (a b : Z) : Z := if b >? a then a else b.
Definition MAX (a b : Z) : Z := if a >? b then a else b.

End CInt.
Import CInt.

(** The error monad of the faulting functions. *)
Definition bind {A B : Type} (m : option A) (f : A -> option B) : option B :=
  match m with
  | Some a => f a
  | None => None
  end.

Notation "x <- m ;; k" := (bind m (fun x => k))
  (at level 61, m at next level, right associativity).

(** ** The data model (stepper-motor.h, stepper-motor.c lines 16-42) *)

Definition US_PER_SEC : Z := 1000000.
Definition US_PER_MIN : Z := 60 * US_PER_SEC.
Definition MIN_RPM : Z := 1.

Inductive stepper_mode : Type :=
| STEPPER_MODE_WAVE
| STEPPER_MODE_DUAL_PHASE
| STEPPER_MODE_HALF_STEP.

Definition stepper_mode_eqb (a b : stepper_mode) : bool :=
  match a, b with
  | STEPPER_MODE_WAVE, STEPPER_MODE_WAVE => true
  | STEPPER_MODE_DUAL_PHASE, STEPPER_MODE_DUAL_PHASE => true
  | STEPPER_MODE_HALF_STEP, STEPPER_MODE_HALF_STEP => true
  | _, _ => false
  end.

(** One entry of the [pins] array. *)
Record pin_entry : Type := mk_pin { pin : Z; is_pwm : bool }.

(** [struct stepper].  The array [pins] and its length [num_pins] are one
    list; [num_pins] below is its length. *)
Record stepper : Type := mk_stepper {
  steps_per_rev : Z;
  max_rpm : Z;
  mode : stepper_mode;
  mask : Z;
  half_mask : Z;
  target_rpm : Z;
  accel_rpm_per_sec : Z;
  enable_pin : Z;
  pins : list pin_entry;
  last_step : Z;
  us_per_step_target : Z;
  us_per_step : Z;
  us_accel : Z;
  max_us_per_step : Z;
  last_accel_step : Z;
  step_count : Z
}.

Definition num_pins (s : stepper) : Z := Z.of_nat (length (pins s)).

(** Field assignments: [set_f v s] is [s] after [s->f = v]. *)

Definition set_mask (v : Z) (s : stepper) : stepper :=
  mk_stepper (steps_per_rev s) (max_rpm s) (mode s) v (half_mask s)
    (target_rpm s) (accel_rpm_per_sec s) (enable_pin s) (pins s) (last_step s)
    (us_per_step_target s) (us_per_step s) (us_accel s) (max_us_per_step s)
    (last_accel_step s) (step_count s).

Definition set_half_mask (v : Z) (s : stepper) : stepper :=
  mk_stepper (steps_per_rev s) (max_rpm s) (mode s) (mask s) v (target_rpm s)
    (accel_rpm_per_sec s) (enable_pin s) (pins s) (last_step s)
    (us_per_step_target s) (us_per_step s) (us_accel s) (max_us_per_step s)
    (last_accel_step s) (step_count s).

Definition set_target_rpm (v : Z) (s : stepper) : stepper :=
  mk_stepper (steps_per_rev s) (max_rpm s) (mode s) (mask s) (half_mask s) v
    (accel_rpm_per_sec s) (enable_pin s) (pins s) (last_step s)
    (us_per_step_target s) (us_per_step s) (us_accel s) (max_us_per_step s)
    (last_accel_step s) (step_count s).

Definition set_pins (v : list pin_entry) (s : stepper) : stepper :=
  mk_stepper (steps_per_rev s) (max_rpm s) (mode s) (mask s) (half_mask s)
    (target_rpm s) (accel_rpm_per_sec s) (enable_pin s) v (last_step s)
    (us_per_step_target s) (us_per_step s) (us_accel s) (max_us_per_step s)
    (last_accel_step s) (step_count s).

Definition set_last_step (v : Z) (s : stepper) : stepper :=
  mk_stepper (steps_per_rev s) (max_rpm s) (mode s) (mask s) (half_mask s)
    (target_rpm s) (accel_rpm_per_sec s) (enable_pin s) (pins s) v
    (us_per_step_target s) (us_per_step s) (us_accel s) (max_us_per_step s)
    (last_accel_step s) (step_count s).

Definition set_us_per_step_target (v : Z) (s : stepper) : stepper :=
  mk_stepper (steps_per_rev s) (max_rpm s) (mode s) (mask s) (half_mask s)
    (target_rpm s) (accel_rpm_per_sec s) (enable_pin s) (pins s) (last_step s)
    v (us_per_step s) (us_accel s) (max_us_per_step s) (last_accel_step s)
    (step_count s).

Definition set_us_per_step (v : Z) (s : stepper) : stepper :=
  mk_stepper (steps_per_rev s) (max_rpm s) (mode s) (mask s) (half_mask s)
    (target_rpm s) (accel_rpm_per_sec s) (enable_pin s) (pins s) (last_step s)
    (us_per_step_target s) v (us_accel s) (max_us_per_step s)
    (last_accel_step s) (step_count s).

Definition set_us_accel (v : Z) (s : stepper) : stepper :=
  mk_stepper (steps_per_rev s) (max_rpm s) (mode s) (mask s) (half_mask s)
    (target_rpm s) (accel_rpm_per_sec s) (enable_pin s) (pins s) (last_step s)
    (us_per_step_target s) (us_per_step s) v (max_us_per_step s)
    (last_accel_step s) (step_count s).

Definition set_max_us_per_step (v : Z) (s : stepper) : stepper :=
  mk_stepper (steps_per_rev s) (max_rpm s) (mode s) (mask s) (half_mask s)
    (target_rpm s) (accel_rpm_per_sec s) (enable_pin s) (pins s) (last_step s)
    (us_per_step_target s) (us_per_step s) (us_accel s) v (last_accel_step s)
    (step_count s).

Definition set_last_accel_step (v : Z) (s : stepper) : stepper :=
  mk_stepper (steps_per_rev s) (max_rpm s) (mode s) (mask s) (half_mask s)
    (target_rpm s) (accel_rpm_per_sec s) (enable_pin s) (pins s) (last_step s)
    (us_per_step_target s) (us_per_step s) (us_accel s) (max_us_per_step s) v
    (step_count s).

Definition set_step_count (v : Z) (s : stepper) : stepper :=
  mk_stepper (steps_per_rev s) (max_rpm s) (mode s) (mask s) (half_mask s)
    (target_rpm s) (accel_rpm_per_sec s) (enable_pin s) (pins s) (last_step s)
    (us_per_step_target s) (us_per_step s) (us_accel s) (max_us_per_step s)
    (last_accel_step s) v.

(** C truth value of an integer: [if (z)], [z ? a : b], [!z]. *)
Definition nonzero (z : Z) : bool := negb (z =? 0).

(** ** Pin manager: [update] (lines 48-65) *)

Inductive gpio_function : Type := GPIO_FUNC_SIO | GPIO_FUNC_PWM.

(** What one call of [update] sends to the GPIO block: the
    [gpio_set_function] calls in program order, then the two arguments of
    the final [gpio_put_masked]. *)
Record gpio_out : Type := mk_gpio_out {
  set_function : list (Z * gpio_function);
  put_mask : Z;
  put_value : Z
}.

(** The body of the [for] loop, from index [i] on; [bits] is
    [s->mask | s->half_mask]. *)
Fixpoint update_loop (bits i : Z) (ps : list pin_entry) (o : gpio_out)
  : gpio_out :=
  match ps with
  | [] => o
  | p :: ps' =>
      let m := Z.lor (put_mask o) (shl1 (pin p)) in
      let o' :=
        if nonzero (Z.land (Z.shiftr bits i) 1) then
          if is_pwm p then
            mk_gpio_out (set_function o ++ [(pin p, GPIO_FUNC_PWM)]) m
              (put_value o)
          else
            mk_gpio_out (set_function o) m (Z.lor (put_value o) (shl1 (pin p)))
        else if is_pwm p then
          mk_gpio_out (set_function o ++ [(pin p, GPIO_FUNC_SIO)]) m
            (put_value o)
        else mk_gpio_out (set_function o) m (put_value o) in
      update_loop bits (i + 1) ps' o'
  end.

Definition update (s : stepper) : gpio_out :=
  update_loop (Z.lor (mask s) (half_mask s)) 0 (pins s) (mk_gpio_out [] 0 0).

(** ** Phase sequencer (lines 67-102, 206-234) *)

(** [step_mask]: [m] is the [uint32_t mask] argument. *)
Definition step_mask (m : Z) (forward : bool) (num_pins : Z) : Z :=
  let m3 :=
    if forward then
      let m1 := if nonzero (Z.land m 1) then Z.lor m (shl1 num_pins) else m in
      Z.shiftr m1 1
    else
      let m1 := wrap32 (Z.shiftl m 1) in
      if nonzero (Z.land m1 (shl1 num_pins)) then Z.lor m1 1 else m1 in
  Z.land m3 (wrap32 (shl1 num_pins - 1)).

Definition stepper_brake (s : stepper) : stepper :=
  set_half_mask 0 (set_mask 0 s).

Definition stepper_hold (s : stepper) : stepper :=
  match mode s with
  | STEPPER_MODE_WAVE => set_half_mask 0 (set_mask 1 s)
  | STEPPER_MODE_DUAL_PHASE => set_half_mask 0 (set_mask 3 s)
  | STEPPER_MODE_HALF_STEP => set_half_mask 1 (set_mask 1 s)
  end.

Definition step (s : stepper) (forward : bool) : stepper :=
  if negb (nonzero (mask s)) then stepper_hold s
  else
    let s1 :=
      if negb (stepper_mode_eqb (mode s) STEPPER_MODE_HALF_STEP)
         || nonzero (Z.land (step_count s) 1)
      then set_mask (step_mask (mask s) forward (num_pins s)) s
      else set_half_mask (step_mask (half_mask s) forward (num_pins s)) s in
    set_step_count (wrap64 (step_count s1 + 1)) s1.

(** ** Construction and configuration (lines 44-46, 104-152) *)

(** [rpm_to_step_us]: the product is formed in 64 bits from two 32-bit
    operands and cannot wrap; a zero product is a division by zero. *)
Definition rpm_to_step_us (s : stepper) (rpm : Z) : option Z :=
  let d := rpm * steps_per_rev s in
  if d =? 0 then None else Some (US_PER_MIN / d).

(** [stepper_create]: [calloc] clears every field. *)
Definition stepper_create (steps_per_rev max_rpm : Z) (mode : stepper_mode)
    (enable_pin : Z) : stepper :=
  let spr :=
    if stepper_mode_eqb mode STEPPER_MODE_HALF_STEP
    then wrap32 (steps_per_rev * 2) else steps_per_rev in
  mk_stepper spr max_rpm mode 0 0 0 0 enable_pin [] 0 0 0 0 0 0 0.

Definition stepper_add_pin (s : stepper) (pin : Z) (is_pwm : bool) : stepper :=
  set_pins (pins s ++ [mk_pin pin is_pwm]) s.

Definition stepper_set_accel (s : stepper) (rpm_per_sec min_rpm : Z)
  : option stepper :=
  if rpm_per_sec =? 0 then Some (set_us_accel 0 s)
  else
    a <- rpm_to_step_us s (wrap32 (rpm_per_sec * 60)) ;;
    let s1 := set_us_accel a s in
    m <- rpm_to_step_us s1 min_rpm ;;
    Some (set_max_us_per_step m s1).

(** ** Stepping (lines 154-204) *)

(** [stepper_step]; [now] is the value read by [time_us_64()]. *)
Definition stepper_step (now : Z) (s : stepper) (forward : bool) : stepper :=
  let s1 := step s forward in
  let s2 := set_last_step now s1 in
  set_last_accel_step (last_step s2) s2.

(** The ramp controller: the first statement of [stepper_update]
    (lines 163-188). *)
Definition stepper_update_ramp (now : Z) (s : stepper) : stepper :=
  if nonzero (us_accel s) then
    if (us_per_step_target s =? 0)
       && ((us_per_step s =? max_us_per_step s) || (us_per_step s =? 0))
    then set_us_per_step 0 s
    else if negb (us_per_step_target s =? 0) && (us_per_step s =? 0)
    then set_us_per_step (max_us_per_step s) s
    else if now >=? last_accel_step s then
      let num_steps := to_int ((now - last_accel_step s) / us_accel s) in
      let target :=
        to_int64 (if nonzero (us_per_step_target s)
                  then us_per_step_target s else max_us_per_step s) in
      let s1 :=
        if us_per_step s <? wrap64 target then
          set_us_per_step
            (wrap64 (MIN (to_int64 (to_int64 (us_per_step s) + num_steps))
                         target)) s
        else if us_per_step s >? wrap64 target then
          set_us_per_step
            (wrap64 (MAX (to_int64 (to_int64 (us_per_step s) - num_steps))
                         target)) s
        else s in
      set_last_accel_step
        (wrap64 (last_accel_step s1 + wrap64 (us_accel s1 * wrap64 num_steps)))
        s1
    else s
  else set_us_per_step (us_per_step_target s) s.

(** The step clock: the rest of [stepper_update] (lines 190-204), with its
    return value. *)
Definition stepper_update_clock (now : Z) (s : stepper) : stepper * bool :=
  if negb (nonzero (us_per_step s)) then (s, false)
  else if now >=? last_step s then
    let num_steps := to_int ((now - last_step s) / us_per_step s) in
    let s2 :=
      if nonzero num_steps then
        let s1 := step s true in
        set_last_step (wrap64 (last_step s1 + us_per_step s1)) s1
      else s in
    (s2, num_steps >? 1)
  else (s, false).

(** [stepper_update]; [now] is the value read by [time_us_64()]. *)
Definition stepper_update (now : Z) (s : stepper) : stepper * bool :=
  stepper_update_clock now (stepper_update_ramp now s).

(** ** Speed (lines 242-268) *)

(** [stepper_set_rpm]; [t1] and [t2] are the values of the two successive
    reads of [time_us_64()]. *)
Definition stepper_set_rpm (t1 t2 : Z) (s : stepper) (rpm : Z)
  : option stepper :=
  let rpm := MIN rpm (max_rpm s) in
  if rpm =? target_rpm s then Some s
  else
    let s1 := set_target_rpm rpm s in
    let s2 := set_last_step t1 s1 in
    let s3 := set_last_accel_step t2 s2 in
    if nonzero rpm then
      v <- rpm_to_step_us s3 rpm ;;
      Some (set_us_per_step_target v s3)
    else Some (set_us_per_step_target 0 s3).

(** [stepper_enable] leaves the record alone; the result is the argument
    pair of its [gpio_put], if it makes one. *)
Definition stepper_enable (s : stepper) (enable : bool) : option (Z * Z) :=
  if enable_pin s >=? 0 then Some (enable_pin s, if enable then 1 else 0)
  else None.

Definition stepper_get_rpm (s : stepper) : Z := target_rpm s.

Definition stepper_get_actual_rpm (s : stepper) : option Z :=
  if negb (nonzero (us_per_step s)) then Some 0
  else
    let d := wrap64 (us_per_step s * steps_per_rev s) in
    if d =? 0 then None else Some (wrap32 (US_PER_MIN / d)).

Definition stepper_step_count (s : stepper) : Z := step_count s.

(** ** The firmware's motor (main.c lines 18-20, 42, 52, 57, 201-231) *)

Definition MAX_RPM : Z := 60.
Definition RPM_STEP : Z := 5.
Definition STEPS_PER_REV : Z := 200.
Definition MOTOR_ACCEL : Z := 60.
Definition MOTOR_ENABLE_PIN : Z := 8.
Definition motor_pins : list Z := [0; 4; 2; 6].

(** [motor] after [stepper_create] and the loop of [stepper_add_pin]. *)
Definition motor_created : stepper :=
  fold_left (fun s p => stepper_add_pin s p true) motor_pins
    (stepper_create STEPS_PER_REV MAX_RPM STEPPER_MODE_HALF_STEP
       MOTOR_ENABLE_PIN).

(** [motor] when [main] enters its loop: acceleration set, then held. *)
Definition motor_booted : option stepper :=
  s <- stepper_set_accel motor_created MOTOR_ACCEL RPM_STEP ;;
  Some (stepper_hold s).

(** The same record in normal form. *)
Definition motor_held : stepper :=
  Eval vm_compute in
    match motor_booted with Some s => s | None => motor_created end.

(** The first press of the start button at time [t], with the stored speed
    [MAX_RPM]: [stepper_set_rpm(motor, persist.target_rpm)]. *)
Definition motor_started (t : Z) : stepper :=
  match stepper_set_rpm t t motor_held MAX_RPM with
  | Some s => s
  | None => motor_held
  end.

(** The firmware's motor without the call of [stepper_set_accel] (ramping
    disabled): held, started at time 0 with [MAX_RPM], and polled once at
    time 0.  It runs at its target interval and has taken no step yet. *)
Definition motor_steady : stepper :=
  match stepper_set_rpm 0 0 (stepper_hold motor_created) MAX_RPM with
  | Some s => fst (stepper_update 0 s)
  | None => motor_created
  end.

(** The firmware's motor on its way up the ramp: started at time 0, polled
    at time 0 (launch) and again 10000 ramp units later. *)
Definition motor_ramping : stepper :=
  fst (stepper_update 410000 (fst (stepper_update 0 (motor_started 0)))).

(** The half-step driver of the firmware with no winding registered,
    held. *)
Definition motor_unwired : stepper :=
  stepper_hold
    (stepper_create STEPS_PER_REV MAX_RPM STEPPER_MODE_HALF_STEP
       MOTOR_ENABLE_PIN).

(** ** Vocabulary of the properties *)

(** Number of bits set in a 32-bit pattern. *)
Definition popcount (m : Z) : nat :=
  length (filter (Z.testbit m) (map Z.of_nat (seq 0 32))).

(** The combined pattern that [update] applies. *)
Definition combined (s : stepper) : Z := Z.lor (mask s) (half_mask s).

(** The phase sequencer was advanced between [s] and [s']: [step] is the
    only function that touches these three fields besides [stepper_hold] and
    [stepper_brake], and every call of [step] changes one of them. *)
Definition sequencer_advanced (s s' : stepper) : Prop :=
  mask s' <> mask s \/ half_mask s' <> half_mask s
  \/ step_count s' <> step_count s.

(** The three intervals are results of [rpm_to_step_us] (or zero), hence at
    most one minute. *)
Definition intervals_bounded (s : stepper) : Prop :=
  0 <= us_per_step_target s <= US_PER_MIN
  /\ 0 <= us_per_step s <= US_PER_MIN
  /\ 0 <= max_us_per_step s <= US_PER_MIN.

(** The interval that [stepper_set_rpm] stores for a target speed. *)
Definition interval_of_rpm (s : stepper) (rpm : Z) : Z :=
  if rpm =? 0 then 0 else US_PER_MIN / (rpm * steps_per_rev s).

(** The stored target interval is the one of the stored target speed. *)
Definition target_coherent (s : stepper) : Prop :=
  us_per_step_target s = interval_of_rpm s (target_rpm s).

(** The interval that the ramp controller steers to: the requested one, or
    the floor interval when the request is to stop. *)
Definition effective_target (s : stepper) : Z :=
  if us_per_step_target s =? 0 then max_us_per_step s
  else us_per_step_target s.

(** [cur] moved towards [tgt] by [units], without passing it. *)
Definition move_toward (cur tgt units : Z) : Z :=
  if cur <? tgt then Z.min (cur + units) tgt
  else if tgt <? cur then Z.max (cur - units) tgt
  else cur.

(** The stopped-hold case and the launch case of the ramp controller. *)
Definition stopped_hold (s : stepper) : bool :=
  (us_per_step_target s =? 0)
  && ((us_per_step s =? max_us_per_step s) || (us_per_step s =? 0)).

Definition launch (s : stepper) : bool :=
  negb (us_per_step_target s =? 0) && (us_per_step s =? 0).

(** A pattern with exactly one bit, inside a ring of [n] bits. *)
Definition one_bit (m n : Z) : Prop := exists k, 0 <= k < n /\ m = 2 ^ k.

(** Position of the bit after one rotation in a ring of [n] bits. *)
Definition rotate_position (k : Z) (forward : bool) (n : Z) : Z :=
  if forward then (if k =? 0 then n - 1 else k - 1)
  else (if k =? n - 1 then 0 else k + 1).

(** The primary mask has a bit inside the ring of registered windings. *)
Definition in_ring (s : stepper) : Prop := mask s mod 2 ^ num_pins s <> 0.

(** The states in which the motor is held or stepping: after [stepper_hold],
    and from there after any of the operations except [stepper_brake]
    (windings are registered before the first use). *)
Inductive held_or_stepping : stepper -> Prop :=
| hs_hold : forall s, held_or_stepping (stepper_hold s)
| hs_step : forall now s forward,
    held_or_stepping s -> held_or_stepping (stepper_step now s forward)
| hs_update : forall now s,
    held_or_stepping s -> held_or_stepping (fst (stepper_update now s))
| hs_set_rpm : forall t1 t2 s rpm s',
    held_or_stepping s -> stepper_set_rpm t1 t2 s rpm = Some s' ->
    held_or_stepping s'
| hs_set_accel : forall s rpm_per_sec min_rpm s',
    held_or_stepping s -> stepper_set_accel s rpm_per_sec min_rpm = Some s' ->
    held_or_stepping s'.

(** [n] successive polls, all reading the same clock value [now]: the final
    record and the returned values in order. *)
Fixpoint polls (now : Z) (n : nat) (s : stepper) : stepper * list bool :=
  match n with
  | O => (s, [])
  | S n' =>
      let '(s1, r) := stepper_update now s in
      let '(s2, rs) := polls now n' s1 in
      (s2, r :: rs)
  end.

(** [n] forward steps of the phase sequencer. *)
Fixpoint steps (n : nat) (s : stepper) : stepper :=
  match n with
  | O => s
  | S n' => steps n' (step s true)
  end.


(** A motor with 1 to 31 windings whose masks lie inside the ring, the
    primary one set. *)
Record ring_state (s : stepper) : Prop := mk_ring_state {
  ring_pins : 1 <= num_pins s <= 31;
  ring_mask : 0 < mask s < 2 ^ num_pins s;
  ring_half_mask : 0 <= half_mask s < 2 ^ num_pins s
}.


(** * The collaborators of the driver *)

(** ** Persistent settings (src/persist.h, src/persist.c) *)

Module Persist.

Definition PERSIST_VERSION : Z := 1.

(** [struct persist]: two [uint32_t] fields, eight bytes without padding. *)
Record persist : Type := mk_persist { version : Z; target_rpm : Z }.

Definition DEFAULT_PERSIST : persist := mk_persist PERSIST_VERSION 20.

(** The [ROUND_UP] macro, on [size_t] operands. *)
Definition ROUND_UP (size factor : Z) : Z :=
  wrap32 (wrap32 (wrap32 (size + factor) - 1)
          - wrap32 (wrap32 (size + factor) - 1) mod factor).

(** The bytes of a [uint32_t] in memory (the RP2040 is little endian). *)
Definition bytes_of_u32 (v : Z) : list Z :=
  [v mod 256; (v / 256) mod 256; (v / 65536) mod 256; (v / 16777216) mod 256].

Definition u32_of_bytes (b0 b1 b2 b3 : Z) : Z :=
  b0 + 256 * b1 + 65536 * b2 + 16777216 * b3.

(** The object representation of a [struct persist]: what [memcpy] and
    [memcmp] see. *)
Definition bytes_of_persist (p : persist) : list Z :=
  bytes_of_u32 (version p) ++ bytes_of_u32 (target_rpm p).

(** The two constants of [hardware/flash.h] that [write_persist] uses; the
    header is part of the SDK, so they are arguments. *)
Record flash_geometry : Type := mk_flash_geometry {
  FLASH_PAGE_SIZE : Z;
  FLASH_SECTOR_SIZE : Z
}.

Inductive flash_op : Type :=
| flash_range_erase (count : Z)
| flash_range_program (data : list Z).

(** The flash from the address of the variable [persist] on: [mem i] is the
    byte at offset [i]; [ops] are the flash operations made so far, the
    latest first. *)
Record flash : Type := mk_flash { mem : Z -> Z; ops : list flash_op }.

(** The variable [persist] as the program reads it through the XIP
    window. *)
Definition stored (f : flash) : persist :=
  mk_persist (u32_of_bytes (mem f 0) (mem f 1) (mem f 2) (mem f 3))
             (u32_of_bytes (mem f 4) (mem f 5) (mem f 6) (mem f 7)).

(** The bytes of the variable [persist], for [memcmp]. *)
Definition stored_bytes (f : flash) : list Z :=
  map (mem f) [0; 1; 2; 3; 4; 5; 6; 7].

(** Erasing sets every byte of the range to [0xFF]; programming can only
    clear bits of what is there. *)
Definition erase (count : Z) (f : flash) : flash :=
  mk_flash (fun i => if (0 <=? i) && (i <? count) then 255 else mem f i)
           (flash_range_erase count :: ops f).

Definition program (data : list Z) (f : flash) : flash :=
  mk_flash (fun i =>
              if (0 <=? i) && (i <? Z.of_nat (length data))
              then Z.land (mem f i) (nth (Z.to_nat i) data 255)
              else mem f i)
           (flash_range_program data :: ops f).

Definition list_eqb (a b : list Z) : bool :=
  (length a =? length b)%nat && forallb (fun '(x, y) => x =? y) (combine a b).

(** [read_persist]: the value stored through [p]. *)
Definition read_persist (f : flash) : persist :=
  if negb (version (stored f) =? PERSIST_VERSION) then DEFAULT_PERSIST
  else stored f.

(** [write_persist]. *)
Definition write_persist (g : flash_geometry) (p : persist) (f : flash)
  : flash :=
  let size := ROUND_UP 8 (FLASH_PAGE_SIZE g) in
  let buffer := bytes_of_persist p ++ repeat 255 (Z.to_nat size - 8) in
  if negb (list_eqb (firstn 8 buffer) (stored_bytes f)) then
    program buffer (erase (ROUND_UP size (FLASH_SECTOR_SIZE g)) f)
  else f.

End Persist.

(** ** Orchestration (src/main.c) *)

Module Main.

Definition SLEEP_TIMEOUT_US : Z := 60 * 1000000.

(** [struct hms] and [us_to_hms] (lines 86-100); the fields are
    [unsigned int]. *)
Record hms : Type := mk_hms { hours : Z; minutes : Z; seconds : Z }.

Definition us_to_hms (us : Z) : hms :=
  mk_hms (wrap32 (us / (1000000 * 60 * 60)))
         (wrap32 ((us / (1000000 * 60)) mod 60))
         (wrap32 ((us / 1000000) mod 60)).

(** The globals of [main.c] that the speed and run handling use. *)
Record globals : Type := mk_globals {
  run : bool;
  run_time_start : Z;
  sleep_start : Z;
  persist : Persist.persist;
  motor : stepper;
  flash : Persist.flash
}.

Definition set_motor (m : stepper) (g : globals) : globals :=
  mk_globals (run g) (run_time_start g) (sleep_start g) (persist g) m (flash g).

(** [set_target_rpm] (lines 102-112); [t1] and [t2] are the clock reads of
    the [stepper_set_rpm] that it may call. *)
Definition set_target_rpm (t1 t2 : Z) (g : globals) (new_rpm : Z)
  : option globals :=
  let new_rpm := MAX new_rpm RPM_STEP in
  let new_rpm := MIN new_rpm MAX_RPM in
  let g1 :=
    mk_globals (run g) (run_time_start g) (sleep_start g)
      (Persist.mk_persist (Persist.version (persist g)) new_rpm)
      (motor g) (flash g) in
  if run g1 then
    m <- stepper_set_rpm t1 t2 (motor g1) (Persist.target_rpm (persist g1)) ;;
    Some (set_motor m g1)
  else Some g1.

(** The two speed buttons of the main loop (lines 269-279), without the
    redraw: [set_target_rpm(persist.target_rpm + RPM_STEP)] and
    [set_target_rpm(persist.target_rpm - RPM_STEP)], then
    [sleep_start = now]. *)
Definition speed_up (now t1 t2 : Z) (g : globals) : option globals :=
  g1 <- set_target_rpm t1 t2 g
          (wrap32 (Persist.target_rpm (persist g) + RPM_STEP)) ;;
  Some (mk_globals (run g1) (run_time_start g1) now (persist g1) (motor g1)
          (flash g1)).

Definition speed_down (now t1 t2 : Z) (g : globals) : option globals :=
  g1 <- set_target_rpm t1 t2 g
          (wrap32 (Persist.target_rpm (persist g) - RPM_STEP)) ;;
  Some (mk_globals (run g1) (run_time_start g1) now (persist g1) (motor g1)
          (flash g1)).

(** The start/stop button of the main loop (lines 291-303), without the
    redraw. *)
Definition start_stop (fg : Persist.flash_geometry) (now t1 t2 : Z)
    (g : globals) : option globals :=
  let run' := negb (run g) in
  let flash' := Persist.write_persist fg (persist g) (flash g) in
  if run' then
    m <- stepper_set_rpm t1 t2 (motor g) (Persist.target_rpm (persist g)) ;;
    Some (mk_globals run' now now (persist g) m flash')
  else
    m <- stepper_set_rpm t1 t2 (motor g) 0 ;;
    Some (mk_globals run' (run_time_start g) now (persist g) m flash').

(** [pwm_set_freq_duty] (lines 159-172): the arguments that it passes to
    the three PWM calls; all the arithmetic is [uint32_t]. *)
Record pwm_setting : Type := mk_pwm_setting {
  clkdiv_int : Z;
  clkdiv_frac : Z;
  pwm_wrap : Z;
  chan_level : Z
}.

Definition pwm_set_freq_duty (frequency duty : Z) : option pwm_setting :=
  let clock := 125000000 in
  if (frequency =? 0) || (wrap32 (frequency * 4096) =? 0) then None
  else
    let divider16 :=
      wrap32 (clock / frequency / 4096
              + (if nonzero (clock mod wrap32 (frequency * 4096))
                 then 1 else 0)) in
    let divider16 := if divider16 / 16 =? 0 then 16 else divider16 in
    let wrap := wrap32 (wrap32 (clock * 16) / divider16 / frequency - 1) in
    Some (mk_pwm_setting (divider16 / 16) (Z.land divider16 15) wrap
            (wrap32 (wrap * wrap32 duty) / 100)).

End Main.

(** The commanded speed of the driver follows the stored speed: it is the
    stored speed while running and zero while stopped; the stored speed lies
    between [RPM_STEP] and [MAX_RPM], and the driver was created with
    [MAX_RPM]. *)
Definition in_sync (g : Main.globals) : Prop :=
  max_rpm (Main.motor g) = MAX_RPM
  /\ steps_per_rev (Main.motor g) <> 0
  /\ RPM_STEP <= Persist.target_rpm (Main.persist g) <= MAX_RPM
  /\ target_rpm (Main.motor g)
     = if Main.run g then Persist.target_rpm (Main.persist g) else 0.

(** A [struct persist] whose fields are values of [uint32_t]. *)
Definition persist_in_range (p : Persist.persist) : Prop :=
  0 <= Persist.version p < 2 ^ 32 /\ 0 <= Persist.target_rpm p < 2 ^ 32.

(** The flash of a board on which the firmware image was loaded: the
    variable [persist] holds [DEFAULT_PERSIST], every other byte is
    erased. *)
Definition flash_image : Persist.flash :=
  Persist.mk_flash
    (fun i => nth (Z.to_nat i)
                (Persist.bytes_of_persist Persist.DEFAULT_PERSIST) 255)
    [].

(** The flash geometry of the RP2040 boards. *)
Definition pico_flash : Persist.flash_geometry :=
  Persist.mk_flash_geometry 256 4096.

(** The globals of [main] when it enters its loop on a fresh board. *)
Definition globals_booted : Main.globals :=
  Main.mk_globals false 0 3000000 (Persist.read_persist flash_image)
    motor_held flash_image.

(** ** Button driver (src/button.h, src/button.c) *)

Module Button.

(** [enum state]. *)
Inductive button_state : Type :=
| STATE_RELEASED
| STATE_DEBOUNCE
| STATE_PRESSED
| STATE_REPEAT.

Definition button_state_eqb (a b : button_state) : bool :=
  match a, b with
  | STATE_RELEASED, STATE_RELEASED => true
  | STATE_DEBOUNCE, STATE_DEBOUNCE => true
  | STATE_PRESSED, STATE_PRESSED => true
  | STATE_REPEAT, STATE_REPEAT => true
  | _, _ => false
  end.

(** [struct button]; the times are [uint32_t] microseconds. *)
Record button : Type := mk_button {
  pin : Z;
  invert : bool;
  debounce_ms : Z;
  start_time : Z;
  last_duration : Z;
  down : bool;
  up : bool;
  is_pressed : bool;
  state : button_state;
  repeat_delay_ms : Z;
  repeat_ms : Z;
  last_repeat : Z;
  repeat_count : Z
}.

(** Field assignments. *)

Definition set_start_time (v : Z) (b : button) : button :=
  mk_button (pin b) (invert b) (debounce_ms b) v (last_duration b) (down b)
    (up b) (is_pressed b) (state b) (repeat_delay_ms b) (repeat_ms b)
    (last_repeat b) (repeat_count b).

Definition set_last_duration (v : Z) (b : button) : button :=
  mk_button (pin b) (invert b) (debounce_ms b) (start_time b) v (down b)
    (up b) (is_pressed b) (state b) (repeat_delay_ms b) (repeat_ms b)
    (last_repeat b) (repeat_count b).

Definition set_down (v : bool) (b : button) : button :=
  mk_button (pin b) (invert b) (debounce_ms b) (start_time b)
    (last_duration b) v (up b) (is_pressed b) (state b) (repeat_delay_ms b)
    (repeat_ms b) (last_repeat b) (repeat_count b).

Definition set_up (v : bool) (b : button) : button :=
  mk_button (pin b) (invert b) (debounce_ms b) (start_time b)
    (last_duration b) (down b) v (is_pressed b) (state b) (repeat_delay_ms b)
    (repeat_ms b) (last_repeat b) (repeat_count b).

Definition set_is_pressed (v : bool) (b : button) : button :=
  mk_button (pin b) (invert b) (debounce_ms b) (start_time b)
    (last_duration b) (down b) (up b) v (state b) (repeat_delay_ms b)
    (repeat_ms b) (last_repeat b) (repeat_count b).

Definition set_state (v : button_state) (b : button) : button :=
  mk_button (pin b) (invert b) (debounce_ms b) (start_time b)
    (last_duration b) (down b) (up b) (is_pressed b) v (repeat_delay_ms b)
    (repeat_ms b) (last_repeat b) (repeat_count b).

Definition set_repeat_delay_ms (v : Z) (b : button) : button :=
  mk_button (pin b) (invert b) (debounce_ms b) (start_time b)
    (last_duration b) (down b) (up b) (is_pressed b) (state b) v (repeat_ms b)
    (last_repeat b) (repeat_count b).

Definition set_repeat_ms (v : Z) (b : button) : button :=
  mk_button (pin b) (invert b) (debounce_ms b) (start_time b)
    (last_duration b) (down b) (up b) (is_pressed b) (state b)
    (repeat_delay_ms b) v (last_repeat b) (repeat_count b).

Definition set_last_repeat (v : Z) (b : button) : button :=
  mk_button (pin b) (invert b) (debounce_ms b) (start_time b)
    (last_duration b) (down b) (up b) (is_pressed b) (state b)
    (repeat_delay_ms b) (repeat_ms b) v (repeat_count b).

Definition set_repeat_count (v : Z) (b : button) : button :=
  mk_button (pin b) (invert b) (debounce_ms b) (start_time b)
    (last_duration b) (down b) (up b) (is_pressed b) (state b)
    (repeat_delay_ms b) (repeat_ms b) (last_repeat b) v.

(** [button_create]: [calloc] clears every field, [STATE_RELEASED] is 0. *)
Definition button_create (pin : Z) (invert : bool) (debounce_ms : Z) : button :=
  mk_button pin invert debounce_ms 0 0 false false false STATE_RELEASED 0 0 0 0.

Definition button_set_repeat (b : button) (repeat_delay_ms repeat_ms : Z)
  : button :=
  set_repeat_ms repeat_ms (set_repeat_delay_ms repeat_delay_ms b).

(** The [while] loop of [STATE_REPEAT] (lines 96-99).  The loop need not
    end, so it runs on [fuel]: [None] when the fuel is used up before the
    condition fails. *)
Fixpoint repeat_loop (fuel : nat) (now : Z) (b : button) : option button :=
  if wrap32 (last_repeat b + wrap32 (repeat_ms b * 1000)) <? now then
    match fuel with
    | O => None
    | S fuel' =>
        let b1 := set_repeat_count (wrap32 (repeat_count b + 1)) b in
        repeat_loop fuel' now
          (set_last_repeat
             (wrap32 (last_repeat b1 + wrap32 (repeat_ms b1 * 1000))) b1)
    end
  else Some b.

(** The statements of [case STATE_PRESSED] (lines 104-116), which
    [case STATE_REPEAT] falls through to. *)
Definition pressed_case (pressed : bool) (now : Z) (b : button) : button :=
  let b1 := set_is_pressed pressed b in
  if pressed then
    if button_state_eqb (state b1) STATE_PRESSED
       && nonzero (repeat_delay_ms b1)
       && (now >=? wrap32 (start_time b1 + wrap32 (repeat_delay_ms b1 * 1000)))
    then
      let b2 := set_state STATE_REPEAT b1 in
      let b3 := set_last_repeat now b2 in
      set_repeat_count (wrap32 (repeat_count b3 + 1)) b3
    else b1
  else
    let b2 := set_up true b1 in
    let b3 := set_state STATE_RELEASED b2 in
    set_last_duration (wrap32 (now - start_time b3)) b3.

(** [button_update]; [level] is the value of [gpio_get(b->pin)] and [now]
    the value of [time_us_32()]. *)
Definition button_update (fuel : nat) (level : bool) (now : Z) (b : button)
  : option button :=
  let pressed := if invert b then negb level else level in
  let b0 := set_is_pressed false (set_up false (set_down false b)) in
  match state b0 with
  | STATE_RELEASED =>
      if pressed then Some (set_start_time now (set_state STATE_DEBOUNCE b0))
      else Some b0
  | STATE_DEBOUNCE =>
      if pressed then
        if now >=? wrap32 (start_time b0 + wrap32 (debounce_ms b0 * 1000))
        then
          let b1 := set_down true b0 in
          let b2 := set_state STATE_PRESSED b1 in
          let b3 := set_start_time now b2 in
          Some (set_repeat_count 1 b3)
        else Some b0
      else Some (set_state STATE_RELEASED b0)
  | STATE_REPEAT =>
      b1 <- (if nonzero (repeat_ms b0) then repeat_loop fuel now b0
             else Some b0) ;;
      Some (pressed_case pressed now b1)
  | STATE_PRESSED => Some (pressed_case pressed now b0)
  end.

Definition button_down (b : button) : bool := down b.
Definition button_up (b : button) : bool := up b.
Definition button_is_pressed (b : button) : bool := is_pressed b.
Definition button_last_duration_us (b : button) : Z := last_duration b.

(** [now] is the value of [time_us_32()]. *)
Definition button_current_duration_us (now : Z) (b : button) : Z :=
  wrap32 (now - start_time b).

(** [button_repeat]: the returned count and the button after the call. *)
Definition button_repeat (b : button) : Z * button :=
  (repeat_count b, set_repeat_count 0 b).

(** Successive calls of [button_update], one per element of [ins] (the
    level and the time that the call reads), from the first on; the result
    is the button after the last call and the [(down, up)] flags after each
    call.  [None] when the fuel of a call is used up. *)
Fixpoint updates (fuel : nat) (ins : list (bool * Z)) (b : button)
  : option (button * list (bool * bool)) :=
  match ins with
  | [] => Some (b, [])
  | (level, now) :: ins' =>
      b1 <- button_update fuel level now b ;;
      r <- updates fuel ins' b1 ;;
      Some (fst r, (down b1, up b1) :: snd r)
  end.

End Button.

(** The button is held as far as its user knows: [down] was reported and
    [up] not yet. *)
Definition held (b : Button.button) : bool :=
  match Button.state b with
  | Button.STATE_PRESSED | Button.STATE_REPEAT => true
  | _ => false
  end.

(** Number of [down] and of [up] events in a list of flags. *)
Definition count_down (evs : list (bool * bool)) : nat :=
  length (filter fst evs).

Definition count_up (evs : list (bool * bool)) : nat :=
  length (filter snd evs).

(** The buttons of the firmware (main.c lines 71-76): inverted input, 35 ms
    debounce, repeat after 1000 ms every 500 ms. *)
Definition make_button (pin : Z) : Button.button :=
  Button.button_set_repeat (Button.button_create pin true 35) 1000 500.


(** The level that a button reads as pressed. *)
Definition pressed_level (b : Button.button) : bool := negb (Button.invert b).

(** A button of the firmware in each state of the driver: after the first
    poll that sees it pressed (at 1 000 us), after the poll that reports the
    press (at 40 000 us), and after the poll that starts the repeats (at
    1 040 000 us). *)
Definition button_debouncing : Button.button :=
  Eval vm_compute in
    match Button.button_update 0 false 1000 (make_button 15) with
    | Some b => b
    | None => make_button 15
    end.

Definition button_pressed : Button.button :=
  Eval vm_compute in
    match Button.button_update 0 false 40000 button_debouncing with
    | Some b => b
    | None => make_button 15
    end.

Definition button_repeating : Button.button :=
  Eval vm_compute in
    match Button.button_update 0 false 1040000 button_pressed with
    | Some b => b
    | None => make_button 15
    end.

(** The press reported 40 000 us before the microsecond counter wraps, and
    its release 1 000 000 us after the wrap. *)
Definition button_pressed_before_wrap : Button.button :=
  Eval vm_compute in
    Button.set_start_time (wrap32 (2 ^ 32 - 40000)) button_pressed.

Definition button_released_after_wrap : Button.button :=
  Eval vm_compute in
    match Button.button_update 0 true 1000000 button_pressed_before_wrap with
    | Some b => b
    | None => make_button 15
    end.
(** * Properties *)

(** ** Machine integers *)

Lemma to_int_small (z : Z) : - 2 ^ 31 <= z < 2 ^ 31 -> to_int z = z.
Proof. intros H. unfold to_int. rewrite Z.mod_small; lia. Qed.

Lemma to_int64_small (z : Z) : - 2 ^ 63 <= z < 2 ^ 63 -> to_int64 z = z.
Proof. intros H. unfold to_int64. rewrite Z.mod_small; lia. Qed.

Lemma wrap32_small (z : Z) : 0 <= z < 2 ^ 32 -> wrap32 z = z.
Proof. intros H. unfold wrap32. now rewrite Z.mod_small. Qed.

Lemma wrap64_small (z : Z) : 0 <= z < 2 ^ 64 -> wrap64 z = z.
Proof. intros H. unfold wrap64. now rewrite Z.mod_small. Qed.

Lemma MIN_min (a b : Z) : MIN a b = Z.min a b.
Proof. unfold MIN. destruct (Z.gtb_spec b a); lia. Qed.

Lemma MAX_max (a b : Z) : MAX a b = Z.max a b.
Proof. unfold MAX. destruct (Z.gtb_spec a b); lia. Qed.

Lemma nonzero_true (z : Z) : nonzero z = true <-> z <> 0.
Proof. unfold nonzero. destruct (Z.eqb_spec z 0); simpl; split; congruence. Qed.

Lemma nonzero_false (z : Z) : nonzero z = false <-> z = 0.
Proof. unfold nonzero. destruct (Z.eqb_spec z 0); simpl; split; congruence. Qed.

(** ** Hold and brake *)

(** With no bit of the pattern set, [update] drives no output high. *)
Lemma update_loop_no_bits (ps : list pin_entry) :
  forall i o, put_value (update_loop 0 i ps o) = put_value o.
Proof.
  induction ps as [ | p ps IH ]; intros i o; simpl.
  - reflexivity.
  - rewrite Z.shiftr_0_l. simpl. destruct (is_pwm p); now rewrite IH.
Qed.

(** With no bit of the pattern set, [update] switches every variable-drive
    output it touches to plain digital mode. *)
Lemma update_loop_no_bits_sio (ps : list pin_entry) :
  forall i o,
    Forall (fun f => snd f = GPIO_FUNC_SIO) (set_function o) ->
    Forall (fun f => snd f = GPIO_FUNC_SIO)
      (set_function (update_loop 0 i ps o)).
Proof.
  induction ps as [ | p ps IH ]; intros i o Ho; simpl.
  - exact Ho.
  - rewrite Z.shiftr_0_l. simpl. destruct (is_pwm p); apply IH; simpl.
    + apply Forall_app. split; [ exact Ho | ].
      constructor; [ reflexivity | constructor ].
    + exact Ho.
Qed.

(** C7.  From any state [stepper_brake] clears both masks, so that [update]
    drives no output high and switches no output to variable drive;
    [stepper_hold] after it leaves the pattern of the
    mode: one bit in [mask] and none in [half_mask] for wave drive, two bits
    in [mask] and none in [half_mask] for dual phase, and the same single
    bit in both masks for half step. *)
Theorem brake_then_hold (s : stepper) :
  let b := stepper_brake s in
  let h := stepper_hold b in
  (mask b = 0 /\ half_mask b = 0 /\ put_value (update b) = 0
   /\ Forall (fun f => snd f = GPIO_FUNC_SIO) (set_function (update b)))
  /\ combined h <> 0
  /\ match mode s with
     | STEPPER_MODE_WAVE =>
         mask h = 1 /\ popcount (mask h) = 1%nat /\ half_mask h = 0
     | STEPPER_MODE_DUAL_PHASE =>
         mask h = 3 /\ popcount (mask h) = 2%nat /\ half_mask h = 0
     | STEPPER_MODE_HALF_STEP =>
         mask h = 1 /\ popcount (mask h) = 1%nat /\ half_mask h = mask h
     end.
Proof.
  cbv zeta. split; [ | split ].
  - split; [ reflexivity | split; [ reflexivity | ] ].
    unfold update. simpl mask. simpl half_mask. simpl pins.
    change (Z.lor 0 0) with 0. split.
    + now rewrite update_loop_no_bits.
    + apply update_loop_no_bits_sio. constructor.
  - unfold stepper_hold, stepper_brake, combined.
    destruct s as [? ? [ | | ] ? ? ? ? ? ? ? ? ? ? ? ? ?]; simpl; discriminate.
  - unfold stepper_hold, stepper_brake.
    destruct s as [? ? [ | | ] ? ? ? ? ? ? ? ? ? ? ? ? ?]; simpl;
      repeat split; reflexivity.
Qed.

(** ** Launch of the ramp *)

(** C4.  With ramping enabled, a nonzero target interval and a zero current
    interval, a poll leaves the current interval at the floor interval. *)
Theorem launch_seeds_floor_interval (now : Z) (s : stepper) :
  us_accel s <> 0 ->
  us_per_step_target s <> 0 ->
  us_per_step s = 0 ->
  us_per_step (stepper_update_ramp now s) = max_us_per_step s
  /\ us_per_step (fst (stepper_update now s)) = max_us_per_step s.
Proof.
  intros Ha Ht Hc.
  assert (R : stepper_update_ramp now s = set_us_per_step (max_us_per_step s) s).
  { unfold stepper_update_ramp.
    apply nonzero_true in Ha. rewrite Ha.
    apply Z.eqb_neq in Ht. rewrite Ht. rewrite Hc. reflexivity. }
  split.
  - rewrite R. reflexivity.
  - unfold stepper_update. rewrite R. unfold stepper_update_clock.
    destruct (negb _); [ reflexivity | ].
    destruct (_ >=? _); [ | reflexivity ].
    cbv zeta. destruct (nonzero (to_int _)); [ | reflexivity ].
    unfold step. destruct (negb _).
    + unfold stepper_hold. simpl mode. destruct (mode s); reflexivity.
    + destruct (_ || _); reflexivity.
Qed.

Lemma launch_seeds_floor_interval_witness :
  us_per_step (stepper_update_ramp 9 (motor_started 7)) = 30000
  /\ us_per_step (fst (stepper_update 9 (motor_started 7))) = 30000.
Proof.
  apply (launch_seeds_floor_interval 9 (motor_started 7));
    vm_compute; congruence.
Defined.

(** ** Setting the target speed *)

(** [rpm_to_step_us] has a result unless the product is zero. *)
Lemma rpm_to_step_us_some (s : stepper) (rpm : Z) :
  rpm <> 0 -> steps_per_rev s <> 0 ->
  rpm_to_step_us s rpm = Some (US_PER_MIN / (rpm * steps_per_rev s)).
Proof.
  intros Hr Hs. unfold rpm_to_step_us. cbv zeta.
  destruct (Z.eqb_spec (rpm * steps_per_rev s) 0) as [E | _]; [ nia | reflexivity ].
Qed.

Lemma rpm_to_step_us_zero (s : stepper) : rpm_to_step_us s 0 = None.
Proof. reflexivity. Qed.

(** The result of a successful conversion is at most a minute when the
    operands are values of [unsigned int]. *)
Lemma rpm_to_step_us_bound (s : stepper) (rpm v : Z) :
  0 <= rpm -> 0 <= steps_per_rev s ->
  rpm_to_step_us s rpm = Some v -> 0 <= v <= US_PER_MIN.
Proof.
  intros Hr Hs. unfold rpm_to_step_us. cbv zeta.
  destruct (Z.eqb_spec (rpm * steps_per_rev s) 0) as [ | Hd ]; [ discriminate | ].
  intros [= <-]. assert (0 < rpm * steps_per_rev s) by nia.
  split.
  - apply Z.div_pos; [ unfold US_PER_MIN, US_PER_SEC | ]; lia.
  - apply Z.div_le_upper_bound; [ lia | ].
    unfold US_PER_MIN, US_PER_SEC. nia.
Qed.

(** What a call that changes the target leaves behind. *)
Lemma stepper_set_rpm_changed (t1 t2 : Z) (s : stepper) (rpm : Z) :
  MIN rpm (max_rpm s) <> target_rpm s ->
  steps_per_rev s <> 0 ->
  stepper_set_rpm t1 t2 s rpm =
    Some (set_us_per_step_target (interval_of_rpm s (MIN rpm (max_rpm s)))
            (set_last_accel_step t2
               (set_last_step t1 (set_target_rpm (MIN rpm (max_rpm s)) s)))).
Proof.
  intros Hne Hs. unfold stepper_set_rpm. cbv zeta.
  apply Z.eqb_neq in Hne. rewrite Hne.
  unfold interval_of_rpm, nonzero.
  destruct (Z.eqb_spec (MIN rpm (max_rpm s)) 0) as [E | E]; simpl negb; cbv iota.
  - reflexivity.
  - rewrite rpm_to_step_us_some by (simpl; assumption). reflexivity.
Qed.

(** A call that does not change the target returns at once. *)
Lemma stepper_set_rpm_same (t1 t2 : Z) (s : stepper) (rpm : Z) :
  MIN rpm (max_rpm s) = target_rpm s -> stepper_set_rpm t1 t2 s rpm = Some s.
Proof.
  intros E. unfold stepper_set_rpm. cbv zeta.
  apply Z.eqb_eq in E. now rewrite E.
Qed.

(** Every completed call that changes the target is of that form. *)
Lemma stepper_set_rpm_changed_inv
    (t1 t2 : Z) (s : stepper) (rpm : Z) (s' : stepper) :
  MIN rpm (max_rpm s) <> target_rpm s ->
  stepper_set_rpm t1 t2 s rpm = Some s' ->
  s' = set_us_per_step_target (interval_of_rpm s (MIN rpm (max_rpm s)))
         (set_last_accel_step t2
            (set_last_step t1 (set_target_rpm (MIN rpm (max_rpm s)) s))).
Proof.
  intros Hne. unfold stepper_set_rpm. cbv zeta.
  apply Z.eqb_neq in Hne. rewrite Hne.
  unfold interval_of_rpm, nonzero, rpm_to_step_us.
  destruct (MIN rpm (max_rpm s) =? 0); simpl negb; cbv iota.
  - now intros [= <-].
  - cbv zeta. simpl steps_per_rev. destruct (_ =? 0); [ discriminate | ].
    simpl bind. now intros [= <-].
Qed.

(** The call completes unless it divides by zero. *)
Lemma stepper_set_rpm_completes (t1 t2 : Z) (s : stepper) (rpm : Z) :
  steps_per_rev s <> 0 \/ MIN rpm (max_rpm s) = 0 ->
  exists s', stepper_set_rpm t1 t2 s rpm = Some s'.
Proof.
  intros H.
  destruct (Z.eq_dec (MIN rpm (max_rpm s)) (target_rpm s)) as [E | N].
  { rewrite stepper_set_rpm_same by assumption. eauto. }
  destruct H as [Hs | Hz].
  - rewrite stepper_set_rpm_changed by assumption. eauto.
  - unfold stepper_set_rpm. cbv zeta.
    apply Z.eqb_neq in N. rewrite N, Hz. simpl. eauto.
Qed.

(** C10.  A call of [stepper_set_rpm] whose clamped argument differs from
    the stored target speed sets [last_step] and [last_accel_step] to the
    clock values read during the call, whatever they were before, stores the
    new target speed and its interval, and leaves every other field of the
    record as it was.  The call completes whenever [steps_per_rev] is
    nonzero or the clamped argument is zero. *)
Theorem stepper_set_rpm_resets_anchors (t1 t2 : Z) (s : stepper) (rpm : Z) :
  MIN rpm (max_rpm s) <> target_rpm s ->
  (steps_per_rev s <> 0 \/ MIN rpm (max_rpm s) = 0 ->
   exists s', stepper_set_rpm t1 t2 s rpm = Some s')
  /\ forall s',
       stepper_set_rpm t1 t2 s rpm = Some s' ->
       last_step s' = t1 /\ last_accel_step s' = t2
       /\ target_rpm s' = MIN rpm (max_rpm s)
       /\ us_per_step_target s' = interval_of_rpm s (MIN rpm (max_rpm s))
       /\ steps_per_rev s' = steps_per_rev s /\ max_rpm s' = max_rpm s
       /\ mode s' = mode s /\ mask s' = mask s /\ half_mask s' = half_mask s
       /\ accel_rpm_per_sec s' = accel_rpm_per_sec s
       /\ enable_pin s' = enable_pin s /\ pins s' = pins s
       /\ us_per_step s' = us_per_step s /\ us_accel s' = us_accel s
       /\ max_us_per_step s' = max_us_per_step s
       /\ step_count s' = step_count s.
Proof.
  intros Hne. split.
  - apply stepper_set_rpm_completes.
  - intros s' E. apply stepper_set_rpm_changed_inv in E; [ | exact Hne ].
    subst s'. repeat split.
Qed.

Lemma stepper_set_rpm_resets_anchors_witness :
  exists s',
    stepper_set_rpm 1000 1001 motor_steady 30 = Some s'
    /\ last_step s' = 1000 /\ last_accel_step s' = 1001
    /\ target_rpm s' = 30 /\ us_per_step_target s' = 5000
    /\ step_count s' = step_count motor_steady.
Proof.
  destruct (stepper_set_rpm_resets_anchors 1000 1001 motor_steady 30)
    as [C F]; [ vm_compute; congruence | ].
  destruct C as [s' E]; [ left; vm_compute; congruence | ].
  exists s'. split; [ exact E | ].
  repeat split; apply (F s' E).
Defined.

(** C6.  For every argument [stepper_set_rpm] stores the argument clamped to
    [0, max_rpm] as target speed; a changed target above zero stores its
    interval and a changed target of zero stores interval zero (stopped), so
    that the stored interval stays the one of the stored speed; and a second
    call with the same argument, at any later time, returns the record
    unchanged, so every later poll behaves as after one call.  The first call
    completes on every motor with a nonzero [steps_per_rev]. *)
Theorem stepper_set_rpm_clamps_idempotent
    (t1 t2 t3 t4 : Z) (s : stepper) (rpm : Z) :
  0 <= rpm -> 0 <= max_rpm s ->
  (steps_per_rev s <> 0 -> exists s1, stepper_set_rpm t1 t2 s rpm = Some s1)
  /\ forall s1,
       stepper_set_rpm t1 t2 s rpm = Some s1 ->
       target_rpm s1 = Z.min rpm (max_rpm s)
       /\ 0 <= target_rpm s1 <= max_rpm s1
       /\ (target_rpm s1 <> target_rpm s ->
           (0 < target_rpm s1 ->
            us_per_step_target s1 =
              US_PER_MIN / (target_rpm s1 * steps_per_rev s1))
           /\ (target_rpm s1 = 0 -> us_per_step_target s1 = 0))
       /\ (target_coherent s -> target_coherent s1)
       /\ stepper_set_rpm t3 t4 s1 rpm = Some s1
       /\ forall now s2,
            stepper_set_rpm t3 t4 s1 rpm = Some s2 ->
            stepper_update now s2 = stepper_update now s1.
Proof.
  intros Hr Hm.
  destruct (Z.eq_dec (MIN rpm (max_rpm s)) (target_rpm s)) as [E | N].
  { rewrite (stepper_set_rpm_same _ _ _ _ E). split; [ eauto | ].
    intros s1 [= <-].
    rewrite (stepper_set_rpm_same _ _ _ _ E).
    rewrite MIN_min in E.
    split; [ congruence | ].
    split; [ lia | ].
    split; [ congruence | ].
    split; [ trivial | ].
    split; [ reflexivity | ].
    now intros now s2 [= <-]. }
  split; [ intros Hs; apply stepper_set_rpm_completes; now left | ].
  intros s1 E1. apply stepper_set_rpm_changed_inv in E1; [ | exact N ].
  assert (Et : target_rpm s1 = MIN rpm (max_rpm s)) by now subst s1.
  assert (Ei : us_per_step_target s1
               = interval_of_rpm s (MIN rpm (max_rpm s))) by now subst s1.
  assert (Es : steps_per_rev s1 = steps_per_rev s) by now subst s1.
  assert (Ex : max_rpm s1 = max_rpm s) by now subst s1.
  clear E1.
  rewrite MIN_min in *.
  assert (Idem : forall t t', stepper_set_rpm t t' s1 rpm = Some s1).
  { intros t t'. apply stepper_set_rpm_same. rewrite MIN_min. congruence. }
  split; [ exact Et | ].
  split; [ lia | ].
  split; [ intros _; split | ].
  - intros Hp. rewrite Ei, Et, Es. unfold interval_of_rpm.
    destruct (Z.eqb_spec (Z.min rpm (max_rpm s)) 0); [ lia | reflexivity ].
  - intros Hz. rewrite Ei. unfold interval_of_rpm. rewrite <- Et, Hz.
    reflexivity.
  - split.
    { intros _. unfold target_coherent. rewrite Ei, Et.
      unfold interval_of_rpm. now rewrite Es. }
    split; [ apply Idem | ].
    intros now s2. rewrite Idem. now intros [= <-].
Qed.

Lemma stepper_set_rpm_clamps_idempotent_witness :
  exists s1,
    stepper_set_rpm 10 11 motor_held 75 = Some s1
    /\ target_rpm s1 = 60
    /\ stepper_set_rpm 500 501 s1 75 = Some s1.
Proof.
  destruct (stepper_set_rpm_clamps_idempotent 10 11 500 501 motor_held 75)
    as [C F]; [ vm_compute; congruence | vm_compute; congruence | ].
  destruct C as [s1 E]; [ vm_compute; congruence | ].
  exists s1. split; [ exact E | ].
  split; apply (F s1 E).
Defined.

(** ** Completion of the public operations *)

(** C8.  The claim fails on the code: [stepper_set_accel] with a nonzero rate
    and [min_rpm = 0] evaluates [rpm_to_step_us(s, 0)], whose divisor is
    zero, for every motor.  [stepper_set_rpm] guards the same conversion with
    [if (rpm)]: with the argument zero it completes and stores interval
    zero. *)
Theorem stepper_set_accel_zero_min_rpm_divides_by_zero :
  (forall s, stepper_set_accel s MOTOR_ACCEL 0 = None)
  /\ stepper_set_accel motor_created MOTOR_ACCEL 0 = None
  /\ rpm_to_step_us motor_created 0 = None
  /\ exists s', stepper_set_rpm 5 5 motor_steady 0 = Some s'
                /\ us_per_step_target s' = 0.
Proof.
  split; [ | split; [ | split ] ].
  - intros s. unfold stepper_set_accel.
    change (MOTOR_ACCEL =? 0) with false. cbv iota.
    destruct (rpm_to_step_us s (wrap32 (MOTOR_ACCEL * 60))); reflexivity.
  - reflexivity.
  - reflexivity.
  - eexists. split; reflexivity.
Qed.

(** The other zero divisors of [stepper_set_accel]: a rate that is a
    multiple of [2^30] makes [rpm_per_sec * 60] wrap to zero. *)
Lemma stepper_set_accel_rate_wraps (s : stepper) (min_rpm : Z) :
  stepper_set_accel s (2 ^ 30) min_rpm = None.
Proof. reflexivity. Qed.

(** With a nonzero [min_rpm], a nonzero wrapped rate and a nonzero
    [steps_per_rev], [stepper_set_accel] completes. *)
Lemma stepper_set_accel_completes (s : stepper) (rpm_per_sec min_rpm : Z) :
  steps_per_rev s <> 0 -> min_rpm <> 0 -> wrap32 (rpm_per_sec * 60) <> 0 ->
  exists s', stepper_set_accel s rpm_per_sec min_rpm = Some s'.
Proof.
  intros Hs Hm Hr. unfold stepper_set_accel.
  destruct (rpm_per_sec =? 0); [ eauto | ].
  rewrite rpm_to_step_us_some by assumption. simpl bind. cbv zeta.
  rewrite rpm_to_step_us_some by (simpl; assumption). simpl. eauto.
Qed.

(** ** Rotation of a mask *)

Lemma shl1_pow2 (n : Z) : 0 <= n <= 31 -> shl1 n = 2 ^ n.
Proof.
  intros H. unfold shl1. rewrite Z.shiftl_1_l. apply wrap32_small.
  split; [ apply Z.pow_nonneg; lia | apply Z.pow_lt_mono_r; lia ].
Qed.

(** The last statement of [step_mask] keeps the low [n] bits. *)
Lemma ring_mask_ones (n : Z) : 0 <= n <= 31 -> wrap32 (shl1 n - 1) = Z.ones n.
Proof.
  intros H. rewrite shl1_pow2 by assumption. rewrite Z.ones_equiv.
  assert (0 < 2 ^ n) by (apply Z.pow_pos_nonneg; lia).
  assert (2 ^ n < 2 ^ 32) by (apply Z.pow_lt_mono_r; lia).
  rewrite wrap32_small; lia.
Qed.

Lemma nonzero_land_1 (a : Z) : nonzero (Z.land a 1) = Z.testbit a 0.
Proof.
  change 1 with (Z.ones 1). rewrite Z.land_ones by lia.
  change (2 ^ 1) with 2. rewrite <- Z.bit0_mod.
  destruct (Z.testbit a 0); reflexivity.
Qed.

Lemma nonzero_land_pow2 (a n : Z) :
  0 <= n -> nonzero (Z.land a (2 ^ n)) = Z.testbit a n.
Proof.
  intros Hn. destruct (Z.testbit a n) eqn:B.
  - apply nonzero_true. intros E.
    assert (T : Z.testbit (Z.land a (2 ^ n)) n = true)
      by (rewrite Z.land_spec, B, Z.pow2_bits_true by lia; reflexivity).
    rewrite E, Z.bits_0 in T. discriminate.
  - apply nonzero_false. apply Z.bits_inj'. intros i Hi.
    rewrite Z.land_spec, Z.bits_0, Z.pow2_bits_eqb by lia.
    destruct (Z.eqb_spec n i) as [-> | _].
    + now rewrite B.
    + apply andb_false_r.
Qed.

(** A number whose low [n] bits are clear is a multiple of [2^n]. *)
Lemma low_bits_clear (a n : Z) :
  0 <= n -> (forall i, 0 <= i < n -> Z.testbit a i = false) ->
  a mod 2 ^ n = 0.
Proof.
  intros Hn H. apply Z.bits_inj'. intros i Hi. rewrite Z.bits_0.
  destruct (Z_lt_ge_dec i n) as [L | G].
  - rewrite Z.mod_pow2_bits_low by lia. apply H. lia.
  - apply Z.mod_pow2_bits_high. lia.
Qed.

Lemma land_ones_zero_bits (a n : Z) :
  0 <= n -> Z.land a (Z.ones n) = 0 ->
  forall i, 0 <= i < n -> Z.testbit a i = false.
Proof.
  intros Hn E i Hi.
  assert (T : Z.testbit (Z.land a (Z.ones n)) i = false)
    by (rewrite E; apply Z.bits_0).
  rewrite Z.land_spec, Z.ones_spec_low, andb_true_r in T by lia. exact T.
Qed.

Lemma testbit_wrap32_shiftl1 (a i : Z) :
  0 <= i < 32 -> Z.testbit (wrap32 (Z.shiftl a 1)) i = Z.testbit a (i - 1).
Proof.
  intros Hi. unfold wrap32. rewrite Z.mod_pow2_bits_low by lia.
  apply Z.shiftl_spec. lia.
Qed.

(** *** A ring of 1 to 31 windings *)

Section Ring.

Variable n : Z.
Hypothesis Hn : 1 <= n <= 31.

(** The result of [step_mask] lies in the ring of [n] bits. *)
Lemma step_mask_range (m : Z) (forward : bool) :
  0 <= step_mask m forward n < 2 ^ n.
Proof.
  unfold step_mask. cbv zeta.
  rewrite ring_mask_ones, Z.land_ones by lia.
  apply Z.mod_pos_bound. apply Z.pow_pos_nonneg; lia.
Qed.

(** Rotation in a ring of 1 to 31 bits never clears a pattern that has a bit
    inside the ring. *)
Lemma step_mask_nonzero (m : Z) (forward : bool) :
  m mod 2 ^ n <> 0 -> step_mask m forward n <> 0.
Proof.
  intros Hm E. apply Hm. clear Hm.
  unfold step_mask in E. cbv zeta in E.
  rewrite ring_mask_ones in E by lia.
  rewrite shl1_pow2 in E by lia.
  pose proof (land_ones_zero_bits _ n ltac:(lia) E) as B. clear E.
  apply low_bits_clear; [ lia | ]. intros i Hi.
  destruct forward.
  - rewrite nonzero_land_1 in B.
    destruct (Z.testbit m 0) eqn:B0.
    + exfalso. specialize (B (n - 1) ltac:(lia)).
      rewrite Z.shiftr_spec, Z.lor_spec in B by lia.
      replace (n - 1 + 1) with n in B by lia.
      rewrite Z.pow2_bits_true, orb_true_r in B by lia. discriminate.
    + destruct (Z.eq_dec i 0) as [-> | Ni]; [ exact B0 | ].
      specialize (B (i - 1) ltac:(lia)).
      rewrite Z.shiftr_spec in B by lia.
      now replace (i - 1 + 1) with i in B by lia.
  - rewrite nonzero_land_pow2 in B by lia.
    rewrite testbit_wrap32_shiftl1 in B by lia.
    destruct (Z.testbit m (n - 1)) eqn:Bn.
    + exfalso. specialize (B 0 ltac:(lia)).
      rewrite Z.lor_spec in B. change (Z.testbit 1 0) with true in B.
      rewrite orb_true_r in B. discriminate.
    + destruct (Z.eq_dec i (n - 1)) as [-> | Ni]; [ exact Bn | ].
      specialize (B (i + 1) ltac:(lia)).
      rewrite testbit_wrap32_shiftl1 in B by lia.
      now replace (i + 1 - 1) with i in B by lia.
Qed.

(** Rotation keeps the pattern inside the ring and nonzero. *)
Lemma step_mask_in_ring (m : Z) (forward : bool) :
  m mod 2 ^ n <> 0 -> step_mask m forward n mod 2 ^ n <> 0.
Proof.
  intros Hm. rewrite Z.mod_small by apply step_mask_range.
  now apply step_mask_nonzero.
Qed.

(** Bits of the operands of [step_mask] on a single-bit pattern. *)
Ltac pow2_bits :=
  repeat first
    [ rewrite Z.land_spec | rewrite Z.lor_spec
    | rewrite Z.shiftr_spec by lia
    | rewrite testbit_wrap32_shiftl1 by lia
    | rewrite Z.testbit_ones_nonneg by lia
    | rewrite Z.pow2_bits_eqb by lia
    | rewrite (Z.pow2_bits_eqb 0) by lia ].

(** [step_mask] rotates a single bit by one position, circularly: forward
    from position 0 to position [n - 1], backward from position [n - 1] to
    position 0. *)
Lemma step_mask_pow2 (k : Z) (forward : bool) :
  0 <= k < n ->
  step_mask (2 ^ k) forward n = 2 ^ rotate_position k forward n.
Proof.
  intros Hk. unfold step_mask, rotate_position. cbv zeta.
  rewrite ring_mask_ones, shl1_pow2 by lia.
  rewrite Z.land_ones by lia.
  destruct forward.
  - rewrite nonzero_land_1, Z.pow2_bits_eqb by lia.
    destruct (Z.eqb_spec k 0) as [-> | Nk].
    + change (2 ^ 0) with 1. apply Z.bits_inj'. intros i Hi.
      destruct (Z_lt_ge_dec i n) as [L | G].
      * rewrite Z.mod_pow2_bits_low by lia. change 1 with (2 ^ 0) at 1.
        pow2_bits.
        destruct (Z.eqb_spec 0 (i + 1)); [ lia | ].
        destruct (Z.eqb_spec n (i + 1)), (Z.eqb_spec (n - 1) i);
          (reflexivity || lia).
      * rewrite Z.mod_pow2_bits_high by lia. pow2_bits.
        destruct (Z.eqb_spec (n - 1) i); [ lia | reflexivity ].
    + rewrite Z.shiftr_div_pow2 by lia.
      rewrite <- Z.pow_sub_r by lia.
      apply Z.mod_small. split; [ apply Z.pow_nonneg; lia | ].
      apply Z.pow_lt_mono_r; lia.
  - rewrite nonzero_land_pow2, testbit_wrap32_shiftl1 by lia.
    rewrite Z.pow2_bits_eqb by lia.
    assert (W : wrap32 (Z.shiftl (2 ^ k) 1) = 2 ^ (k + 1)).
    { rewrite Z.shiftl_mul_pow2, <- Z.pow_add_r by lia.
      apply wrap32_small. split; [ apply Z.pow_nonneg; lia | ].
      apply Z.pow_lt_mono_r; lia. }
    rewrite W.
    destruct (Z.eqb_spec k (n - 1)) as [-> | Nk].
    + replace (n - 1 + 1) with n by lia.
      destruct (Z.eqb_spec (n - 1) (n - 1)); [ | lia ].
      apply Z.bits_inj'. intros i Hi.
      destruct (Z_lt_ge_dec i n) as [L | G].
      * rewrite Z.mod_pow2_bits_low by lia. change 1 with (2 ^ 0).
        pow2_bits. destruct (Z.eqb_spec n i); [ lia | reflexivity ].
      * rewrite Z.mod_pow2_bits_high by lia. pow2_bits.
        destruct (Z.eqb_spec 0 i); [ lia | reflexivity ].
    + destruct (Z.eqb_spec k (n - 1)); [ lia | ].
      apply Z.mod_small. split; [ apply Z.pow_nonneg; lia | ].
      apply Z.pow_lt_mono_r; lia.
Qed.

Lemma rotate_position_range (k : Z) (forward : bool) :
  0 <= k < n -> 0 <= rotate_position k forward n < n.
Proof.
  intros Hk. unfold rotate_position.
  destruct forward; [ destruct (Z.eqb_spec k 0) |
                      destruct (Z.eqb_spec k (n - 1)) ]; lia.
Qed.

(** In a ring of two or more bits a rotation moves the bit. *)
Lemma rotate_position_moves (k : Z) (forward : bool) :
  2 <= n -> 0 <= k < n -> rotate_position k forward n <> k.
Proof.
  intros H2 Hk. unfold rotate_position.
  destruct forward; [ destruct (Z.eqb_spec k 0) |
                      destruct (Z.eqb_spec k (n - 1)) ]; lia.
Qed.

Lemma step_mask_one_bit (m : Z) (forward : bool) :
  one_bit m n -> one_bit (step_mask m forward n) n.
Proof.
  intros (k & Hk & ->). exists (rotate_position k forward n). split.
  - now apply rotate_position_range.
  - now apply step_mask_pow2.
Qed.

Lemma step_mask_one_bit_moves (m : Z) (forward : bool) :
  2 <= n -> one_bit m n -> step_mask m forward n <> m.
Proof.
  intros H2 (k & Hk & ->). rewrite step_mask_pow2 by lia.
  intros E. apply Z.pow_inj_r in E; try lia.
  - now apply (rotate_position_moves k forward).
  - pose proof (rotate_position_range k forward Hk). lia.
Qed.

End Ring.

(** ** The phase sequencer *)

Lemma odd_wrap64_succ (c : Z) : Z.odd (wrap64 (c + 1)) = negb (Z.odd c).
Proof.
  unfold wrap64. rewrite <- !Z.bit0_odd.
  rewrite Z.mod_pow2_bits_low by lia.
  rewrite !Z.bit0_odd, Z.add_1_r, Z.odd_succ. symmetry. apply Z.negb_odd.
Qed.

Lemma wrap64_succ_neq (c : Z) : wrap64 (c + 1) <> c.
Proof.
  intros E. apply (f_equal Z.odd) in E. rewrite odd_wrap64_succ in E.
  destruct (Z.odd c); discriminate.
Qed.

(** [step] on a cleared primary mask is [stepper_hold]. *)
Lemma step_cleared (s : stepper) (forward : bool) :
  mask s = 0 -> step s forward = stepper_hold s.
Proof. intros E. unfold step. now rewrite E. Qed.

(** [step] on a set primary mask in the two full-step modes. *)
Lemma step_full (s : stepper) (forward : bool) :
  mask s <> 0 -> mode s <> STEPPER_MODE_HALF_STEP ->
  step s forward =
    set_step_count (wrap64 (step_count s + 1))
      (set_mask (step_mask (mask s) forward (num_pins s)) s).
Proof.
  intros Hm Hmode. unfold step.
  apply nonzero_true in Hm. rewrite Hm. simpl negb. cbv iota.
  destruct (mode s); try congruence; reflexivity.
Qed.

(** [step] on a set primary mask in half-step mode. *)
Lemma step_half (s : stepper) (forward : bool) :
  mask s <> 0 -> mode s = STEPPER_MODE_HALF_STEP ->
  step s forward =
    set_step_count (wrap64 (step_count s + 1))
      (if Z.odd (step_count s)
       then set_mask (step_mask (mask s) forward (num_pins s)) s
       else set_half_mask (step_mask (half_mask s) forward (num_pins s)) s).
Proof.
  intros Hm Hmode. unfold step.
  apply nonzero_true in Hm. rewrite Hm, Hmode. simpl negb. cbv iota.
  simpl orb. rewrite nonzero_land_1, Z.bit0_odd.
  destruct (Z.odd (step_count s)); reflexivity.
Qed.

(** Every call of [step] is visible in the masks or in the counter. *)
Lemma step_advances (s : stepper) (forward : bool) :
  sequencer_advanced s (step s forward).
Proof.
  unfold sequencer_advanced.
  destruct (Z.eq_dec (mask s) 0) as [E | N].
  - left. rewrite step_cleared, E by assumption.
    unfold stepper_hold. destruct (mode s); simpl; discriminate.
  - right. right. unfold step.
    apply nonzero_true in N. rewrite N. simpl negb. cbv iota zeta.
    destruct (_ || _); simpl; apply wrap64_succ_neq.
Qed.

(** C5 (amended).  In half-step mode a step taken while the primary mask is
    set rotates exactly one mask and leaves the other untouched: [mask] when
    [step_count] is odd, [half_mask] when it is even; it increments
    [step_count], so the parity, and with it the rotated mask, alternates.
    A step attempted while the primary mask is clear does not rotate: it is
    [stepper_hold], which writes both masks and leaves [step_count]. *)
Theorem half_step_rotates_one_mask (s : stepper) (forward : bool) :
  mode s = STEPPER_MODE_HALF_STEP ->
  let s' := step s forward in
  (mask s <> 0 ->
   step_count s' = wrap64 (step_count s + 1)
   /\ Z.odd (step_count s') = negb (Z.odd (step_count s))
   /\ (Z.odd (step_count s) = true ->
       mask s' = step_mask (mask s) forward (num_pins s)
       /\ half_mask s' = half_mask s)
   /\ (Z.even (step_count s) = true ->
       half_mask s' = step_mask (half_mask s) forward (num_pins s)
       /\ mask s' = mask s))
  /\ (mask s = 0 ->
      s' = stepper_hold s /\ mask s' = 1 /\ half_mask s' = 1
      /\ step_count s' = step_count s).
Proof.
  intros Hmode s'. subst s'. split.
  - intros Hm. rewrite step_half by assumption.
    split; [ reflexivity | ].
    split; [ apply odd_wrap64_succ | ].
    rewrite <- Z.negb_odd.
    destruct (Z.odd (step_count s)); split; intros H; try discriminate H;
      split; reflexivity.
  - intros Hm. rewrite step_cleared by assumption.
    unfold stepper_hold. rewrite Hmode. repeat split.
Qed.

Lemma half_step_rotates_one_mask_witness :
  let s' := step motor_held true in
  mask s' = mask motor_held /\ half_mask s' = 8 /\ step_count s' = 1.
Proof.
  destruct (half_step_rotates_one_mask motor_held true) as [H _];
    [ reflexivity | ].
  destruct H as (Hc & _ & _ & He); [ vm_compute; congruence | ].
  destruct He as [Hh Hm]; [ reflexivity | ].
  cbv zeta. split; [ exact Hm | split; [ rewrite Hh | rewrite Hc ] ];
    reflexivity.
Defined.

(** The claim as stated fails: on the braked half-step motor one step
    writes both masks. *)
Lemma half_step_after_brake_writes_both_masks :
  let s := stepper_brake motor_held in
  let s' := step s true in
  mode s = STEPPER_MODE_HALF_STEP
  /\ mask s' <> mask s /\ half_mask s' <> half_mask s.
Proof. vm_compute. repeat split; congruence. Qed.

(** *** The combined pattern *)

Lemma combined_zero (s : stepper) :
  combined s = 0 <-> mask s = 0 /\ half_mask s = 0.
Proof. unfold combined. apply Z.lor_eq_0_iff. Qed.

Lemma in_ring_mask_nonzero (s : stepper) : in_ring s -> mask s <> 0.
Proof. unfold in_ring. intros H E. apply H. rewrite E. apply Z.mod_0_l.
  apply Z.pow_nonzero; [ lia | unfold num_pins; lia ]. Qed.

Lemma stepper_hold_num_pins (s : stepper) :
  num_pins (stepper_hold s) = num_pins s.
Proof. unfold stepper_hold. destruct (mode s); reflexivity. Qed.

Lemma step_num_pins (s : stepper) (forward : bool) :
  num_pins (step s forward) = num_pins s.
Proof.
  unfold step. destruct (negb _); [ apply stepper_hold_num_pins | ].
  cbv zeta. destruct (_ || _); reflexivity.
Qed.

Lemma odd_in_ring (m n : Z) : 1 <= n -> Z.odd m = true -> m mod 2 ^ n <> 0.
Proof.
  intros Hn Ho E. apply (f_equal (fun z => Z.testbit z 0)) in E.
  rewrite Z.mod_pow2_bits_low, Z.bit0_odd, Ho in E by lia. discriminate.
Qed.

Lemma stepper_hold_in_ring (s : stepper) :
  1 <= num_pins s -> in_ring (stepper_hold s).
Proof.
  intros Hn. unfold in_ring. rewrite stepper_hold_num_pins.
  unfold stepper_hold. destruct (mode s); simpl mask;
    apply odd_in_ring; trivial.
Qed.

Lemma step_in_ring (s : stepper) (forward : bool) :
  1 <= num_pins s <= 31 -> in_ring s -> in_ring (step s forward).
Proof.
  intros Hn Hr. unfold in_ring. rewrite step_num_pins.
  pose proof (in_ring_mask_nonzero s Hr) as Hm.
  destruct (mode s) eqn:Hmode.
  1, 2: rewrite step_full by congruence; simpl mask;
        apply step_mask_in_ring; assumption.
  rewrite step_half by assumption.
  destruct (Z.odd (step_count s)); simpl mask.
  - apply step_mask_in_ring; assumption.
  - exact Hr.
Qed.

Lemma stepper_update_ramp_frame (now : Z) (s : stepper) :
  mask (stepper_update_ramp now s) = mask s
  /\ half_mask (stepper_update_ramp now s) = half_mask s
  /\ step_count (stepper_update_ramp now s) = step_count s
  /\ pins (stepper_update_ramp now s) = pins s
  /\ mode (stepper_update_ramp now s) = mode s
  /\ last_step (stepper_update_ramp now s) = last_step s.
Proof.
  unfold stepper_update_ramp.
  destruct (nonzero (us_accel s)); [ | repeat split ].
  destruct (_ && _); [ repeat split | ].
  destruct (_ && _); [ repeat split | ].
  destruct (_ >=? _); [ | repeat split ].
  cbv zeta. destruct (_ <? _); [ repeat split | ].
  destruct (_ >? _); repeat split.
Qed.

Lemma step_pins (s : stepper) (forward : bool) :
  pins (step s forward) = pins s.
Proof.
  unfold step. destruct (negb _).
  - unfold stepper_hold. destruct (mode s); reflexivity.
  - cbv zeta. destruct (_ || _); reflexivity.
Qed.

Lemma stepper_update_pins (now : Z) (s : stepper) :
  pins (fst (stepper_update now s)) = pins s.
Proof.
  unfold stepper_update.
  destruct (stepper_update_ramp_frame now s) as (_ & _ & _ & Ep & _).
  rewrite <- Ep. unfold stepper_update_clock.
  destruct (negb _); [ reflexivity | ].
  destruct (_ >=? _); [ | reflexivity ].
  cbv zeta. destruct (nonzero (to_int _)); [ | reflexivity ].
  simpl. apply step_pins.
Qed.

Lemma stepper_update_in_ring (now : Z) (s : stepper) :
  1 <= num_pins s <= 31 -> in_ring s -> in_ring (fst (stepper_update now s)).
Proof.
  intros Hn Hr. unfold in_ring, num_pins. rewrite stepper_update_pins.
  unfold stepper_update.
  destruct (stepper_update_ramp_frame now s) as (Em & _ & _ & Ep & _).
  set (r := stepper_update_ramp now s) in *.
  assert (Hn' : num_pins r = num_pins s) by (unfold num_pins; now rewrite Ep).
  assert (Hr' : in_ring r) by (unfold in_ring; now rewrite Hn', Em).
  fold (num_pins s). rewrite <- Hn'.
  unfold stepper_update_clock.
  destruct (negb _); [ exact Hr' | ].
  destruct (_ >=? _); [ | exact Hr' ].
  cbv zeta. destruct (nonzero (to_int _)); [ | exact Hr' ]. simpl.
  pose proof (step_in_ring r true ltac:(lia) Hr') as H.
  unfold in_ring in H. now rewrite step_num_pins in H.
Qed.

Lemma stepper_set_rpm_masks (t1 t2 : Z) (s : stepper) (rpm : Z) (s' : stepper) :
  stepper_set_rpm t1 t2 s rpm = Some s' ->
  mask s' = mask s /\ half_mask s' = half_mask s /\ pins s' = pins s.
Proof.
  unfold stepper_set_rpm. cbv zeta.
  destruct (_ =? _); [ now intros [= <-] | ].
  destruct (nonzero _); [ | now intros [= <-] ].
  destruct (rpm_to_step_us _ _); [ now intros [= <-] | discriminate ].
Qed.

Lemma stepper_set_accel_masks (s : stepper) (a m : Z) (s' : stepper) :
  stepper_set_accel s a m = Some s' ->
  mask s' = mask s /\ half_mask s' = half_mask s /\ pins s' = pins s.
Proof.
  unfold stepper_set_accel.
  destruct (_ =? _); [ now intros [= <-] | ].
  destruct (rpm_to_step_us s _); [ simpl bind | discriminate ].
  cbv zeta. destruct (rpm_to_step_us _ _); [ now intros [= <-] | discriminate ].
Qed.

(** The invariant of the held or stepping motor. *)
Lemma held_or_stepping_in_ring (s : stepper) :
  held_or_stepping s -> 1 <= num_pins s <= 31 -> in_ring s.
Proof.
  induction 1 as [ s | now s forward H IH | now s H IH
                 | t1 t2 s rpm s' H IH E | s a m s' H IH E ]; intros Hn.
  - rewrite stepper_hold_num_pins in Hn. apply stepper_hold_in_ring. lia.
  - assert (P : num_pins (stepper_step now s forward) = num_pins s)
      by (unfold stepper_step, num_pins; simpl pins; apply step_num_pins).
    rewrite P in Hn. unfold in_ring. rewrite P.
    unfold stepper_step. simpl mask.
    pose proof (step_in_ring s forward Hn (IH Hn)) as R.
    unfold in_ring in R. now rewrite step_num_pins in R.
  - assert (P : num_pins (fst (stepper_update now s)) = num_pins s)
      by (unfold num_pins; now rewrite stepper_update_pins).
    rewrite P in Hn. apply stepper_update_in_ring; auto.
  - destruct (stepper_set_rpm_masks _ _ _ _ _ E) as (Em & _ & Ep).
    unfold in_ring, num_pins in *. rewrite Em, Ep in *. auto.
  - destruct (stepper_set_accel_masks _ _ _ _ E) as (Em & _ & Ep).
    unfold in_ring, num_pins in *. rewrite Em, Ep in *. auto.
Qed.

(** *** Half step: the value of exactly one mask changes *)

Lemma one_bit_nonzero (m n : Z) : one_bit m n -> m <> 0.
Proof.
  intros (k & Hk & ->). apply Z.pow_nonzero; lia.
Qed.

(** With two or more windings and single-bit masks, a half step changes the
    value of exactly one mask, the primary one on odd counts and the
    secondary one on even counts, and both masks stay single bits. *)
Lemma half_step_changes_exactly_one (s : stepper) (forward : bool) :
  mode s = STEPPER_MODE_HALF_STEP -> 2 <= num_pins s <= 31 ->
  one_bit (mask s) (num_pins s) -> one_bit (half_mask s) (num_pins s) ->
  (if Z.odd (step_count s)
   then mask (step s forward) <> mask s
        /\ half_mask (step s forward) = half_mask s
   else mask (step s forward) = mask s
        /\ half_mask (step s forward) <> half_mask s)
  /\ one_bit (mask (step s forward)) (num_pins s)
  /\ one_bit (half_mask (step s forward)) (num_pins s).
Proof.
  intros Hmode Hn Hm Hh.
  rewrite step_half by (try apply (one_bit_nonzero _ _ Hm); assumption).
  destruct (Z.odd (step_count s)); simpl mask; simpl half_mask.
  - split; [ split; [ apply step_mask_one_bit_moves; (assumption || lia)
                    | reflexivity ] | ].
    split; [ apply step_mask_one_bit; (assumption || lia) | assumption ].
  - split; [ split; [ reflexivity
                    | apply step_mask_one_bit_moves; (assumption || lia) ] | ].
    split; [ assumption | apply step_mask_one_bit; (assumption || lia) ].
Qed.

Lemma stepper_hold_mode (s : stepper) : mode (stepper_hold s) = mode s.
Proof.
  unfold stepper_hold. destruct (mode s) eqn:E; simpl; now rewrite E.
Qed.

Lemma step_mode (s : stepper) (forward : bool) : mode (step s forward) = mode s.
Proof.
  unfold step. destruct (negb _).
  - apply stepper_hold_mode.
  - cbv zeta. destruct (_ || _); reflexivity.
Qed.

Lemma step_half_one_bit (s : stepper) (forward : bool) :
  mode s = STEPPER_MODE_HALF_STEP -> 1 <= num_pins s <= 31 ->
  one_bit (mask s) (num_pins s) /\ one_bit (half_mask s) (num_pins s) ->
  one_bit (mask (step s forward)) (num_pins s)
  /\ one_bit (half_mask (step s forward)) (num_pins s).
Proof.
  intros Hmode Hn [Hm Hh].
  rewrite step_half by (try apply (one_bit_nonzero _ _ Hm); assumption).
  destruct (Z.odd (step_count s)); simpl mask; simpl half_mask;
    (split; [ | ]); try assumption; now apply step_mask_one_bit.
Qed.

Lemma stepper_update_half_mask (now : Z) (s : stepper) :
  mode (fst (stepper_update now s)) = mode s
  /\ (fst (stepper_update now s) = stepper_update_ramp now s
      \/ (mask (fst (stepper_update now s))
            = mask (step (stepper_update_ramp now s) true)
          /\ half_mask (fst (stepper_update now s))
             = half_mask (step (stepper_update_ramp now s) true))).
Proof.
  unfold stepper_update.
  destruct (stepper_update_ramp_frame now s) as (_ & _ & _ & _ & Emode & _).
  rewrite <- Emode. unfold stepper_update_clock.
  destruct (negb _); [ auto | ].
  destruct (_ >=? _); [ | auto ].
  cbv zeta. destruct (nonzero (to_int _)); [ | auto ]. simpl.
  split; [ apply step_mode | right; split; reflexivity ].
Qed.

Lemma stepper_set_rpm_mode (t1 t2 : Z) (s : stepper) (rpm : Z) (s' : stepper) :
  stepper_set_rpm t1 t2 s rpm = Some s' -> mode s' = mode s.
Proof.
  unfold stepper_set_rpm. cbv zeta.
  destruct (_ =? _); [ now intros [= <-] | ].
  destruct (nonzero _); [ | now intros [= <-] ].
  destruct (rpm_to_step_us _ _); [ now intros [= <-] | discriminate ].
Qed.

Lemma stepper_set_accel_mode (s : stepper) (a m : Z) (s' : stepper) :
  stepper_set_accel s a m = Some s' -> mode s' = mode s.
Proof.
  unfold stepper_set_accel.
  destruct (_ =? _); [ now intros [= <-] | ].
  destruct (rpm_to_step_us s _); [ simpl bind | discriminate ].
  cbv zeta. destruct (rpm_to_step_us _ _); [ now intros [= <-] | discriminate ].
Qed.

(** The held or stepping half-step motor keeps one bit in each mask. *)
Lemma held_or_stepping_half_one_bit (s : stepper) :
  held_or_stepping s ->
  mode s = STEPPER_MODE_HALF_STEP -> 1 <= num_pins s <= 31 ->
  one_bit (mask s) (num_pins s) /\ one_bit (half_mask s) (num_pins s).
Proof.
  induction 1 as [ s | now s forward H IH | now s H IH
                 | t1 t2 s rpm s' H IH E | s a m s' H IH E ];
    intros Hmode Hn.
  - rewrite stepper_hold_num_pins in *.
    assert (M : mode s = STEPPER_MODE_HALF_STEP)
      by (now rewrite stepper_hold_mode in Hmode).
    unfold stepper_hold. rewrite M. simpl.
    split; exists 0; (split; [ lia | reflexivity ]).
  - assert (P : num_pins (stepper_step now s forward) = num_pins s)
      by (unfold stepper_step, num_pins; simpl pins; apply step_num_pins).
    rewrite P in *.
    assert (M : mode s = STEPPER_MODE_HALF_STEP)
      by (unfold stepper_step in Hmode; simpl in Hmode;
          now rewrite step_mode in Hmode).
    unfold stepper_step. simpl mask. simpl half_mask.
    apply step_half_one_bit; auto.
  - assert (P : num_pins (fst (stepper_update now s)) = num_pins s)
      by (unfold num_pins; now rewrite stepper_update_pins).
    rewrite P in *.
    destruct (stepper_update_half_mask now s) as [Em [Es | [E1 E2]]].
    + rewrite Es.
      destruct (stepper_update_ramp_frame now s) as (R1 & R2 & _).
      rewrite R1, R2. apply IH; congruence.
    + rewrite E1, E2.
      destruct (stepper_update_ramp_frame now s)
        as (R1 & R2 & _ & R4 & R5 & _).
      set (r := stepper_update_ramp now s) in *.
      assert (Pr : num_pins r = num_pins s)
        by (unfold num_pins; now rewrite R4).
      rewrite <- Pr. apply step_half_one_bit.
      * congruence.
      * lia.
      * rewrite Pr, R1, R2. apply IH; congruence.
  - destruct (stepper_set_rpm_masks _ _ _ _ _ E) as (Em & Eh & Ep).
    pose proof (stepper_set_rpm_mode _ _ _ _ _ E) as Emode.
    unfold num_pins in *. rewrite Em, Eh, Ep in *. apply IH; congruence.
  - destruct (stepper_set_accel_masks _ _ _ _ E) as (Em & Eh & Ep).
    pose proof (stepper_set_accel_mode _ _ _ _ E) as Emode.
    unfold num_pins in *. rewrite Em, Eh, Ep in *. apply IH; congruence.
Qed.

(** C9 (amended).  With 1 to 31 windings registered, in every state reached
    from [stepper_hold] by steps, polls and speed or acceleration changes
    the combined pattern [mask | half_mask] is nonzero; [stepper_brake]
    clears it; and a step attempted on a cleared pattern is [stepper_hold],
    which sets it again, instead of a rotation. *)
Theorem combined_nonzero_while_held_or_stepping (s : stepper) :
  held_or_stepping s ->
  1 <= num_pins s <= 31 ->
  combined s <> 0
  /\ combined (stepper_brake s) = 0
  /\ forall s0 forward,
       combined s0 = 0 ->
       step s0 forward = stepper_hold s0 /\ combined (step s0 forward) <> 0.
Proof.
  intros H Hn. split; [ | split ].
  - intros E. apply combined_zero in E.
    apply (in_ring_mask_nonzero s); [ | apply E ].
    now apply held_or_stepping_in_ring.
  - reflexivity.
  - intros s0 forward E. apply combined_zero in E. destruct E as [Em _].
    rewrite step_cleared by assumption. split; [ reflexivity | ].
    intros E. apply combined_zero in E. destruct E as [E _].
    unfold stepper_hold in E. destruct (mode s0); discriminate E.
Qed.

Lemma combined_nonzero_while_held_or_stepping_witness :
  combined (stepper_step 3 (stepper_hold motor_held) true) <> 0.
Proof.
  refine (proj1 (combined_nonzero_while_held_or_stepping
                   (stepper_step 3 (stepper_hold motor_held) true) _ _)).
  - apply hs_step. apply hs_hold.
  - vm_compute. split; congruence.
Defined.

(** The claim as stated fails: with no winding registered the ring has no
    bit, and two steps after [stepper_hold] both masks of the half-step
    driver are clear. *)
Lemma unwired_motor_steps_to_zero_pattern :
  let s := stepper_step 2 (stepper_step 1 motor_unwired true) true in
  held_or_stepping s /\ combined s = 0.
Proof.
  split.
  - apply hs_step. apply hs_step. apply hs_hold.
  - reflexivity.
Qed.

(** ** The value returned by a poll *)

Lemma stepper_update_clock_stepped (now : Z) (s : stepper) :
  us_per_step s <> 0 -> last_step s <= now ->
  to_int ((now - last_step s) / us_per_step s) <> 0 ->
  stepper_update_clock now s =
    (set_last_step (wrap64 (last_step (step s true) + us_per_step (step s true)))
       (step s true),
     to_int ((now - last_step s) / us_per_step s) >? 1).
Proof.
  intros Hp Hl Hq. unfold stepper_update_clock.
  apply nonzero_true in Hp. rewrite Hp. simpl negb. cbv iota.
  destruct (Z.geb_spec now (last_step s)); [ | lia ].
  cbv zeta. apply nonzero_true in Hq. now rewrite Hq.
Qed.

Lemma stepper_update_clock_idle (now : Z) (s : stepper) :
  us_per_step s = 0 \/ now < last_step s
  \/ to_int ((now - last_step s) / us_per_step s) = 0 ->
  stepper_update_clock now s = (s, false).
Proof.
  intros H. unfold stepper_update_clock.
  destruct (Z.eq_dec (us_per_step s) 0) as [E | N].
  { apply nonzero_false in E. now rewrite E. }
  apply nonzero_true in N. rewrite N. simpl negb. cbv iota.
  destruct (Z.geb_spec now (last_step s)); [ | reflexivity ].
  destruct H as [H | [H | H]].
  - apply nonzero_true in N. contradiction.
  - lia.
  - cbv zeta. rewrite H. reflexivity.
Qed.

(** The value returned by [stepper_update] is the test [num_steps > 1] of
    the step clock; whenever it is true, [step] was called. *)
Lemma stepper_update_returns_count (now : Z) (s : stepper) :
  let r := stepper_update_ramp now s in
  let count := to_int ((now - last_step r) / us_per_step r) in
  (snd (stepper_update now s) = true <->
   us_per_step r <> 0 /\ last_step r <= now /\ 1 < count)
  /\ (sequencer_advanced s (fst (stepper_update now s)) <->
      us_per_step r <> 0 /\ last_step r <= now /\ count <> 0).
Proof.
  cbv zeta. unfold stepper_update.
  destruct (stepper_update_ramp_frame now s) as (Em & Eh & Ec & _).
  set (r := stepper_update_ramp now s) in *.
  assert (Adv : forall x, sequencer_advanced s x <-> sequencer_advanced r x).
  { unfold sequencer_advanced. intros x. now rewrite Em, Eh, Ec. }
  assert (Idle : ~ sequencer_advanced s r).
  { rewrite Adv. unfold sequencer_advanced. tauto. }
  destruct (Z.eq_dec (us_per_step r) 0) as [E0 | N0].
  { rewrite stepper_update_clock_idle by auto. simpl.
    split; split; try discriminate; try tauto. }
  destruct (Z_lt_ge_dec now (last_step r)) as [L | G].
  { rewrite stepper_update_clock_idle by auto. simpl.
    split; split; try discriminate; try tauto; intros (_ & H & _); lia. }
  destruct (Z.eq_dec (to_int ((now - last_step r) / us_per_step r)) 0)
    as [Q0 | QN].
  { rewrite stepper_update_clock_idle by auto. simpl.
    split; split; try discriminate; try tauto; intros (_ & _ & H); lia. }
  rewrite stepper_update_clock_stepped by (assumption || lia). simpl.
  rewrite Z.gtb_ltb, Z.ltb_lt. split; split.
  - intros H. repeat split; (assumption || lia).
  - intros (_ & _ & H). exact H.
  - intros _. repeat split; (assumption || lia).
  - intros _. apply Adv. pose proof (step_advances r true) as A.
    unfold sequencer_advanced in *. simpl. exact A.
Qed.

(** C2 (amended).  The value returned by [stepper_update] is the fell-behind
    signal, not a flag that a step occurred.  With a nonzero current
    interval and fewer than [2^31] whole intervals elapsed since [last_step]:
    the phase sequencer is advanced exactly when one or more intervals have
    elapsed, and the returned value is true exactly when two or more have.
    So whenever it is true a step occurred during the call, and a call that
    steps with exactly one interval elapsed returns false. *)
Theorem stepper_update_returns_fell_behind (now : Z) (s : stepper) :
  0 < us_per_step (stepper_update_ramp now s) ->
  last_step s <= now ->
  (now - last_step s) / us_per_step (stepper_update_ramp now s) < 2 ^ 31 ->
  (sequencer_advanced s (fst (stepper_update now s)) <->
   us_per_step (stepper_update_ramp now s) <= now - last_step s)
  /\ (snd (stepper_update now s) = true <->
      2 * us_per_step (stepper_update_ramp now s) <= now - last_step s)
  /\ (snd (stepper_update now s) = true ->
      sequencer_advanced s (fst (stepper_update now s))).
Proof.
  intros Hp Hl Hq.
  destruct (stepper_update_returns_count now s) as [Ret Adv].
  cbv zeta in Ret, Adv.
  destruct (stepper_update_ramp_frame now s) as (_ & _ & _ & _ & _ & El).
  rewrite El in Ret, Adv.
  set (p := us_per_step (stepper_update_ramp now s)) in *.
  assert (Q0 : 0 <= (now - last_step s) / p) by (apply Z.div_pos; lia).
  rewrite to_int_small in Ret, Adv by lia.
  assert (Q1 : (now - last_step s) / p <> 0 <-> p <= now - last_step s).
  { split; intros H.
    - destruct (Z_lt_ge_dec (now - last_step s) p) as [L | G]; [ | lia ].
      exfalso. apply H. apply Z.div_small. lia.
    - assert (1 <= (now - last_step s) / p)
        by (apply Z.div_le_lower_bound; lia). lia. }
  assert (Q2 : 1 < (now - last_step s) / p <-> 2 * p <= now - last_step s).
  { split; intros H.
    - destruct (Z_lt_ge_dec (now - last_step s) (2 * p)) as [L | G]; [ | lia ].
      assert ((now - last_step s) / p < 2)
        by (apply Z.div_lt_upper_bound; lia). lia.
    - assert (2 <= (now - last_step s) / p)
        by (apply Z.div_le_lower_bound; lia). lia. }
  split; [ | split ].
  - rewrite Adv, <- Q1. split; [ tauto | ].
    intros H. split; [ lia | split; [ lia | exact H ] ].
  - rewrite Ret, <- Q2. split; [ tauto | ].
    intros H. split; [ lia | split; [ lia | exact H ] ].
  - intros H. apply Adv. apply Ret in H.
    split; [ lia | split; [ lia | ] ]. intros E. rewrite E in H. lia.
Qed.

Lemma stepper_update_returns_fell_behind_witness :
  (sequencer_advanced motor_steady (fst (stepper_update 6000 motor_steady))
   <-> 2500 <= 6000)
  /\ (snd (stepper_update 6000 motor_steady) = true <-> 2 * 2500 <= 6000).
Proof.
  destruct (stepper_update_returns_fell_behind 6000 motor_steady)
    as (A & R & _); [ vm_compute; reflexivity | vm_compute; congruence
                    | vm_compute; reflexivity | ].
  split; [ exact A | exact R ].
Defined.

(** The claim as stated fails: one interval after the last step the steady
    motor steps, and the poll returns false. *)
Lemma step_taken_and_false_returned :
  sequencer_advanced motor_steady (fst (stepper_update 2500 motor_steady))
  /\ step_count (fst (stepper_update 2500 motor_steady)) = 1
  /\ snd (stepper_update 2500 motor_steady) = false.
Proof.
  split; [ | split ]; [ | reflexivity | reflexivity ].
  right. left. vm_compute. discriminate.
Qed.

(** ** The step clock *)

Lemma step_timing_frame (s : stepper) (forward : bool) :
  last_step (step s forward) = last_step s
  /\ us_per_step (step s forward) = us_per_step s
  /\ us_per_step_target (step s forward) = us_per_step_target s
  /\ us_accel (step s forward) = us_accel s
  /\ max_us_per_step (step s forward) = max_us_per_step s
  /\ last_accel_step (step s forward) = last_accel_step s.
Proof.
  unfold step. destruct (negb _).
  - unfold stepper_hold. destruct (mode s); repeat split.
  - cbv zeta. destruct (_ || _); repeat split.
Qed.

(** The step clock while the count of elapsed intervals fits the [int] that
    holds it: when at least one whole interval has elapsed, one call of
    [step], [last_step] advanced by one interval, and the signal exactly when
    two or more intervals have elapsed. *)
Lemma step_clock_one_step (now : Z) (s : stepper) :
  0 < us_per_step s -> 0 <= last_step s -> now < 2 ^ 64 ->
  last_step s + us_per_step s <= now ->
  (now - last_step s) / us_per_step s < 2 ^ 31 ->
  stepper_update_clock now s =
    (set_last_step (last_step s + us_per_step s) (step s true),
     2 * us_per_step s <=? now - last_step s).
Proof.
  intros Hp Hl Hnow Hdue Hq.
  assert (Q1 : 1 <= (now - last_step s) / us_per_step s)
    by (apply Z.div_le_lower_bound; lia).
  rewrite stepper_update_clock_stepped;
    rewrite ?to_int_small by lia; try lia.
  destruct (step_timing_frame s true) as (El & Ep & _). rewrite El, Ep.
  rewrite wrap64_small by lia. f_equal.
  rewrite Z.gtb_ltb.
  destruct (Z.leb_spec (2 * us_per_step s) (now - last_step s)) as [L | G].
  - apply Z.ltb_lt.
    assert (2 <= (now - last_step s) / us_per_step s)
      by (apply Z.div_le_lower_bound; lia). lia.
  - apply Z.ltb_ge.
    assert ((now - last_step s) / us_per_step s < 2)
      by (apply Z.div_lt_upper_bound; lia). lia.
Qed.

(** Before a whole interval has elapsed the step clock does nothing. *)
Lemma step_clock_not_due (now : Z) (s : stepper) :
  0 < us_per_step s -> last_step s <= now < last_step s + us_per_step s ->
  stepper_update_clock now s = (s, false).
Proof.
  intros Hp H. apply stepper_update_clock_idle. right. right.
  rewrite Z.div_small by lia. reflexivity.
Qed.

Lemma stepper_update_ramp_disabled (now : Z) (s : stepper) :
  us_accel s = 0 -> us_per_step s = us_per_step_target s ->
  stepper_update_ramp now s = s.
Proof.
  intros Ha Ep. unfold stepper_update_ramp. rewrite Ha. simpl.
  destruct s. simpl in *. now subst.
Qed.

Lemma step_set_last_step (v : Z) (s : stepper) (forward : bool) :
  step (set_last_step v s) forward = set_last_step v (step s forward).
Proof.
  unfold step. simpl mask. destruct (negb _).
  - unfold stepper_hold. simpl mode. destruct (mode s); reflexivity.
  - cbv zeta. simpl mode. simpl step_count.
    destruct (_ || _); reflexivity.
Qed.

Lemma set_last_step_twice (v w : Z) (s : stepper) :
  set_last_step v (set_last_step w s) = set_last_step v s.
Proof. reflexivity. Qed.

Lemma steps_set_last_step (n : nat) :
  forall v s, steps n (set_last_step v s) = set_last_step v (steps n s).
Proof.
  induction n as [ | n IH ]; intros v s; simpl.
  - reflexivity.
  - now rewrite step_set_last_step, IH.
Qed.

(** The catch-up policy, ramping disabled: a poll that comes [k + 1] whole
    intervals late is followed by [k + 1] polls that take one step each, the
    first [k] of them signalling that the clock fell behind. *)
Lemma catch_up_polls (k : nat) :
  forall now s,
    us_accel s = 0 -> us_per_step s = us_per_step_target s ->
    0 < us_per_step s -> 0 <= last_step s -> now < 2 ^ 64 ->
    Z.of_nat (S k) < 2 ^ 31 ->
    last_step s + Z.of_nat (S k) * us_per_step s <= now
      < last_step s + (Z.of_nat (S k) + 1) * us_per_step s ->
    polls now (S k) s =
      (set_last_step (last_step s + Z.of_nat (S k) * us_per_step s)
         (steps (S k) s),
       repeat true k ++ [false]).
Proof.
  induction k as [ | k IH ]; intros now s Ha Et Hp Hl Hnow Hk Hd.
  - simpl polls. unfold stepper_update.
    rewrite stepper_update_ramp_disabled by assumption.
    rewrite step_clock_one_step; try lia.
    + change (Z.of_nat 1) with 1 in *. rewrite Z.mul_1_l.
      replace (2 * us_per_step s <=? now - last_step s) with false
        by (symmetry; apply Z.leb_gt; lia).
      reflexivity.
    + apply Z.div_lt_upper_bound; lia.
  - change (polls now (S (S k)) s)
      with (let '(s1, r) := stepper_update now s in
            let '(s2, rs) := polls now (S k) s1 in (s2, r :: rs)).
    rewrite (Nat2Z.inj_succ (S k)) in *.
    set (n := Z.of_nat (S k)) in *.
    assert (N1 : 1 <= n) by (unfold n; lia).
    assert (D1 : last_step s + 2 * us_per_step s <= now) by nia.
    assert (Q : (now - last_step s) / us_per_step s < 2 ^ 31)
      by (apply Z.div_lt_upper_bound; nia).
    unfold stepper_update.
    rewrite stepper_update_ramp_disabled by assumption.
    rewrite step_clock_one_step by (assumption || lia).
    destruct (step_timing_frame s true) as (El & Ep & Etg & Eac & _).
    rewrite IH; fold n; simpl us_accel; simpl us_per_step;
      simpl us_per_step_target; simpl last_step;
      rewrite ?Ep, ?Etg, ?Eac; try assumption; try nia.
    rewrite steps_set_last_step.
    replace (2 * us_per_step s <=? now - last_step s) with true
      by (symmetry; apply Z.leb_le; lia).
    change (steps (S (S k)) s) with (steps (S k) (step s true)).
    rewrite set_last_step_twice.
    change (repeat true (S k) ++ [false])
      with (true :: (repeat true k ++ [false])).
    f_equal. f_equal. lia.
Qed.

(** The scenario of the specification: five intervals late, then six polls
    at that time.  Five steps, the first four signalled, and nothing on the
    sixth poll. *)
Example catch_up_five_periods :
  let '(s, rs) := polls (5 * 2500) 6 motor_steady in
  rs = [true; true; true; true; false; false]
  /\ step_count s = 5 /\ last_step s = 5 * 2500.
Proof. vm_compute. repeat split. Qed.

(** C1.  The claim fails on the code, which keeps the count of elapsed
    intervals in an [int].  On the steady motor (interval 2500, last step at
    time 0): [2^32] intervals after the last step the count is stored as
    zero, and the poll takes no step and gives no signal; [2^31] intervals
    after it the count is stored as a negative number, and the poll takes its
    step without the signal. *)
Theorem step_clock_count_truncated :
  (us_accel motor_steady = 0 /\ us_per_step motor_steady = 2500
   /\ last_step motor_steady = 0)
  /\ ((2 ^ 32 * 2500 - last_step motor_steady) / us_per_step motor_steady
        = 2 ^ 32
      /\ stepper_update (2 ^ 32 * 2500) motor_steady = (motor_steady, false))
  /\ ((2 ^ 31 * 2500 - last_step motor_steady) / us_per_step motor_steady
        = 2 ^ 31
      /\ step_count (fst (stepper_update (2 ^ 31 * 2500) motor_steady))
         = step_count motor_steady + 1
      /\ last_step (fst (stepper_update (2 ^ 31 * 2500) motor_steady)) = 2500
      /\ snd (stepper_update (2 ^ 31 * 2500) motor_steady) = false).
Proof. vm_compute. repeat split. Qed.

(** ** The ramp controller *)

Lemma move_toward_between (cur tgt units : Z) :
  0 <= units ->
  Z.min cur tgt <= move_toward cur tgt units <= Z.max cur tgt.
Proof.
  intros Hu. unfold move_toward.
  destruct (Z.ltb_spec cur tgt); [ lia | ].
  destruct (Z.ltb_spec tgt cur); lia.
Qed.

(** The ramp controller while the count of elapsed units fits the [int]
    that holds it and the intervals are those of [rpm_to_step_us]: outside
    the stopped and launch cases the current interval moves towards the
    effective target by the whole units elapsed, without passing it, and
    [last_accel_step] advances by those units, the remainder of the elapsed
    time staying for the next poll. *)
Lemma ramp_moves_whole_units (now : Z) (s : stepper) :
  0 < us_accel s -> stopped_hold s = false -> launch s = false ->
  0 <= last_accel_step s <= now -> now < 2 ^ 64 ->
  intervals_bounded s ->
  (now - last_accel_step s) / us_accel s < 2 ^ 31 ->
  let units := (now - last_accel_step s) / us_accel s in
  let r := stepper_update_ramp now s in
  us_per_step r = move_toward (us_per_step s) (effective_target s) units
  /\ last_accel_step r = last_accel_step s + units * us_accel s
  /\ now - last_accel_step r = (now - last_accel_step s) mod us_accel s
  /\ us_per_step_target r = us_per_step_target s
  /\ max_us_per_step r = max_us_per_step s
  /\ us_accel r = us_accel s.
Proof.
  intros Ha Hs Hl Ht Hnow (Bt & Bc & Bm) Hq units r.
  unfold US_PER_MIN, US_PER_SEC in *.
  assert (U0 : 0 <= units) by (apply Z.div_pos; lia).
  assert (UA : units * us_accel s <= now - last_accel_step s)
    by (unfold units; rewrite Z.mul_comm; apply Z.mul_div_le; lia).
  assert (Em : (now - last_accel_step s) mod us_accel s
               = now - last_accel_step s - units * us_accel s)
    by (unfold units; rewrite Z.mod_eq by lia; lia).
  assert (Bg : 0 <= effective_target s <= 60 * 1000000)
    by (unfold effective_target; destruct (_ =? _); lia).
  assert (R : r =
    let s1 :=
      if us_per_step s <? effective_target s then
        set_us_per_step (Z.min (us_per_step s + units) (effective_target s)) s
      else if us_per_step s >? effective_target s then
        set_us_per_step (Z.max (us_per_step s - units) (effective_target s)) s
      else s in
    set_last_accel_step (last_accel_step s + units * us_accel s) s1).
  { unfold r, stepper_update_ramp.
    replace (nonzero (us_accel s)) with true
      by (symmetry; apply nonzero_true; lia).
    unfold stopped_hold in Hs. unfold launch in Hl. rewrite Hs, Hl.
    replace (now >=? last_accel_step s) with true
      by (symmetry; apply Z.geb_le; lia).
    fold units. rewrite (to_int_small units) by lia.
    replace (if nonzero (us_per_step_target s) then us_per_step_target s
             else max_us_per_step s) with (effective_target s)
      by (unfold effective_target, nonzero;
          destruct (us_per_step_target s =? 0); reflexivity).
    rewrite (to_int64_small (effective_target s)) by lia.
    rewrite (wrap64_small (effective_target s)) by lia.
    rewrite (to_int64_small (us_per_step s)) by lia.
    rewrite !to_int64_small by lia.
    rewrite MIN_min, MAX_max.
    rewrite (wrap64_small units) by lia.
    cbv zeta.
    assert (W : wrap64 (us_accel s * units) = units * us_accel s)
      by (rewrite wrap64_small; nia).
    destruct (Z.ltb_spec (us_per_step s) (effective_target s)).
    - rewrite (wrap64_small (Z.min _ _)) by lia.
      simpl last_accel_step. simpl us_accel.
      rewrite W. rewrite wrap64_small by nia. reflexivity.
    - destruct (Z.gtb_spec (us_per_step s) (effective_target s)).
      + rewrite (wrap64_small (Z.max _ _)) by lia.
        simpl last_accel_step. simpl us_accel.
        rewrite W. rewrite wrap64_small by nia. reflexivity.
      + rewrite W. rewrite wrap64_small by nia. reflexivity. }
  rewrite R. cbv zeta. unfold move_toward.
  rewrite (Z.gtb_ltb (us_per_step s)).
  destruct (us_per_step s <? effective_target s);
    [ | destruct (effective_target s <? us_per_step s) ];
    simpl; repeat split; lia.
Qed.

(** The step clock does not touch the fields of the ramp controller. *)
Lemma stepper_update_clock_ramp_fields (now : Z) (s : stepper) :
  us_per_step (fst (stepper_update_clock now s)) = us_per_step s
  /\ last_accel_step (fst (stepper_update_clock now s)) = last_accel_step s
  /\ us_per_step_target (fst (stepper_update_clock now s))
     = us_per_step_target s
  /\ max_us_per_step (fst (stepper_update_clock now s)) = max_us_per_step s.
Proof.
  unfold stepper_update_clock.
  destruct (negb _); [ repeat split | ].
  destruct (_ >=? _); [ | repeat split ].
  cbv zeta. destruct (nonzero (to_int _)); [ | repeat split ].
  destruct (step_timing_frame s true) as (_ & Ep & Et & _ & Em & El).
  simpl. auto.
Qed.

(** What [ramp_moves_whole_units] says of the ramp controller holds of the
    whole poll. *)
Lemma poll_moves_whole_units (now : Z) (s : stepper) :
  0 < us_accel s -> stopped_hold s = false -> launch s = false ->
  0 <= last_accel_step s <= now -> now < 2 ^ 64 ->
  intervals_bounded s ->
  (now - last_accel_step s) / us_accel s < 2 ^ 31 ->
  let units := (now - last_accel_step s) / us_accel s in
  let s' := fst (stepper_update now s) in
  us_per_step s' = move_toward (us_per_step s) (effective_target s) units
  /\ last_accel_step s' = last_accel_step s + units * us_accel s
  /\ now - last_accel_step s' = (now - last_accel_step s) mod us_accel s.
Proof.
  intros Ha Hs Hl Ht Hnow Hb Hq units s'.
  destruct (ramp_moves_whole_units now s Ha Hs Hl Ht Hnow Hb Hq)
    as (E1 & E2 & E3 & _).
  unfold s', stepper_update.
  destruct (stepper_update_clock_ramp_fields now (stepper_update_ramp now s))
    as (F1 & F2 & _).
  rewrite F1, F2. auto.
Qed.

(** The bound on the intervals is kept by the ramp controller while the
    count of elapsed units fits its [int], and set up by the functions that
    store intervals. *)
Lemma stepper_update_ramp_intervals_bounded (now : Z) (s : stepper) :
  intervals_bounded s ->
  0 <= us_accel s -> 0 <= last_accel_step s -> now < 2 ^ 64 ->
  (now - last_accel_step s) / us_accel s < 2 ^ 31 ->
  intervals_bounded (stepper_update_ramp now s).
Proof.
  intros Hb Ha Hl Hnow Hq. pose proof Hb as (Bt & Bc & Bm).
  destruct (Z.eq_dec (us_accel s) 0) as [A0 | AN].
  { unfold stepper_update_ramp. rewrite A0. simpl.
    unfold intervals_bounded. simpl. auto. }
  destruct (stopped_hold s) eqn:Hs.
  { unfold stepper_update_ramp.
    replace (nonzero (us_accel s)) with true
      by (symmetry; now apply nonzero_true).
    unfold stopped_hold in Hs. rewrite Hs.
    unfold intervals_bounded, US_PER_MIN, US_PER_SEC in *. simpl. lia. }
  destruct (launch s) eqn:Hla.
  { unfold stepper_update_ramp.
    replace (nonzero (us_accel s)) with true
      by (symmetry; now apply nonzero_true).
    unfold stopped_hold in Hs. unfold launch in Hla. rewrite Hs, Hla.
    unfold intervals_bounded. simpl. auto. }
  destruct (Z_le_gt_dec (last_accel_step s) now) as [L | G].
  - destruct (ramp_moves_whole_units now s) as (E1 & _ & _ & E4 & E5 & _);
      try assumption; try lia.
    unfold intervals_bounded. rewrite E1, E4, E5.
    assert (U0 : 0 <= (now - last_accel_step s) / us_accel s)
      by (apply Z.div_pos; lia).
    pose proof (move_toward_between (us_per_step s) (effective_target s) _ U0).
    assert (0 <= effective_target s <= US_PER_MIN)
      by (unfold effective_target; destruct (_ =? _); assumption).
    repeat split; lia.
  - unfold stepper_update_ramp.
    replace (nonzero (us_accel s)) with true
      by (symmetry; now apply nonzero_true).
    unfold stopped_hold in Hs. unfold launch in Hla. rewrite Hs, Hla.
    replace (now >=? last_accel_step s) with false
      by (symmetry; rewrite Z.geb_leb; apply Z.leb_gt; lia).
    exact Hb.
Qed.

Lemma stepper_set_rpm_intervals_bounded
    (t1 t2 : Z) (s : stepper) (rpm : Z) (s' : stepper) :
  intervals_bounded s ->
  0 <= rpm -> 0 <= max_rpm s -> 0 <= steps_per_rev s ->
  stepper_set_rpm t1 t2 s rpm = Some s' -> intervals_bounded s'.
Proof.
  intros (Bt & Bc & Bm) Hr Hm Hs. unfold stepper_set_rpm. cbv zeta.
  destruct (_ =? _); [ now intros [= <-] | ].
  destruct (nonzero _).
  - destruct (rpm_to_step_us _ _) as [v | ] eqn:E; [ | discriminate ].
    simpl. intros [= <-].
    apply rpm_to_step_us_bound in E;
      [ | rewrite MIN_min; lia | simpl; assumption ].
    unfold intervals_bounded. simpl. auto.
  - intros [= <-]. unfold intervals_bounded, US_PER_MIN, US_PER_SEC in *.
    simpl. lia.
Qed.

Lemma stepper_set_accel_intervals_bounded
    (s : stepper) (rpm_per_sec min_rpm : Z) (s' : stepper) :
  intervals_bounded s -> 0 <= min_rpm -> 0 <= steps_per_rev s ->
  stepper_set_accel s rpm_per_sec min_rpm = Some s' ->
  intervals_bounded s' /\ 0 <= us_accel s' <= US_PER_MIN.
Proof.
  intros (Bt & Bc & Bm) Hm Hs. unfold stepper_set_accel.
  destruct (_ =? _).
  { intros [= <-]. unfold intervals_bounded, US_PER_MIN, US_PER_SEC in *.
    simpl. lia. }
  destruct (rpm_to_step_us s _) as [a | ] eqn:Ea; [ simpl bind | discriminate ].
  cbv zeta. destruct (rpm_to_step_us _ min_rpm) as [m | ] eqn:Em;
    [ | discriminate ].
  simpl. intros [= <-].
  apply rpm_to_step_us_bound in Ea;
    [ | unfold wrap32; apply Z.mod_pos_bound; lia | assumption ].
  apply rpm_to_step_us_bound in Em; [ | assumption | simpl; assumption ].
  unfold intervals_bounded. simpl. auto.
Qed.

Lemma motor_held_intervals_bounded : intervals_bounded motor_held.
Proof. unfold intervals_bounded. vm_compute. repeat split; congruence. Qed.

(** C3.  The claim fails on the code, which keeps the count of elapsed ramp
    units in an [int].  On the motor on its way up the ramp (interval 20000,
    target 2500, unit 41, last ramp update at time 410000): [2^32] units
    after the last ramp update the count is stored as zero, and neither the
    interval nor [last_accel_step] moves; [2^31] units after it the count is
    stored as a negative number, the interval moves away from the target, and
    [last_accel_step] jumps ahead of the clock. *)
Theorem ramp_unit_count_truncated :
  (us_accel motor_ramping = 41 /\ us_per_step motor_ramping = 20000
   /\ last_accel_step motor_ramping = 410000
   /\ stopped_hold motor_ramping = false /\ launch motor_ramping = false
   /\ effective_target motor_ramping = 2500)
  /\ ((410000 + 2 ^ 32 * 41 - last_accel_step motor_ramping)
        / us_accel motor_ramping = 2 ^ 32
      /\ stepper_update_ramp (410000 + 2 ^ 32 * 41) motor_ramping
         = motor_ramping
      /\ us_per_step (fst (stepper_update (410000 + 2 ^ 32 * 41) motor_ramping))
         = 20000
      /\ last_accel_step
           (fst (stepper_update (410000 + 2 ^ 32 * 41) motor_ramping))
         = 410000)
  /\ ((410000 + 2 ^ 31 * 41 - last_accel_step motor_ramping)
        / us_accel motor_ramping = 2 ^ 31
      /\ us_per_step
           (fst (stepper_update (410000 + 2 ^ 31 * 41) motor_ramping))
         = 20000 + 2 ^ 31
      /\ last_accel_step
           (fst (stepper_update (410000 + 2 ^ 31 * 41) motor_ramping))
         = 2 ^ 64 + 410000 - 2 ^ 31 * 41).
Proof. vm_compute. repeat split. Qed.

(** * Further properties of the driver *)

(** ** [step_mask] as a rotation of the whole pattern *)

Lemma bits_above_range (m n j : Z) :
  0 <= m < 2 ^ n -> n <= j -> Z.testbit m j = false.
Proof.
  intros Hm Hj. destruct (Z_lt_ge_dec n 0) as [L | G].
  - rewrite Z.pow_neg_r in Hm by lia. lia.
  - rewrite <- (Z.mod_small m (2 ^ n)) by assumption.
    apply Z.mod_pow2_bits_high. lia.
Qed.

Lemma rotate_position_inverse (k : Z) (forward : bool) (n : Z) :
  0 <= k < n ->
  rotate_position (rotate_position k forward n) (negb forward) n = k.
Proof.
  intros Hk. unfold rotate_position. destruct forward; simpl negb; cbv iota.
  - destruct (Z.eqb_spec k 0).
    + destruct (Z.eqb_spec (n - 1) (n - 1)); lia.
    + destruct (Z.eqb_spec (k - 1) (n - 1)); lia.
  - destruct (Z.eqb_spec k (n - 1)).
    + destruct (Z.eqb_spec 0 0); lia.
    + destruct (Z.eqb_spec (k + 1) 0); lia.
Qed.

Section Rotation.

Variable n : Z.
Hypothesis Hn : 1 <= n <= 31.

(** Bit [i] of the rotated pattern is the bit of the pattern that the
    rotation moves to position [i]. *)
Lemma step_mask_bits (m : Z) (forward : bool) (i : Z) :
  0 <= m < 2 ^ n -> 0 <= i < n ->
  Z.testbit (step_mask m forward n) i
  = Z.testbit m (rotate_position i (negb forward) n).
Proof.
  intros Hm Hi. unfold step_mask, rotate_position. cbv zeta.
  rewrite ring_mask_ones, shl1_pow2 by lia.
  rewrite Z.land_spec, Z.ones_spec_low, andb_true_r by lia.
  destruct forward; simpl negb; cbv iota.
  - rewrite Z.shiftr_spec by lia. rewrite nonzero_land_1.
    destruct (Z.eqb_spec i (n - 1)) as [-> | Ni].
    + replace (n - 1 + 1) with n by lia.
      destruct (Z.testbit m 0) eqn:B0.
      * rewrite Z.lor_spec, Z.pow2_bits_true by lia. apply orb_true_r.
      * apply (bits_above_range m n); [ assumption | lia ].
    + destruct (Z.testbit m 0); [ | reflexivity ].
      rewrite Z.lor_spec, Z.pow2_bits_eqb by lia.
      destruct (Z.eqb_spec n (i + 1)); [ lia | apply orb_false_r ].
  - rewrite nonzero_land_pow2, testbit_wrap32_shiftl1 by lia.
    destruct (Z.eqb_spec i 0) as [-> | Ni].
    + destruct (Z.testbit m (n - 1)) eqn:Bn.
      * rewrite Z.lor_spec. change (Z.testbit 1 0) with true.
        apply orb_true_r.
      * rewrite testbit_wrap32_shiftl1 by lia. apply Z.testbit_neg_r. lia.
    + assert (T : Z.testbit (wrap32 (Z.shiftl m 1)) i = Z.testbit m (i - 1))
        by (apply testbit_wrap32_shiftl1; lia).
      destruct (Z.testbit m (n - 1)); [ | exact T ].
      rewrite Z.lor_spec, T. change 1 with (2 ^ 0).
      rewrite Z.pow2_bits_eqb by lia.
      destruct (Z.eqb_spec 0 i); [ lia | apply orb_false_r ].
Qed.

(** X1.  In a ring of 1 to 31 windings, one rotation of a pattern that lies
    inside the ring followed by one rotation in the opposite direction gives
    the pattern back. *)
Theorem step_mask_there_and_back (m : Z) (forward : bool) :
  0 <= m < 2 ^ n ->
  step_mask (step_mask m forward n) (negb forward) n = m.
Proof.
  intros Hm. apply Z.bits_inj'. intros i Hi.
  pose proof (step_mask_range n Hn m forward) as R1.
  pose proof (step_mask_range n Hn (step_mask m forward n) (negb forward)) as R2.
  destruct (Z_lt_ge_dec i n) as [L | G].
  - rewrite step_mask_bits by lia.
    rewrite negb_involutive.
    assert (Hr : 0 <= rotate_position i forward n < n)
      by (apply rotate_position_range; lia).
    rewrite step_mask_bits by lia.
    rewrite rotate_position_inverse by lia. reflexivity.
  - rewrite (bits_above_range _ n i R2) by lia.
    symmetry. apply (bits_above_range m n); [ assumption | lia ].
Qed.

(** [j] forward rotations bring bit [(i + j) mod n] to position [i]. *)
Lemma iter_step_mask_bits (m : Z) (j : nat) :
  0 <= m < 2 ^ n ->
  0 <= Nat.iter j (fun x => step_mask x true n) m < 2 ^ n
  /\ forall i, 0 <= i < n ->
       Z.testbit (Nat.iter j (fun x => step_mask x true n) m) i
       = Z.testbit m ((i + Z.of_nat j) mod n).
Proof.
  intros Hm. induction j as [ | j [IHr IHb] ].
  - split; [ exact Hm | ]. intros i Hi. simpl.
    now rewrite Z.add_0_r, Z.mod_small.
  - split; [ simpl; apply step_mask_range; exact Hn | ].
    intros i Hi. simpl Nat.iter. rewrite step_mask_bits by assumption.
    simpl negb. unfold rotate_position.
    assert (Hp : 0 <= (if i =? n - 1 then 0 else i + 1) < n)
      by (destruct (Z.eqb_spec i (n - 1)); lia).
    rewrite IHb by exact Hp. f_equal.
    rewrite Nat2Z.inj_succ.
    destruct (Z.eqb_spec i (n - 1)) as [-> | Ni].
    + replace (n - 1 + Z.succ (Z.of_nat j)) with (Z.of_nat j + 1 * n) by lia.
      rewrite Z.mod_add by lia. reflexivity.
    + f_equal. lia.
Qed.

(** As many forward rotations as the ring has bits give the pattern
    back. *)
Lemma iter_step_mask_full_turn (m : Z) :
  0 <= m < 2 ^ n ->
  Nat.iter (Z.to_nat n) (fun x => step_mask x true n) m = m.
Proof.
  intros Hm. destruct (iter_step_mask_bits m (Z.to_nat n) Hm) as [R B].
  apply Z.bits_inj'. intros i Hi.
  destruct (Z_lt_ge_dec i n) as [L | G].
  - rewrite B by lia. rewrite Z2Nat.id by lia.
    replace (i + n) with (i + 1 * n) by lia.
    rewrite Z.mod_add, Z.mod_small by lia. reflexivity.
  - rewrite (bits_above_range _ n i R) by lia.
    symmetry. apply (bits_above_range m n); [ assumption | lia ].
Qed.

End Rotation.

Lemma step_mask_there_and_back_witness :
  step_mask (step_mask 9 true 4) false 4 = 9
  /\ step_mask (step_mask 9 false 4) true 4 = 9.
Proof.
  split.
  - apply (step_mask_there_and_back 4 ltac:(lia) 9 true). vm_compute.
    split; congruence.
  - apply (step_mask_there_and_back 4 ltac:(lia) 9 false). vm_compute.
    split; congruence.
Defined.

(** ** A full turn of the phase sequencer *)

Lemma steps_add (a b : nat) :
  forall s, steps (a + b) s = steps b (steps a s).
Proof.
  induction a as [ | a IH ]; intros s; simpl.
  - reflexivity.
  - apply IH.
Qed.

Lemma wrap64_add_wrap64 (a b : Z) : wrap64 (wrap64 a + b) = wrap64 (a + b).
Proof. unfold wrap64. apply Z.add_mod_idemp_l. lia. Qed.

Lemma step_ring_state (s : stepper) (forward : bool) :
  ring_state s -> ring_state (step s forward).
Proof.
  intros [Hn Hm Hh].
  assert (M : mask s mod 2 ^ num_pins s <> 0)
    by (rewrite Z.mod_small; lia).
  assert (Rot : forall m, m mod 2 ^ num_pins s <> 0 ->
            0 < step_mask m forward (num_pins s) < 2 ^ num_pins s).
  { intros m Hr.
    pose proof (step_mask_range _ Hn m forward).
    pose proof (step_mask_nonzero _ Hn m forward Hr). lia. }
  destruct (mode s) eqn:Hmode.
  1, 2: rewrite step_full by (congruence || lia);
        split; simpl mask; simpl half_mask;
        [ exact Hn | apply Rot; exact M | exact Hh ].
  rewrite step_half by (assumption || lia).
  destruct (Z.odd (step_count s)); split; simpl mask; simpl half_mask;
    try assumption.
  - apply Rot; exact M.
  - apply step_mask_range; exact Hn.
Qed.

Lemma steps_ring_state (j : nat) :
  forall s, ring_state s -> ring_state (steps j s).
Proof.
  induction j as [ | j IH ]; intros s H; simpl.
  - exact H.
  - apply IH. now apply step_ring_state.
Qed.

Lemma steps_frame (j : nat) :
  forall s, pins (steps j s) = pins s /\ mode (steps j s) = mode s.
Proof.
  induction j as [ | j IH ]; intros s; simpl.
  - split; reflexivity.
  - destruct (IH (step s true)) as [E1 E2].
    rewrite E1, E2, step_pins, step_mode. split; reflexivity.
Qed.

(** After one or more steps the counter has advanced by their number. *)
Lemma steps_count (j : nat) :
  forall s, ring_state s ->
    step_count (steps (S j) s) = wrap64 (step_count s + Z.of_nat (S j)).
Proof.
  induction j as [ | j IH ]; intros s H.
  - simpl steps. unfold step.
    replace (nonzero (mask s)) with true
      by (symmetry; apply nonzero_true; destruct H; lia).
    simpl negb. cbv iota zeta. destruct (_ || _); reflexivity.
  - change (steps (S (S j)) s) with (steps (S j) (step s true)).
    rewrite IH by now apply step_ring_state.
    change (step s true) with (steps 1 s).
    change (steps 1 s) with (steps (S 0) s).
    assert (E : step_count (steps 1 s) = wrap64 (step_count s + 1)).
    { simpl steps. unfold step.
      replace (nonzero (mask s)) with true
        by (symmetry; apply nonzero_true; destruct H; lia).
      simpl negb. cbv iota zeta. destruct (_ || _); reflexivity. }
    rewrite E, wrap64_add_wrap64. f_equal. lia.
Qed.

(** In the two full-step modes every step rotates the primary mask. *)
Lemma steps_full_mode (j : nat) :
  forall s, ring_state s -> mode s <> STEPPER_MODE_HALF_STEP ->
    mask (steps j s)
    = Nat.iter j (fun x => step_mask x true (num_pins s)) (mask s)
    /\ half_mask (steps j s) = half_mask s.
Proof.
  induction j as [ | j IH ]; intros s H Hmode.
  - split; reflexivity.
  - change (steps (S j) s) with (steps j (step s true)).
    destruct (IH (step s true)) as [E1 E2].
    + now apply step_ring_state.
    + now rewrite step_mode.
    + rewrite E1, E2, step_num_pins.
      rewrite step_full by (destruct H; (assumption || lia)).
      simpl mask. simpl half_mask.
      split; [ | reflexivity ]. rewrite Nat.iter_succ_r. reflexivity.
Qed.

(** In half-step mode two steps rotate each mask once. *)
Lemma half_two_steps (s : stepper) :
  ring_state s -> mode s = STEPPER_MODE_HALF_STEP ->
  mask (steps 2 s) = step_mask (mask s) true (num_pins s)
  /\ half_mask (steps 2 s) = step_mask (half_mask s) true (num_pins s).
Proof.
  intros H Hmode.
  pose proof (step_ring_state s true H) as H1.
  change (steps 2 s) with (step (step s true) true).
  rewrite (step_half (step s true))
    by (rewrite ?step_mode; destruct H1; (assumption || lia)).
  rewrite step_num_pins.
  assert (Hm : mask s <> 0) by (destruct H; lia).
  rewrite !(step_half s) by assumption.
  simpl step_count. rewrite odd_wrap64_succ.
  destruct (Z.odd (step_count s)); simpl; split; reflexivity.
Qed.

Lemma steps_half_mode (k : nat) :
  forall s, ring_state s -> mode s = STEPPER_MODE_HALF_STEP ->
    mask (steps (2 * k) s)
    = Nat.iter k (fun x => step_mask x true (num_pins s)) (mask s)
    /\ half_mask (steps (2 * k) s)
       = Nat.iter k (fun x => step_mask x true (num_pins s)) (half_mask s).
Proof.
  induction k as [ | k IH ]; intros s H Hmode.
  - split; reflexivity.
  - replace (2 * S k)%nat with (2 + 2 * k)%nat by lia.
    rewrite steps_add.
    destruct (steps_frame 2 s) as [Ep Em].
    destruct (IH (steps 2 s)) as [E1 E2].
    + now apply steps_ring_state.
    + congruence.
    + destruct (half_two_steps s H Hmode) as [T1 T2].
      assert (Pn : num_pins (steps 2 s) = num_pins s)
        by (unfold num_pins; now rewrite Ep).
      rewrite E1, E2, Pn, T1, T2, !Nat.iter_succ_r. split; reflexivity.
Qed.

(** X2.  With 1 to 31 windings and masks inside the ring, a full turn of
    forward steps (as many as there are windings in the full-step modes,
    twice as many in half-step mode) brings both masks back to their values
    and advances the step counter by the number of steps. *)
Theorem full_turn_returns_pattern (s : stepper) :
  ring_state s ->
  let turn :=
    match mode s with
    | STEPPER_MODE_HALF_STEP => (2 * length (pins s))%nat
    | _ => length (pins s)
    end in
  mask (steps turn s) = mask s
  /\ half_mask (steps turn s) = half_mask s
  /\ step_count (steps turn s) = wrap64 (step_count s + Z.of_nat turn).
Proof.
  intros H. pose proof H as [Hn Hm Hh]. cbv zeta.
  assert (L : length (pins s) = Z.to_nat (num_pins s))
    by (unfold num_pins; now rewrite Nat2Z.id).
  assert (Lp : exists j, length (pins s) = S j)
    by (exists (pred (length (pins s))); unfold num_pins in Hn; lia).
  destruct Lp as [j Lj].
  destruct (mode s) eqn:Hmode.
  1, 2: destruct (steps_full_mode (length (pins s)) s H) as [E1 E2];
        [ congruence | ];
        rewrite E1, E2, L, iter_step_mask_full_turn by (assumption || lia);
        rewrite <- L, Lj, steps_count by assumption;
        repeat split; reflexivity.
  destruct (steps_half_mode (length (pins s)) s H Hmode) as [E1 E2].
  rewrite E1, E2, L, !iter_step_mask_full_turn by (assumption || lia).
  rewrite <- L, Lj.
  replace (2 * S j)%nat with (S (S (2 * j))) by lia.
  rewrite steps_count by assumption.
  repeat split; reflexivity.
Qed.

Lemma full_turn_returns_pattern_witness :
  mask (steps 8 motor_held) = 1 /\ half_mask (steps 8 motor_held) = 1
  /\ step_count (steps 8 motor_held) = 8.
Proof.
  apply (full_turn_returns_pattern motor_held).
  split; vm_compute; split; congruence.
Defined.

(** ** What [update] writes *)

Lemma nth_error_cons_ex {A : Type} (P : nat -> A -> Prop) (x : A) (xs : list A) :
  (exists k a, nth_error (x :: xs) k = Some a /\ P k a)
  <-> P 0%nat x \/ exists k a, nth_error xs k = Some a /\ P (S k) a.
Proof.
  split.
  - intros ([ | k ] & a & E & H); simpl in E.
    + injection E as <-. now left.
    + right. now exists k, a.
  - intros [H | (k & a & E & H)].
    + now exists 0%nat, x.
    + now exists (S k), a.
Qed.


Lemma nonzero_bit (b i : Z) :
  0 <= i -> nonzero (Z.land (Z.shiftr b i) 1) = Z.testbit b i.
Proof.
  intros Hi. rewrite nonzero_land_1, Z.shiftr_spec by lia. reflexivity.
Qed.

Section UpdateLoop.

Variable b : Z.



(** The function switches that the loop makes. *)
Lemma update_loop_set_function (ps : list pin_entry) :
  forall i o q f, 0 <= i ->
    In (q, f) (set_function (update_loop b i ps o))
    <-> In (q, f) (set_function o)
        \/ exists k p, nth_error ps k = Some p
             /\ (is_pwm p = true /\ pin p = q
                 /\ f = if Z.testbit b (i + Z.of_nat k)
                        then GPIO_FUNC_PWM else GPIO_FUNC_SIO).
Proof.
  induction ps as [ | p ps IH ]; intros i o q f Hi.
  - simpl. split; [ now left | ].
    intros [H | ([ | k] & p & E & _)]; (exact H || discriminate E).
  - rewrite (nth_error_cons_ex
               (fun k p' => is_pwm p' = true /\ pin p' = q
                            /\ f = if Z.testbit b (i + Z.of_nat k)
                                   then GPIO_FUNC_PWM else GPIO_FUNC_SIO)).
    simpl update_loop. cbv zeta. rewrite nonzero_bit by assumption.
    change (Z.of_nat 0) with 0. rewrite Z.add_0_r.
    assert (Shift : forall k, i + 1 + Z.of_nat k = i + Z.of_nat (S k))
      by (intros k; lia).
    destruct (Z.testbit b i) eqn:B; destruct (is_pwm p) eqn:W;
      rewrite IH by lia; simpl set_function;
      rewrite ?in_app_iff; simpl In;
      setoid_rewrite Shift.
    + split.
      * intros [[H | [[= <- <-] | []]] | H]; auto.
      * intros [H | [(_ & <- & ->) | H]]; auto.
    + split.
      * intros [H | H]; auto.
      * intros [H | [(D & _) | H]]; auto. discriminate D.
    + split.
      * intros [[H | [[= <- <-] | []]] | H]; auto.
      * intros [H | [(_ & <- & ->) | H]]; auto.
    + split.
      * intros [H | H]; auto.
      * intros [H | [(D & _) | H]]; auto. discriminate D.
Qed.

End UpdateLoop.

Lemma update_loop_switched_pins (b : Z) (ps : list pin_entry) :
  forall i o,
    map fst (set_function (update_loop b i ps o))
    = map fst (set_function o) ++ map pin (filter is_pwm ps).
Proof.
  induction ps as [ | p ps IH ]; intros i o.
  - simpl. now rewrite app_nil_r.
  - simpl update_loop. cbv zeta. simpl filter.
    destruct (nonzero _); destruct (is_pwm p); rewrite IH; simpl set_function;
      rewrite ?map_app, <- ?app_assoc; reflexivity.
Qed.



(** X4.  [update] switches the function of the variable-drive windings and
    of no other output, once each and in registration order: to the PWM
    function when the bit of the winding is set in [mask | half_mask], to
    plain digital otherwise. *)
Theorem update_function_switches (s : stepper) :
  map fst (set_function (update s)) = map pin (filter is_pwm (pins s))
  /\ forall q f,
       In (q, f) (set_function (update s))
       <-> exists k p, nth_error (pins s) k = Some p /\ is_pwm p = true
             /\ pin p = q
             /\ f = if Z.testbit (combined s) (Z.of_nat k)
                    then GPIO_FUNC_PWM else GPIO_FUNC_SIO.
Proof.
  unfold update. fold (combined s). split.
  - now rewrite update_loop_switched_pins.
  - intros q f.
    rewrite (update_loop_set_function (combined s) (pins s) 0
               (mk_gpio_out [] 0 0) q f ltac:(lia)).
    simpl set_function. simpl In. split.
    + intros [[] | (k & p & E & H)]. now exists k, p.
    + intros (k & p & E & H). right. now exists k, p.
Qed.

(** ** Stepping by hand and the ramped clock *)

(** X5.  After [stepper_step] at time [now], a poll that reads a time less
    than one current interval later takes no step and returns false: the
    anchors were reset to [now].  In particular a poll at the same instant
    never steps. *)
Theorem poll_after_manual_step (now now' : Z) (s : stepper) (forward : bool) :
  now <= now' ->
  now' - now
    < us_per_step (stepper_update_ramp now' (stepper_step now s forward))
  \/ us_per_step (stepper_update_ramp now' (stepper_step now s forward)) = 0 ->
  snd (stepper_update now' (stepper_step now s forward)) = false
  /\ mask (fst (stepper_update now' (stepper_step now s forward)))
     = mask (step s forward)
  /\ half_mask (fst (stepper_update now' (stepper_step now s forward)))
     = half_mask (step s forward)
  /\ step_count (fst (stepper_update now' (stepper_step now s forward)))
     = step_count (step s forward)
  /\ last_step (fst (stepper_update now' (stepper_step now s forward))) = now.
Proof.
  intros Hle Hlt. set (s1 := stepper_step now s forward) in *.
  unfold stepper_update.
  destruct (stepper_update_ramp_frame now' s1)
    as (Em & Eh & Ec & _ & _ & El).
  assert (L : last_step s1 = now) by reflexivity.
  rewrite stepper_update_clock_idle.
  - simpl. rewrite Em, Eh, Ec, El. auto.
  - destruct Hlt as [Hlt | Hz]; [ | now left ].
    right. right. rewrite El, L, Z.div_small by lia. reflexivity.
Qed.

Lemma poll_after_manual_step_witness :
  snd (stepper_update 7000 (stepper_step 5000 motor_steady true)) = false
  /\ step_count (fst (stepper_update 7000 (stepper_step 5000 motor_steady true)))
     = 1.
Proof.
  destruct (poll_after_manual_step 5000 7000 motor_steady true)
    as (R & _ & _ & C & _);
    [ lia | left; vm_compute; reflexivity | ].
  split; [ exact R | exact C ].
Defined.

(** ** The reported speed *)

(** X6.  When the current interval is the interval of a speed [rpm] above
    zero, [stepper_get_actual_rpm] completes and never reports less than
    [rpm]; it reports [rpm] itself whenever
    [rpm * (rpm + 1) * steps_per_rev <= US_PER_MIN], which holds for every
    speed of the firmware. *)
Theorem actual_rpm_of_interval (s : stepper) (rpm : Z) :
  0 < rpm -> 0 < steps_per_rev s < 2 ^ 32 ->
  rpm * steps_per_rev s <= US_PER_MIN ->
  us_per_step s = US_PER_MIN / (rpm * steps_per_rev s) ->
  exists a,
    stepper_get_actual_rpm s = Some a /\ rpm <= a
    /\ (rpm * (rpm + 1) * steps_per_rev s <= US_PER_MIN -> a = rpm).
Proof.
  intros Hr Hs Hle Hp.
  set (n := steps_per_rev s) in *. set (q := us_per_step s) in *.
  assert (Hd : 0 < rpm * n) by nia.
  assert (Q1 : 1 <= q)
    by (rewrite Hp; apply Z.div_le_lower_bound; lia).
  assert (Q2 : q * (rpm * n) <= US_PER_MIN)
    by (rewrite Hp, Z.mul_comm; apply Z.mul_div_le; lia).
  assert (Q3 : US_PER_MIN < (q + 1) * (rpm * n)).
  { rewrite Hp. pose proof (Z.mod_pos_bound US_PER_MIN (rpm * n) Hd).
    pose proof (Z.div_mod US_PER_MIN (rpm * n) ltac:(lia)). nia. }
  assert (Q4 : q <= US_PER_MIN)
    by (rewrite Hp; apply Z.div_le_upper_bound; unfold US_PER_MIN, US_PER_SEC in *; nia).
  assert (W : wrap64 (q * n) = q * n).
  { apply wrap64_small. unfold US_PER_MIN, US_PER_SEC in Q4.
    change (2 ^ 64) with (2 ^ 32 * 2 ^ 32). nia. }
  assert (A0 : rpm <= US_PER_MIN / (q * n))
    by (apply Z.div_le_lower_bound; nia).
  assert (A1 : US_PER_MIN / (q * n) <= US_PER_MIN)
    by (apply Z.div_le_upper_bound; unfold US_PER_MIN, US_PER_SEC in *; nia).
  exists (US_PER_MIN / (q * n)).
  split; [ | split ].
  - unfold stepper_get_actual_rpm. fold q n.
    replace (nonzero q) with true by (symmetry; apply nonzero_true; lia).
    simpl negb. cbv iota zeta. rewrite W.
    destruct (Z.eqb_spec (q * n) 0); [ nia | ].
    rewrite wrap32_small; [ reflexivity | ].
    unfold US_PER_MIN, US_PER_SEC in *. lia.
  - exact A0.
  - intros Hsq.
    assert (Qr : rpm + 1 <= q)
      by (rewrite Hp; apply Z.div_le_lower_bound; nia).
    assert (US_PER_MIN / (q * n) < rpm + 1)
      by (apply Z.div_lt_upper_bound; nia).
    lia.
Qed.

Lemma actual_rpm_of_interval_witness :
  stepper_get_actual_rpm motor_steady = Some 60.
Proof.
  destruct (actual_rpm_of_interval motor_steady 60) as (a & E & _ & X);
    [ lia | vm_compute; split; congruence | vm_compute; congruence
    | vm_compute; reflexivity | ].
  rewrite E. f_equal. apply X. vm_compute. congruence.
Defined.

(** Closed arithmetic side conditions, by evaluation. *)
Ltac by_computation :=
  vm_compute; repeat split; first [ reflexivity | congruence ].

(** ** Catching up and idling *)

Lemma polls_add (now : Z) (a b : nat) :
  forall s,
    polls now (a + b) s
    = (fst (polls now b (fst (polls now a s))),
       snd (polls now a s) ++ snd (polls now b (fst (polls now a s)))).
Proof.
  induction a as [ | a IH ]; intros s.
  - simpl. now destruct (polls now b s).
  - simpl polls. destruct (stepper_update now s) as [s1 r].
    rewrite IH. destruct (polls now a s1) as [s2 rs]. reflexivity.
Qed.

(** Polls that come before the next step is due change nothing. *)
Lemma idle_polls (now : Z) (j : nat) :
  forall s,
    us_accel s = 0 -> us_per_step s = us_per_step_target s ->
    0 < us_per_step s ->
    last_step s <= now < last_step s + us_per_step s ->
    polls now j s = (s, repeat false j).
Proof.
  induction j as [ | j IH ]; intros s Ha Et Hp Hd.
  - reflexivity.
  - simpl polls. unfold stepper_update.
    rewrite stepper_update_ramp_disabled by assumption.
    rewrite step_clock_not_due by assumption.
    now rewrite IH.
Qed.

Lemma steps_timing_frame (j : nat) :
  forall s,
    us_per_step (steps j s) = us_per_step s
    /\ us_per_step_target (steps j s) = us_per_step_target s
    /\ us_accel (steps j s) = us_accel s.
Proof.
  induction j as [ | j IH ]; intros s; simpl.
  - repeat split.
  - destruct (IH (step s true)) as (E1 & E2 & E3).
    destruct (step_timing_frame s true) as (_ & F1 & F2 & F3 & _).
    rewrite E1, E2, E3, F1, F2, F3. repeat split.
Qed.

(** X7.  The catch-up policy with ramping disabled and fewer than [2^31]
    intervals elapsed: when polling resumes [k + 1] whole intervals after
    the last step, the next [k + 1] polls take exactly one step each, the
    first [k] of them returning true (fell behind) and the last one false;
    [last_step] has then advanced by [k + 1] intervals, and every further
    poll at that time takes no step and returns false. *)
Theorem catch_up_then_idle (k j : nat) (now : Z) (s : stepper) :
  us_accel s = 0 -> us_per_step s = us_per_step_target s ->
  0 < us_per_step s -> 0 <= last_step s -> now < 2 ^ 64 ->
  Z.of_nat (S k) < 2 ^ 31 ->
  last_step s + Z.of_nat (S k) * us_per_step s <= now
    < last_step s + (Z.of_nat (S k) + 1) * us_per_step s ->
  polls now (S k + j) s =
    (set_last_step (last_step s + Z.of_nat (S k) * us_per_step s)
       (steps (S k) s),
     repeat true k ++ repeat false (S j)).
Proof.
  intros Ha Et Hp Hl Hnow Hk Hd.
  rewrite polls_add.
  rewrite (catch_up_polls k now s) by assumption.
  cbn [fst snd].
  destruct (steps_timing_frame (S k) s) as (E1 & E2 & E3).
  set (n := Z.of_nat (S k)) in *.
  set (s' := steps (S k) s) in *.
  assert (F : us_accel (set_last_step (last_step s + n * us_per_step s) s')
              = us_accel s'
              /\ us_per_step
                   (set_last_step (last_step s + n * us_per_step s) s')
                 = us_per_step s'
              /\ us_per_step_target
                   (set_last_step (last_step s + n * us_per_step s) s')
                 = us_per_step_target s'
              /\ last_step
                   (set_last_step (last_step s + n * us_per_step s) s')
                 = last_step s + n * us_per_step s)
    by (repeat split).
  destruct F as (F1 & F2 & F3 & F4).
  rewrite idle_polls.
  - cbn [fst snd]. f_equal. rewrite <- app_assoc. reflexivity.
  - congruence.
  - congruence.
  - rewrite F2, E1. exact Hp.
  - rewrite F2, F4, E1. lia.
Qed.

Lemma catch_up_then_idle_witness :
  snd (polls 12600 (5 + 2) motor_steady)
  = [true; true; true; true; false; false; false]
  /\ step_count (fst (polls 12600 (5 + 2) motor_steady)) = 5.
Proof.
  rewrite (catch_up_then_idle 4 2 12600 motor_steady) by by_computation.
  split; vm_compute; reflexivity.
Defined.

(** ** Convergence of the ramp *)

Lemma move_toward_distance (cur tgt units : Z) :
  0 <= units ->
  Z.abs (move_toward cur tgt units - tgt)
  = Z.max 0 (Z.abs (cur - tgt) - units).
Proof.
  intros Hu. unfold move_toward.
  destruct (Z.ltb_spec cur tgt); [ lia | ].
  destruct (Z.ltb_spec tgt cur); lia.
Qed.

(** X8.  The ramp with fewer than [2^31] units elapsed and intervals of at
    most a minute, outside the stopped and launch cases: a poll brings the
    current interval nearer to the effective target by exactly the whole
    units elapsed, stopping at the target; the interval stays between its
    old value and the target, and the part of the elapsed time that is less
    than a unit is kept for the next poll. *)
Theorem ramp_closes_distance (now : Z) (s : stepper) :
  0 < us_accel s -> stopped_hold s = false -> launch s = false ->
  0 <= last_accel_step s <= now -> now < 2 ^ 64 ->
  intervals_bounded s ->
  (now - last_accel_step s) / us_accel s < 2 ^ 31 ->
  Z.abs (us_per_step (fst (stepper_update now s)) - effective_target s)
  = Z.max 0 (Z.abs (us_per_step s - effective_target s)
             - (now - last_accel_step s) / us_accel s)
  /\ Z.min (us_per_step s) (effective_target s)
     <= us_per_step (fst (stepper_update now s))
     <= Z.max (us_per_step s) (effective_target s)
  /\ 0 <= now - last_accel_step (fst (stepper_update now s)) < us_accel s.
Proof.
  intros Ha Hs Hl Ht Hnow Hb Hq.
  destruct (poll_moves_whole_units now s Ha Hs Hl Ht Hnow Hb Hq)
    as (E1 & _ & E3).
  assert (U0 : 0 <= (now - last_accel_step s) / us_accel s)
    by (apply Z.div_pos; lia).
  rewrite E1, E3. split; [ | split ].
  - now apply move_toward_distance.
  - now apply move_toward_between.
  - apply Z.mod_pos_bound. exact Ha.
Qed.

Lemma ramp_closes_distance_witness :
  Z.abs (us_per_step (fst (stepper_update 451500 motor_ramping))
         - effective_target motor_ramping)
  = Z.max 0 (17500 - 1012).
Proof.
  destruct (ramp_closes_distance 451500 motor_ramping) as (D & B & R);
    [ by_computation .. | ].
  rewrite D. vm_compute. reflexivity.
Defined.

(** ** Stopping under the ramp *)

(** X9.  With ramping enabled and a stop requested (target interval zero):
    a poll stops the motor (current interval zero, no step) exactly when the
    current interval is already zero or equal to the floor interval;
    otherwise, with a nonzero floor interval (and fewer than [2^31] units
    elapsed, intervals of at most a minute), the current interval stays
    nonzero, between its old value and the floor interval. *)
Theorem stop_request_ramps_to_floor (now : Z) (s : stepper) :
  0 < us_accel s -> us_per_step_target s = 0 ->
  0 < max_us_per_step s ->
  0 <= last_accel_step s -> now < 2 ^ 64 ->
  intervals_bounded s ->
  (now - last_accel_step s) / us_accel s < 2 ^ 31 ->
  (us_per_step s = 0 \/ us_per_step s = max_us_per_step s ->
   us_per_step (fst (stepper_update now s)) = 0
   /\ snd (stepper_update now s) = false
   /\ step_count (fst (stepper_update now s)) = step_count s)
  /\ (us_per_step s <> 0 -> us_per_step s <> max_us_per_step s ->
      us_per_step (fst (stepper_update now s)) <> 0
      /\ Z.min (us_per_step s) (max_us_per_step s)
         <= us_per_step (fst (stepper_update now s))
         <= Z.max (us_per_step s) (max_us_per_step s)).
Proof.
  intros Ha Ht Hf Hl Hnow Hb Hq. split.
  - intros Hc.
    assert (R : stepper_update_ramp now s = set_us_per_step 0 s).
    { unfold stepper_update_ramp.
      replace (nonzero (us_accel s)) with true
        by (symmetry; apply nonzero_true; lia).
      rewrite Ht. simpl andb.
      replace ((us_per_step s =? max_us_per_step s) || (us_per_step s =? 0))
        with true; [ reflexivity | ].
      symmetry. apply orb_true_iff. rewrite !Z.eqb_eq. tauto. }
    unfold stepper_update. rewrite R.
    rewrite stepper_update_clock_idle by (left; reflexivity).
    repeat split.
  - intros N0 Nf.
    destruct (stepper_update_clock_ramp_fields now (stepper_update_ramp now s))
      as (F1 & _).
    unfold stepper_update. rewrite F1.
    pose proof Hb as (_ & Bc & Bm).
    destruct (Z_le_gt_dec (last_accel_step s) now) as [L | G].
    + assert (Hs : stopped_hold s = false).
      { unfold stopped_hold. rewrite Ht. simpl andb.
        apply orb_false_iff. rewrite !Z.eqb_neq. tauto. }
      assert (Hla : launch s = false)
        by (unfold launch; rewrite Ht; reflexivity).
      destruct (ramp_moves_whole_units now s Ha Hs Hla ltac:(lia) Hnow Hb Hq)
        as (E1 & _).
      assert (T : effective_target s = max_us_per_step s)
        by (unfold effective_target; now rewrite Ht).
      assert (U0 : 0 <= (now - last_accel_step s) / us_accel s)
        by (apply Z.div_pos; lia).
      pose proof (move_toward_between (us_per_step s) (effective_target s)
                    _ U0) as B.
      rewrite E1, <- T. split; [ lia | exact B ].
    + assert (R : stepper_update_ramp now s = s).
      { unfold stepper_update_ramp.
        replace (nonzero (us_accel s)) with true
          by (symmetry; apply nonzero_true; lia).
        rewrite Ht. simpl andb.
        replace ((us_per_step s =? max_us_per_step s) || (us_per_step s =? 0))
          with false
          by (symmetry; apply orb_false_iff; rewrite !Z.eqb_neq; tauto).
        replace (now >=? last_accel_step s) with false
          by (symmetry; rewrite Z.geb_leb; apply Z.leb_gt; lia).
        reflexivity. }
      rewrite R. split; lia.
Qed.

Lemma stop_request_ramps_to_floor_witness :
  us_per_step
    (fst (stepper_update 500000
            (set_us_per_step_target 0 motor_ramping))) <> 0.
Proof.
  destruct (stop_request_ramps_to_floor 500000
              (set_us_per_step_target 0 motor_ramping)) as (_ & N);
    [ by_computation .. | ].
  apply N; by_computation.
Defined.

(** ** The half-step sequence *)

Lemma iter_step_mask_one_bit (n : Z) (k : nat) (m : Z) :
  1 <= n <= 31 -> one_bit m n ->
  one_bit (Nat.iter k (fun x => step_mask x true n) m) n.
Proof.
  intros Hn Hm. induction k as [ | k IH ]; simpl.
  - exact Hm.
  - now apply step_mask_one_bit.
Qed.

Lemma stepper_hold_half_ring_state (s : stepper) :
  mode s = STEPPER_MODE_HALF_STEP -> 1 <= num_pins s <= 31 ->
  ring_state (stepper_hold s)
  /\ mask (stepper_hold s) = 1 /\ half_mask (stepper_hold s) = 1.
Proof.
  intros Hmode Hn.
  assert (P : 2 ^ 1 <= 2 ^ num_pins s) by (apply Z.pow_le_mono_r; lia).
  change (2 ^ 1) with 2 in P.
  unfold stepper_hold. rewrite Hmode.
  split; [ | split; reflexivity ].
  split; [ exact Hn | | ].
  - change (0 < 1 < 2 ^ num_pins s). lia.
  - change (0 <= 1 < 2 ^ num_pins s). lia.
Qed.

(** X10.  The half-step sequence after [stepper_hold], with 2 to 31
    windings: after an even number of forward steps both masks hold the same
    single bit (one winding energized); after an odd number they hold two
    different single bits that are neighbours in the ring (two windings
    energized), whichever mask moved first. *)
Theorem half_step_sequence_alternates (s : stepper) (k : nat) :
  mode s = STEPPER_MODE_HALF_STEP -> 2 <= num_pins s <= 31 ->
  (mask (steps (2 * k) (stepper_hold s))
   = half_mask (steps (2 * k) (stepper_hold s))
   /\ one_bit (mask (steps (2 * k) (stepper_hold s))) (num_pins s))
  /\ (mask (steps (2 * k + 1) (stepper_hold s))
      <> half_mask (steps (2 * k + 1) (stepper_hold s))
      /\ one_bit (mask (steps (2 * k + 1) (stepper_hold s))) (num_pins s)
      /\ one_bit (half_mask (steps (2 * k + 1) (stepper_hold s))) (num_pins s)
      /\ (mask (steps (2 * k + 1) (stepper_hold s))
          = step_mask (half_mask (steps (2 * k + 1) (stepper_hold s))) true
              (num_pins s)
          \/ half_mask (steps (2 * k + 1) (stepper_hold s))
             = step_mask (mask (steps (2 * k + 1) (stepper_hold s))) true
                 (num_pins s))).
Proof.
  intros Hmode Hn.
  destruct (stepper_hold_half_ring_state s Hmode ltac:(lia)) as (R & M1 & H1).
  set (h := stepper_hold s) in *.
  assert (Ph : num_pins h = num_pins s) by apply stepper_hold_num_pins.
  assert (Mh : mode h = STEPPER_MODE_HALF_STEP)
    by (unfold h; now rewrite stepper_hold_mode).
  destruct (steps_half_mode k h R Mh) as [E1 E2].
  rewrite Ph, M1 in E1. rewrite Ph, H1 in E2.
  assert (O : one_bit (Nat.iter k (fun x => step_mask x true (num_pins s)) 1)
                (num_pins s)).
  { apply iter_step_mask_one_bit; [ lia | ].
    exists 0. split; [ lia | reflexivity ]. }
  set (m := Nat.iter k (fun x => step_mask x true (num_pins s)) 1) in *.
  split.
  - rewrite E1, E2. split; [ reflexivity | exact O ].
  - rewrite steps_add.
    set (e := steps (2 * k) h) in *.
    change (steps 1 e) with (step e true).
    destruct (steps_frame (2 * k) h) as [Ep Em]. fold e in Ep, Em.
    assert (Pe : num_pins e = num_pins s)
      by (unfold num_pins in *; now rewrite Ep).
    assert (Me : mask e <> 0)
      by (rewrite E1; now apply (one_bit_nonzero m (num_pins s))).
    rewrite step_half by (assumption || congruence).
    rewrite Pe, E1, E2.
    pose proof (step_mask_one_bit_moves (num_pins s) ltac:(lia) m true
                  ltac:(lia) O) as Mv.
    pose proof (step_mask_one_bit (num_pins s) ltac:(lia) m true O) as Ob.
    destruct (Z.odd (step_count e)); simpl mask; simpl half_mask;
      rewrite ?E1, ?E2.
    + split; [ exact Mv | ]. split; [ exact Ob | ]. split; [ exact O | ].
      now left.
    + split; [ intros E; apply Mv; now symmetry | ].
      split; [ exact O | ]. split; [ exact Ob | ]. now right.
Qed.

Lemma half_step_sequence_alternates_witness :
  mask (steps (2 * 3) (stepper_hold motor_created))
  = half_mask (steps (2 * 3) (stepper_hold motor_created))
  /\ mask (steps (2 * 3 + 1) (stepper_hold motor_created))
     <> half_mask (steps (2 * 3 + 1) (stepper_hold motor_created)).
Proof.
  destruct (half_step_sequence_alternates motor_created 3)
    as ((E & _) & (N & _)); [ by_computation .. | ].
  split; [ exact E | exact N ].
Defined.

(** * Properties of the collaborators *)

(** ** Persistent settings *)

Lemma ROUND_UP_bounds (size factor : Z) :
  0 <= size -> 0 < factor -> size + factor < 2 ^ 32 ->
  Persist.ROUND_UP size factor
  = size + factor - 1 - (size + factor - 1) mod factor
  /\ size <= Persist.ROUND_UP size factor < size + factor.
Proof.
  intros Hs Hf Hb. unfold Persist.ROUND_UP.
  rewrite (wrap32_small (size + factor)) by lia.
  rewrite (wrap32_small (size + factor - 1)) by lia.
  pose proof (Z.mod_pos_bound (size + factor - 1) factor Hf) as M.
  rewrite wrap32_small by lia. split; [ reflexivity | lia ].
Qed.

(** X11.  [ROUND_UP(size, factor)] with a positive factor, when
    [size + factor] fits 32 bits, is the least multiple of [factor] that is
    not below [size]. *)
Theorem ROUND_UP_least_multiple (size factor : Z) :
  0 <= size -> 0 < factor -> size + factor < 2 ^ 32 ->
  (factor | Persist.ROUND_UP size factor)
  /\ size <= Persist.ROUND_UP size factor < size + factor.
Proof.
  intros Hs Hf Hb.
  destruct (ROUND_UP_bounds size factor Hs Hf Hb) as [E B].
  split; [ | exact B ]. rewrite E.
  exists ((size + factor - 1) / factor).
  rewrite Z.mod_eq by lia. lia.
Qed.

Lemma ROUND_UP_least_multiple_witness :
  (256 | Persist.ROUND_UP 8 256) /\ 8 <= Persist.ROUND_UP 8 256 < 8 + 256.
Proof. apply ROUND_UP_least_multiple; lia. Defined.

Lemma u32_of_bytes_of_u32 (v : Z) :
  0 <= v < 2 ^ 32 ->
  Persist.u32_of_bytes (v mod 256) ((v / 256) mod 256) ((v / 65536) mod 256)
    ((v / 16777216) mod 256) = v.
Proof.
  intros Hv. unfold Persist.u32_of_bytes.
  change (2 ^ 32) with 4294967296 in Hv.
  Z.div_mod_to_equations. lia.
Qed.

Lemma bytes_of_u32_range (v : Z) :
  Forall (fun b => 0 <= b < 256) (Persist.bytes_of_u32 v).
Proof.
  unfold Persist.bytes_of_u32.
  repeat constructor; apply Z.mod_pos_bound; lia.
Qed.

Lemma list_eqb_eq (a b : list Z) : Persist.list_eqb a b = true <-> a = b.
Proof.
  unfold Persist.list_eqb. revert b.
  induction a as [ | x a IH ]; intros [ | y b ]; simpl;
    try (split; intros H; (discriminate H || reflexivity)).
  specialize (IH b). split.
  - intros H. apply andb_true_iff in H. destruct H as [L H].
    apply andb_true_iff in H. destruct H as [E F].
    apply Z.eqb_eq in E. subst y. f_equal. apply IH.
    apply andb_true_iff. now split.
  - intros [= -> ->]. destruct IH as [_ IH]. specialize (IH eq_refl).
    apply andb_true_iff in IH. destruct IH as [L F].
    apply andb_true_iff. split; [ exact L | ].
    apply andb_true_iff. split; [ apply Z.eqb_refl | exact F ].
Qed.

Lemma land_255_byte (b : Z) : 0 <= b < 256 -> Z.land 255 b = b.
Proof.
  intros Hb. rewrite Z.land_comm. change 255 with (Z.ones 8).
  rewrite Z.land_ones by lia. apply Z.mod_small. exact Hb.
Qed.

(** The bytes of the variable after the flash was erased and programmed
    with a buffer that starts with the bytes of [p]. *)
Lemma stored_bytes_programmed
    (p : Persist.persist) (pad : list Z) (count : Z) (f : Persist.flash) :
  8 <= count ->
  Persist.stored_bytes
    (Persist.program (Persist.bytes_of_persist p ++ pad)
       (Persist.erase count f))
  = Persist.bytes_of_persist p.
Proof.
  intros Hc. unfold Persist.stored_bytes, Persist.program, Persist.erase.
  cbn [Persist.mem map].
  assert (L : 8 <= Z.of_nat (length (Persist.bytes_of_persist p ++ pad)))
    by (rewrite length_app; simpl; lia).
  assert (B : forall i, 0 <= i < 8 ->
            (if (0 <=? i) && (i <? Z.of_nat
                                     (length (Persist.bytes_of_persist p ++ pad)))
             then Z.land (if (0 <=? i) && (i <? count)
                          then 255 else Persist.mem f i)
                    (nth (Z.to_nat i) (Persist.bytes_of_persist p ++ pad) 255)
             else (if (0 <=? i) && (i <? count) then 255 else Persist.mem f i))
            = nth (Z.to_nat i) (Persist.bytes_of_persist p) 255).
  { intros i Hi.
    replace ((0 <=? i) && (i <? Z.of_nat
                                  (length (Persist.bytes_of_persist p ++ pad))))
      with true
      by (symmetry; apply andb_true_iff; split;
          [ apply Z.leb_le | apply Z.ltb_lt ]; lia).
    replace ((0 <=? i) && (i <? count)) with true
      by (symmetry; apply andb_true_iff; split;
          [ apply Z.leb_le | apply Z.ltb_lt ]; lia).
    rewrite app_nth1 by (simpl; lia).
    apply land_255_byte.
    pose proof (bytes_of_u32_range (Persist.version p)) as R1.
    pose proof (bytes_of_u32_range (Persist.target_rpm p)) as R2.
    assert (R : Forall (fun b => 0 <= b < 256) (Persist.bytes_of_persist p))
      by (apply Forall_app; now split).
    rewrite Forall_forall in R. apply R. apply nth_In. simpl. lia. }
  rewrite !B by lia. reflexivity.
Qed.

Lemma stored_of_bytes (p : Persist.persist) (f : Persist.flash) :
  persist_in_range p ->
  Persist.stored_bytes f = Persist.bytes_of_persist p ->
  Persist.stored f = p.
Proof.
  intros [Hv Hr] E. unfold Persist.stored_bytes in E. simpl in E.
  injection E as E0 E1 E2 E3 E4 E5 E6 E7.
  unfold Persist.stored. rewrite E0, E1, E2, E3, E4, E5, E6, E7.
  rewrite !u32_of_bytes_of_u32 by assumption.
  now destruct p.
Qed.

(** What [write_persist] leaves in the variable, whether it touched the
    flash or not. *)
Lemma write_persist_stored_bytes
    (g : Persist.flash_geometry) (p : Persist.persist) (f : Persist.flash) :
  0 < Persist.FLASH_PAGE_SIZE g -> 0 < Persist.FLASH_SECTOR_SIZE g ->
  8 + Persist.FLASH_PAGE_SIZE g + Persist.FLASH_SECTOR_SIZE g < 2 ^ 32 ->
  Persist.stored_bytes (Persist.write_persist g p f)
  = Persist.bytes_of_persist p.
Proof.
  intros Hp Hs Hb. unfold Persist.write_persist. cbv zeta.
  destruct (ROUND_UP_bounds 8 (Persist.FLASH_PAGE_SIZE g)) as [_ B1];
    try lia.
  destruct (ROUND_UP_bounds (Persist.ROUND_UP 8 (Persist.FLASH_PAGE_SIZE g))
              (Persist.FLASH_SECTOR_SIZE g)) as [_ B2]; try lia.
  rewrite firstn_app. change (length (Persist.bytes_of_persist p)) with 8%nat.
  change (8 - 8)%nat with 0%nat. rewrite firstn_O, app_nil_r.
  change (firstn 8 (Persist.bytes_of_persist p))
    with (Persist.bytes_of_persist p).
  destruct (Persist.list_eqb (Persist.bytes_of_persist p)
              (Persist.stored_bytes f)) eqn:E; simpl negb; cbv iota.
  - symmetry. now apply list_eqb_eq.
  - apply stored_bytes_programmed. lia.
Qed.

(** X12.  With a flash geometry of positive sizes that fit 32 bits and a
    record whose fields are 32-bit values, reading after a write gives the
    written record when its version is [PERSIST_VERSION], and the defaults
    (version 1, 20 rpm) when it is not. *)
Theorem read_after_write_persist
    (g : Persist.flash_geometry) (p : Persist.persist) (f : Persist.flash) :
  0 < Persist.FLASH_PAGE_SIZE g -> 0 < Persist.FLASH_SECTOR_SIZE g ->
  8 + Persist.FLASH_PAGE_SIZE g + Persist.FLASH_SECTOR_SIZE g < 2 ^ 32 ->
  persist_in_range p ->
  Persist.read_persist (Persist.write_persist g p f)
  = if Persist.version p =? Persist.PERSIST_VERSION then p
    else Persist.DEFAULT_PERSIST.
Proof.
  intros Hp Hs Hb Hr.
  pose proof (write_persist_stored_bytes g p f Hp Hs Hb) as E.
  apply (stored_of_bytes p) in E; [ | exact Hr ].
  unfold Persist.read_persist. rewrite E.
  destruct (Persist.version p =? Persist.PERSIST_VERSION); reflexivity.
Qed.

Lemma read_after_write_persist_witness :
  Persist.read_persist
    (Persist.write_persist pico_flash (Persist.mk_persist 1 45) flash_image)
  = Persist.mk_persist 1 45.
Proof.
  apply (read_after_write_persist pico_flash (Persist.mk_persist 1 45)
           flash_image); unfold persist_in_range; simpl; lia.
Defined.

(** X13.  With such a geometry, a second [write_persist] of the same record
    performs no flash operation at all: the flash is left exactly as the
    first write left it.  A write erases and programs only when the bytes of
    the record differ from the bytes in flash. *)
Theorem write_persist_twice
    (g : Persist.flash_geometry) (p : Persist.persist) (f : Persist.flash) :
  0 < Persist.FLASH_PAGE_SIZE g -> 0 < Persist.FLASH_SECTOR_SIZE g ->
  8 + Persist.FLASH_PAGE_SIZE g + Persist.FLASH_SECTOR_SIZE g < 2 ^ 32 ->
  Persist.write_persist g p (Persist.write_persist g p f)
  = Persist.write_persist g p f
  /\ (Persist.stored_bytes f = Persist.bytes_of_persist p ->
      Persist.write_persist g p f = f)
  /\ (Persist.stored_bytes f <> Persist.bytes_of_persist p ->
      exists count data,
        Persist.ops (Persist.write_persist g p f)
        = Persist.flash_range_program data
          :: Persist.flash_range_erase count :: Persist.ops f).
Proof.
  intros Hp Hs Hb.
  assert (Skip : forall f', Persist.stored_bytes f' = Persist.bytes_of_persist p ->
            Persist.write_persist g p f' = f').
  { intros f' E. unfold Persist.write_persist. cbv zeta.
    rewrite firstn_app. change (length (Persist.bytes_of_persist p)) with 8%nat.
    change (8 - 8)%nat with 0%nat. rewrite firstn_O, app_nil_r.
    change (firstn 8 (Persist.bytes_of_persist p))
      with (Persist.bytes_of_persist p).
    replace (Persist.list_eqb (Persist.bytes_of_persist p)
               (Persist.stored_bytes f')) with true
      by (symmetry; apply list_eqb_eq; now symmetry).
    reflexivity. }
  split; [ | split ].
  - apply Skip. now apply write_persist_stored_bytes.
  - apply Skip.
  - intros N. unfold Persist.write_persist. cbv zeta.
    rewrite firstn_app. change (length (Persist.bytes_of_persist p)) with 8%nat.
    change (8 - 8)%nat with 0%nat. rewrite firstn_O, app_nil_r.
    change (firstn 8 (Persist.bytes_of_persist p))
      with (Persist.bytes_of_persist p).
    destruct (Persist.list_eqb (Persist.bytes_of_persist p)
                (Persist.stored_bytes f)) eqn:E.
    + apply list_eqb_eq in E. congruence.
    + simpl. eauto.
Qed.

Lemma write_persist_twice_witness :
  Persist.write_persist pico_flash (Persist.mk_persist 1 45)
    (Persist.write_persist pico_flash (Persist.mk_persist 1 45) flash_image)
  = Persist.write_persist pico_flash (Persist.mk_persist 1 45) flash_image.
Proof.
  apply (write_persist_twice pico_flash (Persist.mk_persist 1 45)
           flash_image); simpl; lia.
Defined.

(** ** Orchestration *)

(** X14.  [us_to_hms] splits a time in microseconds into hours, minutes
    below 60 and seconds below 60; as long as the hours fit 32 bits (more
    than 490000 years) the three fields add up to the whole seconds of the
    time. *)
Theorem us_to_hms_recomposes (us : Z) :
  0 <= us < 2 ^ 64 ->
  0 <= Main.minutes (Main.us_to_hms us) < 60
  /\ 0 <= Main.seconds (Main.us_to_hms us) < 60
  /\ (us < 2 ^ 32 * 3600000000 ->
      Main.hours (Main.us_to_hms us) * 3600
      + Main.minutes (Main.us_to_hms us) * 60
      + Main.seconds (Main.us_to_hms us) = us / 1000000).
Proof.
  intros Hus. unfold Main.us_to_hms. cbn [Main.hours Main.minutes Main.seconds].
  change (1000000 * 60 * 60) with (1000000 * 3600).
  change (1000000 * 60) with (1000000 * 60).
  rewrite <- !Z.div_div by lia.
  set (S := us / 1000000).
  assert (HS : 0 <= S) by (apply Z.div_pos; lia).
  pose proof (Z.mod_pos_bound (S / 60) 60 ltac:(lia)) as M1.
  pose proof (Z.mod_pos_bound S 60 ltac:(lia)) as M2.
  rewrite (wrap32_small ((S / 60) mod 60)) by lia.
  rewrite (wrap32_small (S mod 60)) by lia.
  split; [ exact M1 | split; [ exact M2 | ] ].
  intros Hb.
  assert (H3 : 0 <= S / 3600 < 2 ^ 32).
  { split; [ apply Z.div_pos; lia | ].
    apply Z.div_lt_upper_bound; [ lia | ].
    unfold S. apply Z.div_lt_upper_bound; lia. }
  rewrite wrap32_small by exact H3.
  clear - HS. Z.div_mod_to_equations. lia.
Qed.

Lemma us_to_hms_recomposes_witness :
  Main.hours (Main.us_to_hms 3725000000) * 3600
  + Main.minutes (Main.us_to_hms 3725000000) * 60
  + Main.seconds (Main.us_to_hms 3725000000) = 3725.
Proof.
  destruct (us_to_hms_recomposes 3725000000) as (_ & _ & R); [ lia | ].
  apply R. lia.
Defined.

(** The speed that [set_target_rpm] stores. *)
Lemma set_target_rpm_stored (t1 t2 : Z) (g g' : Main.globals) (new_rpm : Z) :
  Main.set_target_rpm t1 t2 g new_rpm = Some g' ->
  Persist.target_rpm (Main.persist g')
  = Z.min (Z.max new_rpm RPM_STEP) MAX_RPM
  /\ Persist.version (Main.persist g') = Persist.version (Main.persist g)
  /\ Main.run g' = Main.run g
  /\ Main.flash g' = Main.flash g
  /\ (Main.run g = false -> Main.motor g' = Main.motor g)
  /\ (Main.run g = true ->
      stepper_set_rpm t1 t2 (Main.motor g)
        (Z.min (Z.max new_rpm RPM_STEP) MAX_RPM) = Some (Main.motor g')).
Proof.
  unfold Main.set_target_rpm. cbv zeta. cbn [Main.run Main.persist Main.motor].
  cbn [Persist.target_rpm]. rewrite MIN_min, MAX_max.
  destruct (Main.run g) eqn:R.
  - destruct (stepper_set_rpm _ _ _ _) as [m | ]; [ | discriminate ].
    simpl. intros [= <-]. simpl. repeat split; congruence.
  - intros [= <-]. simpl. repeat split; congruence.
Qed.

(** X15.  The speed buttons: whatever 32-bit speed is stored, after
    [set_target_rpm] the stored speed lies between [RPM_STEP] and
    [MAX_RPM].  From a stored speed in that range the up button adds
    [RPM_STEP] up to [MAX_RPM] and the down button subtracts [RPM_STEP]
    down to [RPM_STEP]; from a stored speed below [RPM_STEP] the down button
    wraps around and stores [MAX_RPM]. *)
Theorem speed_buttons_clamp (now t1 t2 : Z) (g gu gd : Main.globals) :
  0 <= Persist.target_rpm (Main.persist g) < 2 ^ 32 ->
  Main.speed_up now t1 t2 g = Some gu ->
  Main.speed_down now t1 t2 g = Some gd ->
  RPM_STEP <= Persist.target_rpm (Main.persist gu) <= MAX_RPM
  /\ RPM_STEP <= Persist.target_rpm (Main.persist gd) <= MAX_RPM
  /\ (RPM_STEP <= Persist.target_rpm (Main.persist g) <= MAX_RPM ->
      Persist.target_rpm (Main.persist gu)
      = Z.min (Persist.target_rpm (Main.persist g) + RPM_STEP) MAX_RPM
      /\ Persist.target_rpm (Main.persist gd)
         = Z.max (Persist.target_rpm (Main.persist g) - RPM_STEP) RPM_STEP)
  /\ (Persist.target_rpm (Main.persist g) < RPM_STEP ->
      Persist.target_rpm (Main.persist gd) = MAX_RPM).
Proof.
  intros Hr Hu Hd. unfold Main.speed_up in Hu. unfold Main.speed_down in Hd.
  destruct (Main.set_target_rpm t1 t2 g
              (wrap32 (Persist.target_rpm (Main.persist g) + RPM_STEP)))
    as [g1 | ] eqn:E1; [ | discriminate ].
  destruct (Main.set_target_rpm t1 t2 g
              (wrap32 (Persist.target_rpm (Main.persist g) - RPM_STEP)))
    as [g2 | ] eqn:E2; [ | discriminate ].
  simpl in Hu, Hd. injection Hu as <-. injection Hd as <-.
  cbn [Main.persist].
  apply set_target_rpm_stored in E1. destruct E1 as (E1 & _).
  apply set_target_rpm_stored in E2. destruct E2 as (E2 & _).
  rewrite E1, E2. unfold RPM_STEP, MAX_RPM in *.
  set (t := Persist.target_rpm (Main.persist g)) in *.
  split; [ lia | split; [ lia | split ] ].
  - intros Ht. rewrite !wrap32_small by lia. lia.
  - intros Ht.
    assert (W : wrap32 (t - 5) = t - 5 + 2 ^ 32).
    { unfold wrap32. symmetry. apply (Z.mod_unique _ _ (-1)); lia. }
    rewrite W. lia.
Qed.

Lemma speed_buttons_clamp_witness :
  exists gu gd,
    Main.speed_up 9 9 9 globals_booted = Some gu
    /\ Main.speed_down 9 9 9 globals_booted = Some gd
    /\ Persist.target_rpm (Main.persist gu) = 25
    /\ Persist.target_rpm (Main.persist gd) = 15.
Proof.
  eexists. eexists.
  split; [ vm_compute; reflexivity | split; [ vm_compute; reflexivity | ] ].
  eapply (fun g1 g2 H1 H2 =>
            proj1 (proj2 (proj2 (speed_buttons_clamp 9 9 9 globals_booted g1 g2
                                   ltac:(vm_compute; split; congruence) H1 H2)))
              ltac:(vm_compute; split; congruence));
    vm_compute; reflexivity.
Defined.

Lemma stepper_set_rpm_target (t1 t2 : Z) (s : stepper) (rpm : Z) (s' : stepper) :
  stepper_set_rpm t1 t2 s rpm = Some s' ->
  target_rpm s' = MIN rpm (max_rpm s)
  /\ max_rpm s' = max_rpm s /\ steps_per_rev s' = steps_per_rev s.
Proof.
  intros E.
  destruct (Z.eq_dec (MIN rpm (max_rpm s)) (target_rpm s)) as [Eq | Ne].
  - rewrite stepper_set_rpm_same in E by assumption.
    injection E as <-. auto.
  - apply stepper_set_rpm_changed_inv in E; [ | exact Ne ].
    subst s'. repeat split.
Qed.

(** X16.  The speed that the driver is commanded follows the buttons: if the
    commanded speed is the stored speed while running and zero while
    stopped (the stored speed between [RPM_STEP] and [MAX_RPM], the driver
    created with [MAX_RPM] and a nonzero [steps_per_rev]), then the up
    button, the down button and the start/stop button each complete and
    keep it so; the start/stop button toggles [run]. *)
Theorem buttons_keep_motor_in_sync
    (fg : Persist.flash_geometry) (now t1 t2 : Z) (g : Main.globals) :
  in_sync g ->
  (exists g', Main.speed_up now t1 t2 g = Some g' /\ in_sync g')
  /\ (exists g', Main.speed_down now t1 t2 g = Some g' /\ in_sync g')
  /\ (exists g', Main.start_stop fg now t1 t2 g = Some g' /\ in_sync g'
                 /\ Main.run g' = negb (Main.run g)).
Proof.
  intros (Hmax & Hspr & Hrange & Htgt).
  assert (Set_rpm : forall new_rpm,
            exists g1, Main.set_target_rpm t1 t2 g new_rpm = Some g1
                       /\ in_sync g1).
  { intros new_rpm.
    set (c := Z.min (Z.max new_rpm RPM_STEP) MAX_RPM).
    assert (Hc : RPM_STEP <= c <= MAX_RPM)
      by (unfold c, RPM_STEP, MAX_RPM; lia).
    unfold Main.set_target_rpm. cbv zeta.
    cbn [Main.run Main.persist Main.motor Persist.target_rpm].
    rewrite MIN_min, MAX_max. fold c.
    destruct (Main.run g) eqn:R.
    - destruct (stepper_set_rpm_completes t1 t2 (Main.motor g) c) as [m Em];
        [ now left | ].
      rewrite Em. simpl. eexists. split; [ reflexivity | ].
      destruct (stepper_set_rpm_target _ _ _ _ _ Em) as (T1 & T2 & T3).
      unfold in_sync. simpl. rewrite ?R, T1, T2, T3, Hmax, MIN_min.
      repeat split; try assumption; lia.
    - eexists. split; [ reflexivity | ].
      unfold in_sync. simpl. rewrite ?R. repeat split; try assumption; lia. }
  assert (Keep : forall g1 t, in_sync g1 ->
            in_sync (Main.mk_globals (Main.run g1) (Main.run_time_start g1) t
                       (Main.persist g1) (Main.motor g1) (Main.flash g1)))
    by (intros g1 t H; exact H).
  split; [ | split ].
  - destruct (Set_rpm (wrap32 (Persist.target_rpm (Main.persist g) + RPM_STEP)))
      as (g1 & E & I).
    unfold Main.speed_up. rewrite E. simpl. eexists. split; [ reflexivity | ].
    now apply Keep.
  - destruct (Set_rpm (wrap32 (Persist.target_rpm (Main.persist g) - RPM_STEP)))
      as (g1 & E & I).
    unfold Main.speed_down. rewrite E. simpl. eexists.
    split; [ reflexivity | ]. now apply Keep.
  - unfold Main.start_stop. cbv zeta.
    destruct (Main.run g) eqn:R; simpl negb; cbv iota.
    + destruct (stepper_set_rpm_completes t1 t2 (Main.motor g) 0) as [m Em];
        [ now left | ].
      rewrite Em. simpl. eexists. split; [ reflexivity | ].
      destruct (stepper_set_rpm_target _ _ _ _ _ Em) as (T1 & T2 & T3).
      split; [ | reflexivity ].
      unfold in_sync. simpl. rewrite T1, T2, T3, Hmax, MIN_min.
      unfold MAX_RPM, RPM_STEP in *. repeat split; try assumption; lia.
    + destruct (stepper_set_rpm_completes t1 t2 (Main.motor g)
                  (Persist.target_rpm (Main.persist g))) as [m Em];
        [ now left | ].
      rewrite Em. simpl. eexists. split; [ reflexivity | ].
      destruct (stepper_set_rpm_target _ _ _ _ _ Em) as (T1 & T2 & T3).
      split; [ | reflexivity ].
      unfold in_sync. simpl. rewrite T1, T2, T3, Hmax, MIN_min.
      repeat split; try assumption; lia.
Qed.

Lemma globals_booted_in_sync : in_sync globals_booted.
Proof.
  unfold in_sync. vm_compute. repeat split; congruence.
Qed.

Lemma buttons_keep_motor_in_sync_witness :
  exists g', Main.start_stop pico_flash 9 9 9 globals_booted = Some g'
             /\ in_sync g' /\ Main.run g' = true.
Proof.
  destruct (buttons_keep_motor_in_sync pico_flash 9 9 9 globals_booted)
    as (_ & _ & S); [ unfold in_sync; vm_compute; repeat split; congruence | ].
  exact S.
Defined.

(** X17.  [pwm_set_freq_duty] for a frequency from 8 Hz to below [2^20] Hz
    and a duty cycle from 0 to 100: it completes without a zero divisor; the
    integer part of the clock divider lies between 1 and 255 and the
    fraction below 16; the counter wrap is below [2^16]; and the channel
    level never exceeds the wrap. *)
Theorem pwm_set_freq_duty_fits (frequency duty : Z) :
  8 <= frequency < 2 ^ 20 -> 0 <= duty <= 100 ->
  exists p,
    Main.pwm_set_freq_duty frequency duty = Some p
    /\ 1 <= Main.clkdiv_int p <= 255
    /\ 0 <= Main.clkdiv_frac p < 16
    /\ 0 <= Main.pwm_wrap p < 2 ^ 16
    /\ 0 <= Main.chan_level p <= Main.pwm_wrap p.
Proof.
  intros Hf Hd. unfold Main.pwm_set_freq_duty. cbv zeta.
  change (2 ^ 20) with 1048576 in Hf.
  assert (W1 : wrap32 (frequency * 4096) = frequency * 4096)
    by (apply wrap32_small; change (2 ^ 32) with 4294967296; lia).
  rewrite W1.
  replace (frequency =? 0) with false by (symmetry; apply Z.eqb_neq; lia).
  replace (frequency * 4096 =? 0) with false
    by (symmetry; apply Z.eqb_neq; lia).
  simpl orb. cbv iota.
  rewrite Z.div_div by lia.
  set (c := 125000000) in *.
  set (q := c / (frequency * 4096)).
  set (r := if nonzero (c mod (frequency * 4096)) then 1 else 0).
  assert (Hq : 0 <= q <= 3814).
  { split; [ apply Z.div_pos; unfold c; lia | ].
    assert (q < 3815); [ | lia ].
    unfold q. apply Z.div_lt_upper_bound; [ lia | ]. unfold c. lia. }
  assert (Hr : 0 <= r <= 1) by (unfold r; destruct (nonzero _); lia).
  assert (Hceil : c <= (q + r) * (frequency * 4096)
                  /\ q * (frequency * 4096) <= c).
  { unfold q, r.
    pose proof (Z.div_mod c (frequency * 4096) ltac:(lia)) as DM.
    pose proof (Z.mod_pos_bound c (frequency * 4096) ltac:(lia)) as MB.
    destruct (nonzero (c mod (frequency * 4096))) eqn:NZ.
    - nia.
    - apply nonzero_false in NZ. nia. }
  rewrite (wrap32_small (q + r)) by (change (2 ^ 32) with 4294967296; lia).
  set (d := if (q + r) / 16 =? 0 then 16 else q + r).
  assert (Hd16 : 16 <= d <= 3815 /\ c <= d * (frequency * 4096)
                 /\ (d = 16 \/ d = q + r)).
  { unfold d. destruct (Z.eqb_spec ((q + r) / 16) 0) as [E | N].
    - assert (q + r < 16).
      { destruct (Z_lt_ge_dec (q + r) 16) as [L | G]; [ exact L | ].
        assert (1 <= (q + r) / 16) by (apply Z.div_le_lower_bound; lia).
        lia. }
      split; [ lia | split; [ nia | now left ] ].
    - assert (16 <= q + r).
      { destruct (Z_lt_ge_dec (q + r) 16) as [L | G]; [ | lia ].
        exfalso. apply N. apply Z.div_small. lia. }
      split; [ lia | split; [ lia | now right ] ]. }
  destruct Hd16 as (D1 & D2 & D3).
  rewrite (wrap32_small (c * 16)) by (unfold c; change (2 ^ 32) with 4294967296; lia).
  set (w1 := c * 16 / d / frequency).
  assert (Hw : 1 <= w1 <= 65536).
  { unfold w1. rewrite Z.div_div by lia. split.
    - apply Z.div_le_lower_bound; [ lia | ].
      destruct D3 as [-> | ->]; [ unfold c; lia | ].
      unfold c in *. nia.
    - apply Z.div_le_upper_bound; [ lia | ]. nia. }
  rewrite (wrap32_small (w1 - 1)) by (change (2 ^ 32) with 4294967296; lia).
  rewrite (wrap32_small duty) by (change (2 ^ 32) with 4294967296; lia).
  rewrite (wrap32_small ((w1 - 1) * duty))
    by (change (2 ^ 32) with 4294967296; nia).
  eexists. split; [ reflexivity | ].
  cbn [Main.clkdiv_int Main.clkdiv_frac Main.pwm_wrap Main.chan_level].
  change (2 ^ 16) with 65536.
  split; [ | split; [ | split ] ].
  - split.
    + apply Z.div_le_lower_bound; lia.
    + apply Z.div_le_upper_bound; lia.
  - change 15 with (Z.ones 4). rewrite Z.land_ones by lia.
    apply Z.mod_pos_bound. lia.
  - lia.
  - split.
    + apply Z.div_pos; nia.
    + apply Z.div_le_upper_bound; nia.
Qed.

Lemma pwm_set_freq_duty_fits_witness :
  exists p, Main.pwm_set_freq_duty 15000 40 = Some p
            /\ 0 <= Main.chan_level p <= Main.pwm_wrap p.
Proof.
  destruct (pwm_set_freq_duty_fits 15000 40) as (p & E & _ & _ & _ & L);
    [ lia | lia | ].
  exists p. split; assumption.
Defined.

(** ** The button driver *)

(** The repeat loop touches the repeat counter and [last_repeat] only. *)
Lemma repeat_loop_frame (fuel : nat) (now : Z) :
  forall b b',
    Button.repeat_loop fuel now b = Some b' ->
    Button.state b' = Button.state b
    /\ Button.start_time b' = Button.start_time b
    /\ Button.down b' = Button.down b /\ Button.up b' = Button.up b
    /\ Button.is_pressed b' = Button.is_pressed b
    /\ Button.last_duration b' = Button.last_duration b
    /\ Button.repeat_ms b' = Button.repeat_ms b
    /\ Button.repeat_delay_ms b' = Button.repeat_delay_ms b.
Proof.
  induction fuel as [ | fuel IH ]; intros b b'; simpl;
    destruct (_ <? now); try discriminate;
    try (intros [= <-]; repeat split).
  intros E. apply IH in E. simpl in E. exact E.
Qed.

Lemma pressed_case_events (pressed : bool) (now : Z) (b : Button.button) :
  held b = true -> Button.down b = false ->
  let b' := Button.pressed_case pressed now b in
  Button.down b' = false
  /\ Button.up b' = (if pressed then Button.up b else true)
  /\ Button.is_pressed b' = pressed
  /\ held b' = pressed
  /\ (pressed = false ->
      Button.last_duration b' = wrap32 (now - Button.start_time b)
      /\ Button.state b' = Button.STATE_RELEASED
      /\ Button.repeat_count b' = Button.repeat_count b).
Proof.
  intros Hh Hd. unfold Button.pressed_case. cbv zeta.
  destruct pressed.
  - destruct (_ && _).
    + simpl. repeat split; (assumption || discriminate).
    + simpl. repeat split; try assumption; discriminate.
  - simpl. repeat split; assumption.
Qed.

(** X18.  What the flags mean after any call of [button_update] that
    returns: [down] is set only by the call that leaves the debounce state
    for the pressed state, which restarts the press time and sets the repeat
    count to one; [up] is set only by a call that finds a held button
    released, which records the duration of the press; [is_pressed] is set
    only while the button stays held; so at most one of the three flags is
    set. *)
Theorem button_update_flags
    (fuel : nat) (level : bool) (now : Z) (b b' : Button.button) :
  Button.button_update fuel level now b = Some b' ->
  (Button.down b' = true ->
   Button.state b = Button.STATE_DEBOUNCE
   /\ Button.state b' = Button.STATE_PRESSED
   /\ Button.start_time b' = now /\ Button.repeat_count b' = 1)
  /\ (Button.up b' = true ->
      held b = true /\ Button.state b' = Button.STATE_RELEASED
      /\ Button.last_duration b' = wrap32 (now - Button.start_time b))
  /\ (Button.is_pressed b' = true -> held b = true /\ held b' = true)
  /\ (Button.down b' && Button.up b' = false
      /\ Button.down b' && Button.is_pressed b' = false
      /\ Button.up b' && Button.is_pressed b' = false).
Proof.
  unfold Button.button_update. cbv zeta.
  set (pressed := if Button.invert b then negb level else level).
  set (b0 := Button.set_is_pressed false
               (Button.set_up false (Button.set_down false b))).
  assert (S0 : Button.state b0 = Button.state b) by reflexivity.
  assert (H0 : held b0 = held b) by reflexivity.
  rewrite S0. unfold held at 1 2. destruct (Button.state b) eqn:St.
  - destruct pressed; intros [= <-]; simpl; rewrite ?St;
      repeat split; intros; discriminate.
  - destruct pressed; [ destruct (_ >=? _) | ]; intros [= <-]; simpl;
      rewrite ?St; repeat split; intros; discriminate.
  - intros [= <-].
    destruct (pressed_case_events pressed now b0) as (D & U & P & Hh & R);
      [ unfold held; now rewrite S0 | reflexivity | ].
    cbv zeta in *. rewrite D, U, P.
    change (Button.up b0) with false.
    destruct pressed; repeat split; intros; try discriminate;
      try (now apply R); try exact Hh.
  - destruct (if nonzero (Button.repeat_ms b0)
              then Button.repeat_loop fuel now b0 else Some b0)
      as [b1 | ] eqn:L; [ simpl | discriminate ].
    intros [= <-].
    assert (F : Button.state b1 = Button.state b0
                /\ Button.start_time b1 = Button.start_time b0
                /\ Button.down b1 = Button.down b0
                /\ Button.up b1 = Button.up b0).
    { destruct (nonzero (Button.repeat_ms b0)).
      - apply repeat_loop_frame in L. tauto.
      - injection L as <-. repeat split. }
    destruct F as (F1 & F2 & F3 & F4).
    destruct (pressed_case_events pressed now b1) as (D & U & P & Hh & R);
      [ unfold held; now rewrite F1, S0 | now rewrite F3 | ].
    cbv zeta in *. rewrite D, U, P, F4.
    change (Button.up b0) with false.
    destruct pressed; repeat split; intros; try discriminate;
      try exact Hh; try (now apply R).
    destruct (R eq_refl) as (R1 & _). rewrite R1, F2. reflexivity.
Qed.

Lemma button_update_flags_witness :
  Button.down button_pressed = true
  /\ Button.state button_debouncing = Button.STATE_DEBOUNCE
  /\ Button.state button_pressed = Button.STATE_PRESSED
  /\ Button.start_time button_pressed = 40000
  /\ Button.repeat_count button_pressed = 1.
Proof.
  split; [ reflexivity | ].
  refine (proj1 (button_update_flags 0 false 40000 button_debouncing
                   button_pressed _) _); reflexivity.
Defined.

(** One call of [button_update], case by case. *)
Lemma button_update_step
    (fuel : nat) (level : bool) (now : Z) (b b' : Button.button) :
  Button.button_update fuel level now b = Some b' ->
  let pressed := if Button.invert b then negb level else level in
  let due :=
    now >=? wrap32 (Button.start_time b + wrap32 (Button.debounce_ms b * 1000))
  in
  Button.down b'
  = (Button.button_state_eqb (Button.state b) Button.STATE_DEBOUNCE
     && pressed && due)
  /\ Button.up b' = held b && negb pressed
  /\ held b' = (held b || Button.down b') && pressed
  /\ (Button.state b' = Button.STATE_DEBOUNCE <->
      pressed = true
      /\ (Button.state b = Button.STATE_RELEASED
          \/ Button.state b = Button.STATE_DEBOUNCE /\ due = false)).
Proof.
  unfold Button.button_update. cbv zeta.
  set (pressed := if Button.invert b then negb level else level).
  set (b0 := Button.set_is_pressed false
               (Button.set_up false (Button.set_down false b))).
  assert (S0 : Button.state b0 = Button.state b) by reflexivity.
  rewrite S0. unfold held at 1 3. destruct (Button.state b) eqn:St.
  - destruct pressed; intros [= <-]; unfold held; simpl; rewrite ?St;
      repeat split; try tauto; try discriminate;
      intros; intuition discriminate.
  - change (Button.start_time b0) with (Button.start_time b).
    change (Button.debounce_ms b0) with (Button.debounce_ms b).
    destruct pressed; [ destruct (_ >=? _) | ]; intros [= <-]; unfold held;
      simpl; rewrite ?St; repeat split; try tauto; try discriminate;
      intros; intuition discriminate.
  - intros [= <-].
    destruct (pressed_case_events pressed now b0) as (D & U & P & Hh & R);
      [ unfold held; now rewrite S0 | reflexivity | ].
    cbv zeta in *. rewrite D, U, Hh.
    change (Button.up b0) with false.
    assert (N : Button.state (Button.pressed_case pressed now b0)
                <> Button.STATE_DEBOUNCE).
    { intros E. unfold held in Hh. rewrite E in Hh.
      destruct pressed; [ discriminate | ].
      destruct (R eq_refl) as (_ & R2 & _). congruence. }
    destruct pressed; repeat split; try tauto; try discriminate;
      intros; intuition discriminate.
  - destruct (if nonzero (Button.repeat_ms b0)
              then Button.repeat_loop fuel now b0 else Some b0)
      as [b1 | ] eqn:L; [ simpl | discriminate ].
    intros [= <-].
    assert (F : Button.state b1 = Button.state b0
                /\ Button.down b1 = Button.down b0
                /\ Button.up b1 = Button.up b0).
    { destruct (nonzero (Button.repeat_ms b0)).
      - apply repeat_loop_frame in L. tauto.
      - injection L as <-. repeat split. }
    destruct F as (F1 & F3 & F4).
    destruct (pressed_case_events pressed now b1) as (D & U & P & Hh & R);
      [ unfold held; now rewrite F1, S0 | now rewrite F3 | ].
    cbv zeta in *. rewrite D, U, Hh, F4.
    change (Button.up b0) with false.
    assert (N : Button.state (Button.pressed_case pressed now b1)
                <> Button.STATE_DEBOUNCE).
    { intros E. unfold held in Hh. rewrite E in Hh.
      destruct pressed; [ discriminate | ].
      destruct (R eq_refl) as (_ & R2 & _). congruence. }
    destruct pressed; repeat split; try tauto; try discriminate;
      intros; intuition discriminate.
Qed.

Lemma count_down_cons (d u : bool) (evs : list (bool * bool)) :
  count_down ((d, u) :: evs) = (Nat.b2n d + count_down evs)%nat.
Proof. unfold count_down. simpl. destruct d; reflexivity. Qed.

Lemma count_up_cons (d u : bool) (evs : list (bool * bool)) :
  count_up ((d, u) :: evs) = (Nat.b2n u + count_up evs)%nat.
Proof. unfold count_up. simpl. destruct u; reflexivity. Qed.

(** X19.  Over any sequence of calls of [button_update] that return, the
    [down] and [up] events alternate: the number of [down] events reported
    equals the number of [up] events reported plus one when the button
    ends held (pressed or repeating), less one when it started held; and no
    call reports both.  So for a button that starts released, as
    [button_create] makes it, the [up] events never outnumber the [down]
    events. *)
Theorem button_events_alternate
    (fuel : nat) (ins : list (bool * Z)) (b b' : Button.button)
    (evs : list (bool * bool)) :
  Button.updates fuel ins b = Some (b', evs) ->
  (count_down evs + Nat.b2n (held b) = count_up evs + Nat.b2n (held b'))%nat
  /\ Forall (fun e => fst e && snd e = false) evs
  /\ length evs = length ins.
Proof.
  revert b b' evs.
  induction ins as [ | [level now] ins IH ]; intros b b' evs.
  - simpl. intros [= <- <-]. repeat split. constructor.
  - simpl. destruct (Button.button_update fuel level now b) as [b1 | ] eqn:U;
      [ simpl | discriminate ].
    destruct (Button.updates fuel ins b1) as [[b2 evs2] | ] eqn:R;
      [ simpl | discriminate ].
    intros [= <- <-].
    destruct (IH _ _ _ R) as (IH1 & IH2 & IH3).
    destruct (button_update_step _ _ _ _ _ U) as (D & Up & Hh & _).
    cbv zeta in *.
    rewrite count_down_cons, count_up_cons.
    repeat split.
    + rewrite Hh in IH1. rewrite Up. rewrite D in *. unfold held in *.
      destruct (Button.state b),
        (if Button.invert b then negb level else level), (_ >=? _);
        simpl in *; lia.
    + constructor; [ | exact IH2 ]. simpl. rewrite Up, D.
      unfold held.
      destruct (Button.state b),
        (if Button.invert b then negb level else level), (_ >=? _);
        reflexivity.
    + simpl. now rewrite IH3.
Qed.

Lemma button_events_alternate_witness :
  (count_down [(false, false); (true, false)]
   + Nat.b2n (held (make_button 15))
   = count_up [(false, false); (true, false)]
     + Nat.b2n (held button_pressed))%nat.
Proof.
  refine (proj1 (button_events_alternate 0 [(false, 1000); (false, 40000)]
                   (make_button 15) button_pressed _ _)).
  reflexivity.
Defined.

Lemma pressed_level_pressed (b : Button.button) :
  (if Button.invert b then negb (pressed_level b) else pressed_level b) = true.
Proof. unfold pressed_level. now destruct (Button.invert b). Qed.

Lemma released_level_released (b : Button.button) :
  (if Button.invert b then negb (negb (pressed_level b))
   else negb (pressed_level b)) = false.
Proof. unfold pressed_level. now destruct (Button.invert b). Qed.

(** Polls that see the button pressed before the debounce time is over
    change nothing that matters and report nothing. *)
Lemma debounce_polls (fuel : nat) (polls : list (bool * Z)) :
  forall b : Button.button,
    Button.state b = Button.STATE_DEBOUNCE ->
    0 <= Button.debounce_ms b * 1000 < 2 ^ 32 ->
    0 <= Button.start_time b + Button.debounce_ms b * 1000 < 2 ^ 32 ->
    Forall (fun p => fst p = pressed_level b
                     /\ snd p < Button.start_time b
                                + Button.debounce_ms b * 1000) polls ->
    exists b',
      Button.updates fuel polls b
      = Some (b', repeat (false, false) (length polls))
      /\ Button.state b' = Button.STATE_DEBOUNCE
      /\ Button.start_time b' = Button.start_time b
      /\ Button.debounce_ms b' = Button.debounce_ms b
      /\ Button.invert b' = Button.invert b
      /\ Button.repeat_count b' = Button.repeat_count b.
Proof.
  induction polls as [ | [l t] polls IH ]; intros b St D1 D2 F.
  - exists b. repeat split. exact St.
  - inversion F as [ | ? ? [Hl Ht] F' ]; subst. simpl in Hl, Ht. subst l.
    set (b1 := Button.set_is_pressed false
                 (Button.set_up false (Button.set_down false b))).
    assert (U : Button.button_update fuel (pressed_level b) t b = Some b1).
    { unfold Button.button_update. cbv zeta. fold b1.
      change (Button.state b1) with (Button.state b). rewrite St.
      rewrite pressed_level_pressed.
      change (Button.start_time b1) with (Button.start_time b).
      change (Button.debounce_ms b1) with (Button.debounce_ms b).
      rewrite (wrap32_small (Button.debounce_ms b * 1000)) by exact D1.
      rewrite wrap32_small by exact D2.
      destruct (Z.geb_spec t (Button.start_time b
                              + Button.debounce_ms b * 1000)) as [G | G];
        [ lia | reflexivity ]. }
    destruct (IH b1) as (b' & R & P1 & P2 & P3 & P4 & P5);
      try assumption.
    exists b'. simpl. rewrite U. simpl. rewrite R. simpl.
    repeat split; assumption.
Qed.

Lemma updates_app (fuel : nat) (ins1 ins2 : list (bool * Z)) :
  forall (b b1 b2 : Button.button) (evs1 evs2 : list (bool * bool)),
    Button.updates fuel ins1 b = Some (b1, evs1) ->
    Button.updates fuel ins2 b1 = Some (b2, evs2) ->
    Button.updates fuel (ins1 ++ ins2) b = Some (b2, evs1 ++ evs2).
Proof.
  induction ins1 as [ | [l t] ins1 IH ]; intros b b1 b2 evs1 evs2.
  - simpl. intros [= <- <-] R. exact R.
  - simpl. destruct (Button.button_update fuel l t b) as [b0 | ];
      [ simpl | discriminate ].
    destruct (Button.updates fuel ins1 b0) as [[b3 evs3] | ] eqn:R1;
      [ simpl | discriminate ].
    intros [= <- <-] R2. rewrite (IH _ _ _ _ _ R1 R2). reflexivity.
Qed.

(** The first poll of a released button that sees it pressed, followed by
    polls before the debounce time is over. *)
Lemma press_then_polls
    (fuel : nat) (b : Button.button) (t0 : Z) (polls : list (bool * Z)) :
  Button.state b = Button.STATE_RELEASED ->
  0 <= Button.debounce_ms b * 1000 < 2 ^ 32 ->
  0 <= t0 + Button.debounce_ms b * 1000 < 2 ^ 32 ->
  Forall (fun p => fst p = pressed_level b
                   /\ snd p < t0 + Button.debounce_ms b * 1000) polls ->
  exists b',
    Button.updates fuel ((pressed_level b, t0) :: polls) b
    = Some (b', repeat (false, false) (S (length polls)))
    /\ Button.state b' = Button.STATE_DEBOUNCE
    /\ Button.start_time b' = t0
    /\ Button.debounce_ms b' = Button.debounce_ms b
    /\ Button.invert b' = Button.invert b
    /\ Button.repeat_count b' = Button.repeat_count b.
Proof.
  intros St D1 D2 F.
  set (b0 := Button.set_is_pressed false
               (Button.set_up false (Button.set_down false b))).
  set (b1 := Button.set_start_time t0
               (Button.set_state Button.STATE_DEBOUNCE b0)).
  assert (U : Button.button_update fuel (pressed_level b) t0 b = Some b1).
  { unfold Button.button_update. cbv zeta. fold b0.
    change (Button.state b0) with (Button.state b). rewrite St.
    now rewrite pressed_level_pressed. }
  destruct (debounce_polls fuel polls b1) as (b' & R & P);
    try assumption; try reflexivity.
  exists b'. simpl. rewrite U. simpl. rewrite R. simpl.
  split; [ reflexivity | exact P ].
Qed.

(** X20.  A press that ends before the debounce time is over is never
    reported: from a released button, a poll that sees the button pressed
    at [t0], any polls that see it pressed before
    [t0 + debounce_ms * 1000], and a poll that sees it released all return
    with neither [down] nor [up] set, and leave the button released with its
    repeat count unchanged. *)
Theorem short_press_not_reported
    (fuel : nat) (b : Button.button) (t0 t : Z) (polls : list (bool * Z)) :
  Button.state b = Button.STATE_RELEASED ->
  0 <= Button.debounce_ms b * 1000 < 2 ^ 32 ->
  0 <= t0 + Button.debounce_ms b * 1000 < 2 ^ 32 ->
  Forall (fun p => fst p = pressed_level b
                   /\ snd p < t0 + Button.debounce_ms b * 1000) polls ->
  exists b',
    Button.updates fuel
      ((pressed_level b, t0) :: polls ++ [(negb (pressed_level b), t)]) b
    = Some (b', repeat (false, false) (S (length polls) + 1))
    /\ Button.state b' = Button.STATE_RELEASED
    /\ Button.repeat_count b' = Button.repeat_count b.
Proof.
  intros St D1 D2 F.
  destruct (press_then_polls fuel b t0 polls St D1 D2 F)
    as (b1 & R & P1 & P2 & P3 & P4 & P5).
  set (b2 := Button.set_state Button.STATE_RELEASED
               (Button.set_is_pressed false
                  (Button.set_up false (Button.set_down false b1)))).
  exists b2. split; [ | split; [ reflexivity | exact P5 ] ].
  rewrite repeat_app.
  apply (updates_app fuel ((pressed_level b, t0) :: polls) _ b b1 b2 _ _ R).
  simpl. unfold Button.button_update. cbv zeta.
  change (Button.state (Button.set_is_pressed false
            (Button.set_up false (Button.set_down false b1))))
    with (Button.state b1).
  rewrite P1, P4.
  pose proof (released_level_released b) as E. rewrite E. reflexivity.
Qed.

Lemma short_press_not_reported_witness :
  exists b',
    Button.updates 0
      ((pressed_level (make_button 15), 1000)
         :: [(false, 20000)] ++ [(negb (pressed_level (make_button 15)), 30000)])
      (make_button 15)
    = Some (b', repeat (false, false) (S (length [(false, 20000)]) + 1))
    /\ Button.state b' = Button.STATE_RELEASED
    /\ Button.repeat_count b' = Button.repeat_count (make_button 15).
Proof.
  apply (short_press_not_reported 0 (make_button 15) 1000 30000
           [(false, 20000)]).
  - reflexivity.
  - vm_compute. split; congruence.
  - vm_compute. split; congruence.
  - repeat constructor.
Defined.

(** X21.  A press is reported once, by the first poll at or after the end
    of the debounce time: from a released button, a poll that sees the
    button pressed at [t0], any polls that see it pressed before
    [t0 + debounce_ms * 1000] and a poll that sees it pressed at [t1] at or
    after that time report [down] in the last call only; the press itself
    counts as one repeat, which [button_repeat] returns once and then
    clears; and the duration of the press is counted from [t1]. *)
Theorem press_reported_once
    (fuel : nat) (b : Button.button) (t0 t1 : Z) (polls : list (bool * Z)) :
  Button.state b = Button.STATE_RELEASED ->
  0 <= Button.debounce_ms b * 1000 < 2 ^ 32 ->
  0 <= t0 + Button.debounce_ms b * 1000 < 2 ^ 32 ->
  Forall (fun p => fst p = pressed_level b
                   /\ snd p < t0 + Button.debounce_ms b * 1000) polls ->
  t0 + Button.debounce_ms b * 1000 <= t1 ->
  exists b',
    Button.updates fuel
      ((pressed_level b, t0) :: polls ++ [(pressed_level b, t1)]) b
    = Some (b', repeat (false, false) (S (length polls)) ++ [(true, false)])
    /\ Button.button_down b' = true
    /\ fst (Button.button_repeat b') = 1
    /\ fst (Button.button_repeat (snd (Button.button_repeat b'))) = 0
    /\ Button.button_current_duration_us t1 b' = 0.
Proof.
  intros St D1 D2 F Ht.
  destruct (press_then_polls fuel b t0 polls St D1 D2 F)
    as (b1 & R & P1 & P2 & P3 & P4 & P5).
  set (b0 := Button.set_is_pressed false
               (Button.set_up false (Button.set_down false b1))).
  set (b2 := Button.set_repeat_count 1
               (Button.set_start_time t1
                  (Button.set_state Button.STATE_PRESSED
                     (Button.set_down true b0)))).
  exists b2. split; [ | repeat split ].
  - apply (updates_app fuel ((pressed_level b, t0) :: polls) _ b b1 b2 _ _ R).
    simpl. unfold Button.button_update. cbv zeta. fold b0.
    change (Button.state b0) with (Button.state b1).
    change (Button.start_time b0) with (Button.start_time b1).
    change (Button.debounce_ms b0) with (Button.debounce_ms b1).
    rewrite P1, P2, P3, P4, pressed_level_pressed.
    rewrite (wrap32_small (Button.debounce_ms b * 1000)) by exact D1.
    rewrite wrap32_small by exact D2.
    destruct (Z.geb_spec t1 (t0 + Button.debounce_ms b * 1000)) as [G | G];
      [ reflexivity | lia ].
  - unfold Button.button_current_duration_us.
    change (Button.start_time b2) with t1. now rewrite Z.sub_diag.
Qed.

Lemma press_reported_once_witness :
  exists b',
    Button.updates 0
      ((pressed_level (make_button 15), 1000)
         :: [(false, 20000)] ++ [(pressed_level (make_button 15), 36000)])
      (make_button 15)
    = Some (b', repeat (false, false) (S (length [(false, 20000)]))
                ++ [(true, false)])
    /\ Button.button_down b' = true
    /\ fst (Button.button_repeat b') = 1
    /\ fst (Button.button_repeat (snd (Button.button_repeat b'))) = 0
    /\ Button.button_current_duration_us 36000 b' = 0.
Proof.
  apply (press_reported_once 0 (make_button 15) 1000 36000 [(false, 20000)]).
  - reflexivity.
  - vm_compute. split; congruence.
  - vm_compute. split; congruence.
  - repeat constructor.
  - vm_compute. congruence.
Defined.

(** A call that finds a held button released records the time since the
    press began, modulo 2^32. *)
Lemma button_update_release
    (fuel : nat) (level : bool) (now : Z) (b b' : Button.button) :
  held b = true ->
  (if Button.invert b then negb level else level) = false ->
  Button.button_update fuel level now b = Some b' ->
  Button.up b' = true
  /\ Button.last_duration b' = wrap32 (now - Button.start_time b).
Proof.
  intros Hh Hp. unfold Button.button_update. cbv zeta. rewrite Hp.
  set (b0 := Button.set_is_pressed false
               (Button.set_up false (Button.set_down false b))).
  change (Button.state b0) with (Button.state b).
  unfold held in Hh. destruct (Button.state b) eqn:St; try discriminate.
  - intros [= <-]. split; reflexivity.
  - destruct (if nonzero (Button.repeat_ms b0)
              then Button.repeat_loop fuel now b0 else Some b0)
      as [b1 | ] eqn:L; [ simpl | discriminate ].
    intros [= <-].
    assert (F : Button.start_time b1 = Button.start_time b0).
    { destruct (nonzero (Button.repeat_ms b0)).
      - apply repeat_loop_frame in L. tauto.
      - now injection L as <-. }
    split; [ reflexivity | ].
    change (Button.last_duration (Button.pressed_case false now b1))
      with (wrap32 (now - Button.start_time b1)).
    rewrite F. reflexivity.
Qed.

Lemma wrap32_sub_wrap32 (a b : Z) :
  wrap32 (wrap32 a - wrap32 b) = wrap32 (a - b).
Proof.
  unfold wrap32. rewrite Zminus_mod_idemp_l, Zminus_mod_idemp_r. reflexivity.
Qed.

(** X22.  The recorded duration of a press is the true elapsed time even
    when the 32-bit microsecond counter wraps in between: if the press began
    at the true time [T0] and a call of [button_update] at the true time
    [T1], less than 2^32 us later, finds the held button released, the call
    (when it returns) reports [up], [button_last_duration_us] is [T1 - T0],
    and so was [button_current_duration_us] at that time. *)
Theorem press_duration_across_wrap
    (fuel : nat) (level : bool) (T0 T1 : Z) (b b' : Button.button) :
  held b = true ->
  (if Button.invert b then negb level else level) = false ->
  Button.start_time b = wrap32 T0 ->
  0 <= T1 - T0 < 2 ^ 32 ->
  Button.button_update fuel level (wrap32 T1) b = Some b' ->
  Button.button_up b' = true
  /\ Button.button_last_duration_us b' = T1 - T0
  /\ Button.button_current_duration_us (wrap32 T1) b = T1 - T0.
Proof.
  intros Hh Hp Hs Hd U.
  destruct (button_update_release _ _ _ _ _ Hh Hp U) as (Up & Ld).
  unfold Button.button_up, Button.button_last_duration_us,
    Button.button_current_duration_us.
  rewrite Up, Ld, Hs, wrap32_sub_wrap32, wrap32_small by exact Hd.
  repeat split.
Qed.

Lemma press_duration_across_wrap_witness :
  Button.button_up button_released_after_wrap = true
  /\ Button.button_last_duration_us button_released_after_wrap
     = (2 ^ 32 + 1000000) - (2 ^ 32 - 40000)
  /\ Button.button_current_duration_us (wrap32 (2 ^ 32 + 1000000))
       button_pressed_before_wrap
     = (2 ^ 32 + 1000000) - (2 ^ 32 - 40000).
Proof.
  refine (press_duration_across_wrap 0 true (2 ^ 32 - 40000)
            (2 ^ 32 + 1000000) button_pressed_before_wrap
            button_released_after_wrap _ _ _ _ _).
  - reflexivity.
  - reflexivity.
  - reflexivity.
  - vm_compute. split; congruence.
  - reflexivity.
Defined.

(** The repeat loop when nothing wraps: it goes round [k] times, [k] being
    the number of whole periods that lie strictly before [now]. *)
Lemma repeat_loop_counts (now : Z) (k : nat) :
  forall (fuel : nat) (b : Button.button),
    (k <= fuel)%nat ->
    0 < Button.repeat_ms b * 1000 ->
    0 <= Button.last_repeat b ->
    Button.last_repeat b + (Z.of_nat k + 1) * (Button.repeat_ms b * 1000)
    < 2 ^ 32 ->
    0 <= Button.repeat_count b ->
    Button.repeat_count b + Z.of_nat k < 2 ^ 32 ->
    (k = O \/
     Button.last_repeat b + Z.of_nat k * (Button.repeat_ms b * 1000) < now) ->
    now <= Button.last_repeat b
           + (Z.of_nat k + 1) * (Button.repeat_ms b * 1000) ->
    exists b',
      Button.repeat_loop fuel now b = Some b'
      /\ Button.repeat_count b' = Button.repeat_count b + Z.of_nat k
      /\ Button.last_repeat b'
         = Button.last_repeat b + Z.of_nat k * (Button.repeat_ms b * 1000).
Proof.
  induction k as [ | k IH ]; intros fuel b Hf Hp Hl Hw Hc Hcw Hk Hn.
  - exists b. split; [ | split; simpl; lia ].
    assert (E : wrap32 (Button.last_repeat b
                        + wrap32 (Button.repeat_ms b * 1000))
                = Button.last_repeat b + Button.repeat_ms b * 1000).
    { rewrite (wrap32_small (Button.repeat_ms b * 1000)) by lia.
      apply wrap32_small. lia. }
    destruct fuel; simpl; rewrite E;
      (destruct (Z.ltb_spec (Button.last_repeat b
                             + Button.repeat_ms b * 1000) now);
       [ lia | reflexivity ]).
  - destruct Hk as [Hk | Hk]; [ discriminate | ].
    destruct fuel as [ | fuel ]; [ lia | ].
    set (p := Button.repeat_ms b * 1000) in *.
    assert (Hkp : 0 <= Z.of_nat k * p) by nia.
    assert (E : wrap32 (Button.last_repeat b + wrap32 p)
                = Button.last_repeat b + p).
    { rewrite (wrap32_small p) by nia. apply wrap32_small. nia. }
    cbn [Button.repeat_loop]. fold p. rewrite E.
    destruct (Z.ltb_spec (Button.last_repeat b + p) now) as [L | L];
      [ | nia ].
    cbv zeta.
    set (b1 := Button.set_repeat_count
                 (wrap32 (Button.repeat_count b + 1)) b).
    change (Button.last_repeat b1) with (Button.last_repeat b).
    change (Button.repeat_ms b1 * 1000) with p. rewrite E.
    set (b2 := Button.set_last_repeat (Button.last_repeat b + p) b1).
    assert (C : Button.repeat_count b2 = Button.repeat_count b + 1).
    { change (Button.repeat_count b2)
        with (wrap32 (Button.repeat_count b + 1)).
      apply wrap32_small. lia. }
    destruct (IH fuel b2) as (b' & R & R1 & R2).
    + lia.
    + exact Hp.
    + change (Button.last_repeat b2) with (Button.last_repeat b + p). lia.
    + change (Button.last_repeat b2) with (Button.last_repeat b + p).
      change (Button.repeat_ms b2 * 1000) with p. nia.
    + rewrite C. lia.
    + rewrite C. lia.
    + change (Button.last_repeat b2) with (Button.last_repeat b + p).
      change (Button.repeat_ms b2 * 1000) with p.
      destruct k as [ | k ]; [ now left | right; nia ].
    + change (Button.last_repeat b2) with (Button.last_repeat b + p).
      change (Button.repeat_ms b2 * 1000) with p. nia.
    + exists b'. split; [ exact R | ]. rewrite R1, R2, C.
      change (Button.last_repeat b2) with (Button.last_repeat b + p).
      change (Button.repeat_ms b2 * 1000) with p. split; nia.
Qed.

(** X23.  While a button repeats and no 32-bit value wraps, a call of
    [button_update] that sees it pressed adds to the repeat count the number
    [k] of whole repeat periods that lie strictly before [now], counted
    from [last_repeat], and moves [last_repeat] on by these periods, so that
    at most one period is left over; the call returns (the loop ends after
    [k] rounds) and the button stays in the repeat state with [is_pressed]
    set. *)
Theorem held_button_repeats
    (k fuel : nat) (level : bool) (now : Z) (b : Button.button) :
  Button.state b = Button.STATE_REPEAT ->
  (if Button.invert b then negb level else level) = true ->
  (k <= fuel)%nat ->
  0 < Button.repeat_ms b ->
  0 <= Button.last_repeat b ->
  Button.last_repeat b + (Z.of_nat k + 1) * (Button.repeat_ms b * 1000)
  < 2 ^ 32 ->
  0 <= Button.repeat_count b ->
  Button.repeat_count b + Z.of_nat k < 2 ^ 32 ->
  (k = O \/
   Button.last_repeat b + Z.of_nat k * (Button.repeat_ms b * 1000) < now) ->
  now <= Button.last_repeat b + (Z.of_nat k + 1) * (Button.repeat_ms b * 1000) ->
  exists b',
    Button.button_update fuel level now b = Some b'
    /\ fst (Button.button_repeat b') = Button.repeat_count b + Z.of_nat k
    /\ Button.last_repeat b'
       = Button.last_repeat b + Z.of_nat k * (Button.repeat_ms b * 1000)
    /\ now - Button.repeat_ms b * 1000 <= Button.last_repeat b'
    /\ Button.state b' = Button.STATE_REPEAT
    /\ Button.button_is_pressed b' = true.
Proof.
  intros St Hp Hf Hr Hl Hw Hc Hcw Hk Hn.
  set (b0 := Button.set_is_pressed false
               (Button.set_up false (Button.set_down false b))).
  destruct (repeat_loop_counts now k fuel b0) as (b1 & L & L1 & L2);
    try assumption; try (change (Button.repeat_ms b0) with (Button.repeat_ms b); lia).
  pose proof (repeat_loop_frame _ _ _ _ L) as (F1 & _).
  change (Button.state b0) with (Button.state b) in F1.
  exists (Button.set_is_pressed true b1).
  split; [ | repeat split ].
  - unfold Button.button_update. cbv zeta. fold b0.
    change (Button.state b0) with (Button.state b). rewrite St, Hp.
    change (Button.repeat_ms b0) with (Button.repeat_ms b).
    replace (nonzero (Button.repeat_ms b)) with true
      by (unfold nonzero; destruct (Z.eqb_spec (Button.repeat_ms b) 0);
          [ lia | reflexivity ]).
    rewrite L. simpl. unfold Button.pressed_case. cbv zeta.
    change (Button.state (Button.set_is_pressed true b1))
      with (Button.state b1).
    rewrite F1, St. reflexivity.
  - exact L1.
  - exact L2.
  - change (Button.last_repeat (Button.set_is_pressed true b1))
      with (Button.last_repeat b1). rewrite L2.
    change (Button.last_repeat b0) with (Button.last_repeat b).
    change (Button.repeat_ms b0) with (Button.repeat_ms b). lia.
  - change (Button.state (Button.set_is_pressed true b1))
      with (Button.state b1). now rewrite F1.
Qed.

Lemma held_button_repeats_witness :
  exists b',
    Button.button_update 5 false 3000000 button_repeating = Some b'
    /\ fst (Button.button_repeat b')
       = Button.repeat_count button_repeating + Z.of_nat 3
    /\ Button.last_repeat b'
       = Button.last_repeat button_repeating
         + Z.of_nat 3 * (Button.repeat_ms button_repeating * 1000)
    /\ 3000000 - Button.repeat_ms button_repeating * 1000
       <= Button.last_repeat b'
    /\ Button.state b' = Button.STATE_REPEAT
    /\ Button.button_is_pressed b' = true.
Proof.
  apply (held_button_repeats 3 5 false 3000000 button_repeating).
  - reflexivity.
  - reflexivity.
  - repeat constructor.
  - reflexivity.
  - vm_compute. congruence.
  - reflexivity.
  - vm_compute. congruence.
  - reflexivity.
  - right. reflexivity.
  - vm_compute. congruence.
Defined.

(** A 32-bit value is at most [2^32 - g] plus its remainder modulo a
    divisor [g] of [2^32]. *)
Lemma wrap32_residue_bound (g x : Z) :
  0 < g -> (g | 2 ^ 32) -> wrap32 x <= 2 ^ 32 - g + x mod g.
Proof.
  intros Hg [m Hm].
  assert (R : wrap32 x mod g = x mod g).
  { unfold wrap32. apply Z.mod_mod_divide. exists m. exact Hm. }
  assert (B : 0 <= wrap32 x < 2 ^ 32)
    by (unfold wrap32; apply Z.mod_pos_bound; lia).
  pose proof (Z.div_mod (wrap32 x) g ltac:(lia)) as E.
  rewrite R in E.
  assert (Q : wrap32 x / g < m).
  { apply Z.div_lt_upper_bound; [ exact Hg | ]. rewrite Z.mul_comm, <- Hm.
    lia. }
  nia.
Qed.

(** Near the wrap of the microsecond counter the repeat loop never ends. *)
Lemma repeat_loop_never_ends (g now : Z) (fuel : nat) :
  forall b : Button.button,
    0 < g -> (g | 2 ^ 32) -> (g | Button.repeat_ms b * 1000) ->
    2 ^ 32 - g + Button.last_repeat b mod g < now ->
    Button.repeat_loop fuel now b = None.
Proof.
  induction fuel as [ | fuel IH ]; intros b Hg H32 Hp Hn.
  - assert (M : (Button.last_repeat b
                 + wrap32 (Button.repeat_ms b * 1000)) mod g
                = Button.last_repeat b mod g).
    { rewrite Z.add_mod by lia.
      replace (wrap32 (Button.repeat_ms b * 1000) mod g) with 0.
      - rewrite Z.add_0_r. apply Z.mod_mod. lia.
      - unfold wrap32. rewrite Z.mod_mod_divide by exact H32.
        symmetry. apply Z.mod_divide in Hp; lia. }
    pose proof (wrap32_residue_bound g
                  (Button.last_repeat b
                   + wrap32 (Button.repeat_ms b * 1000)) Hg H32) as B.
    rewrite M in B. simpl.
    destruct (Z.ltb_spec
                (wrap32 (Button.last_repeat b
                         + wrap32 (Button.repeat_ms b * 1000))) now);
      [ reflexivity | lia ].
  - assert (M : (Button.last_repeat b
                 + wrap32 (Button.repeat_ms b * 1000)) mod g
                = Button.last_repeat b mod g).
    { rewrite Z.add_mod by lia.
      replace (wrap32 (Button.repeat_ms b * 1000) mod g) with 0.
      - rewrite Z.add_0_r. apply Z.mod_mod. lia.
      - unfold wrap32. rewrite Z.mod_mod_divide by exact H32.
        symmetry. apply Z.mod_divide in Hp; lia. }
    pose proof (wrap32_residue_bound g
                  (Button.last_repeat b
                   + wrap32 (Button.repeat_ms b * 1000)) Hg H32) as B.
    rewrite M in B. cbn [Button.repeat_loop].
    destruct (Z.ltb_spec
                (wrap32 (Button.last_repeat b
                         + wrap32 (Button.repeat_ms b * 1000))) now);
      [ | lia ].
    cbv zeta. apply IH; try assumption.
    set (b1 := Button.set_repeat_count
                 (wrap32 (Button.repeat_count b + 1)) b).
    change (Button.last_repeat (Button.set_last_repeat _ b1))
      with (wrap32 (Button.last_repeat b
                    + wrap32 (Button.repeat_ms b * 1000))).
    unfold wrap32 at 1. rewrite Z.mod_mod_divide by exact H32.
    rewrite M. exact Hn.
Qed.

(** X24.  A call of [button_update] on a repeating button never returns
    when it reads a time too close to the wrap of the 32-bit microsecond
    counter: if [g] divides both [2^32] and the repeat period
    [repeat_ms * 1000], and [now] is above
    [2^32 - g + last_repeat mod g], then every value that [last_repeat] can
    take stays below [now], and the loop of the repeat state goes on for
    ever, whatever the level of the pin.  For the buttons of the firmware
    (period 500 000 us, [g = 32]) these are the last microseconds before
    every wrap; with a period that is a multiple of [2^32] ([g = 2^32]) it
    is every time after [last_repeat]. *)
Theorem repeating_button_hangs_near_wrap
    (g now : Z) (level : bool) (b : Button.button) :
  Button.state b = Button.STATE_REPEAT ->
  Button.repeat_ms b <> 0 ->
  0 < g -> (g | 2 ^ 32) -> (g | Button.repeat_ms b * 1000) ->
  2 ^ 32 - g + Button.last_repeat b mod g < now ->
  forall fuel : nat, Button.button_update fuel level now b = None.
Proof.
  intros St Hr Hg H32 Hp Hn fuel.
  unfold Button.button_update. cbv zeta.
  set (b0 := Button.set_is_pressed false
               (Button.set_up false (Button.set_down false b))).
  change (Button.state b0) with (Button.state b). rewrite St.
  change (Button.repeat_ms b0) with (Button.repeat_ms b).
  replace (nonzero (Button.repeat_ms b)) with true
    by (unfold nonzero; destruct (Z.eqb_spec (Button.repeat_ms b) 0);
        [ contradiction | reflexivity ]).
  rewrite (repeat_loop_never_ends g now fuel b0); try assumption.
  reflexivity.
Qed.

Lemma repeating_button_hangs_near_wrap_witness :
  Button.button_update 1000 false (2 ^ 32 - 1) button_repeating = None.
Proof.
  refine (repeating_button_hangs_near_wrap 32 (2 ^ 32 - 1) false
            button_repeating _ _ _ _ _ _ 1000%nat).
  - reflexivity.
  - vm_compute. congruence.
  - reflexivity.
  - exists (2 ^ 27). reflexivity.
  - exists 15625. reflexivity.
  - vm_compute. reflexivity.
Defined.
